(** * Fortune's sweep-line Voronoi construction (sem4/GeometricAlgoCS/ProgAssignment/new2)

    A shallow embedding of [voronoi.hh] / [voronoi.cpp].

    - The C++ [double] is kept abstract behind the interface [Double]; it has
      two interpretations: IEEE binary64 ([Double_float], executable) and
      the exact real numbers ([Double_R]) for the facts that rest on field
      arithmetic.
    - Every [std::shared_ptr] is a handle into one of three arenas (arcs,
      events, segments) kept in the state; [None] is [nullptr].  The value
      of a handle is the address of the object, which is what the
      comparison of two [shared_ptr] looks at.
    - Member functions run in a state monad with two failure outcomes:
      [Crash] (a null or dangling pointer is dereferenced, an empty queue
      is popped) and [OutOfFuel] (a loop did not stop within its budget). *)

From Stdlib Require Import Floats.
From Stdlib Require Import Reals Lra.
From stdpp Require Import base list.

(** ** The arithmetic of [double] *)

Class Double (D : Type) := {
  d0 : D; d1 : D; d2 : D; d4 : D; d5 : D;
  dadd : D -> D -> D;
  dsub : D -> D -> D;
  dmul : D -> D -> D;
  ddiv : D -> D -> D;
  dopp : D -> D;
  dsqrt : D -> D;
  dhypot : D -> D -> D;
  deqb : D -> D -> bool;
  dltb : D -> D -> bool;
  dleb : D -> D -> bool
}.

Declare Scope double_scope.
Delimit Scope double_scope with D.
Infix "+" := dadd : double_scope.
Infix "-" := dsub : double_scope.
Infix "*" := dmul : double_scope.
Infix "/" := ddiv : double_scope.
Notation "- a" := (dopp a) : double_scope.
Infix "==?" := deqb (at level 70, no associativity) : double_scope.
Infix "<?" := dltb (at level 70, no associativity) : double_scope.
Infix "<=?" := dleb (at level 70, no associativity) : double_scope.

(** IEEE binary64.  [std::hypot] is taken as the rounded square root of the
    rounded sum of squares. *)
#[export] Instance Double_float : Double PrimFloat.float := {|
  d0 := 0%float; d1 := 1%float; d2 := 2%float; d4 := 4%float; d5 := 5%float;
  dadd := PrimFloat.add; dsub := PrimFloat.sub;
  dmul := PrimFloat.mul; ddiv := PrimFloat.div;
  dopp := PrimFloat.opp;
  dsqrt := PrimFloat.sqrt;
  dhypot := fun a b => PrimFloat.sqrt (PrimFloat.add (PrimFloat.mul a a) (PrimFloat.mul b b));
  deqb := PrimFloat.eqb; dltb := PrimFloat.ltb; dleb := PrimFloat.leb
|}.

Definition Reqb (a b : R) : bool := if Req_dec_T a b then true else false.
Definition Rltb (a b : R) : bool := if Rlt_dec a b then true else false.
Definition Rleb (a b : R) : bool := if Rle_dec a b then true else false.

(** Exact real arithmetic. *)
#[export] Instance Double_R : Double R := {|
  d0 := 0%R; d1 := 1%R; d2 := 2%R; d4 := 4%R; d5 := 5%R;
  dadd := Rplus; dsub := Rminus; dmul := Rmult; ddiv := Rdiv;
  dopp := Ropp;
  dsqrt := sqrt;
  dhypot := fun a b => sqrt (a * a + b * b)%R;
  deqb := Reqb; dltb := Rltb; dleb := Rleb
|}.

(** ** Outcomes and the state monad *)

Inductive result (A : Type) : Type :=
| Ok (a : A)
| Crash
| OutOfFuel.
Arguments Ok {A} a.
Arguments Crash {A}.
Arguments OutOfFuel {A}.

(** [std::priority_queue<T, std::vector<T>, std::greater<>>]: the queue is
    kept as the sequence of pushed elements; [pq_pop gt] takes out an
    element that no other element is smaller than, where [gt a b] is the
    [a > b] that [std::greater<>] calls.  Among equivalent elements the
    earliest pushed one is taken. *)
Fixpoint pq_pop {A : Type} (gt : A -> A -> bool) (q : list A) : option (A * list A) :=
  match q with
  | [] => None
  | a :: q' =>
      match pq_pop gt q' with
      | None => Some (a, [])
      | Some (m, r) => if gt a m then Some (m, a :: r) else Some (a, q')
      end
  end.

Section Fortune.

Context {D : Type} `{Double D}.
Local Open Scope double_scope.

(** ** Geometry primitives ([voronoi.hh]) *)

Record Point := mkPoint { px : D; py : D }.

(** [Point()] : both coordinates default to [0.0]. *)
Definition Point0 : Point := mkPoint d0 d0.

(** [Point::operator==] *)
Definition Point_eqb (a b : Point) : bool :=
  (px a ==? px b) && (py a ==? py b).

(** Modelled from the spec: [Point]'s [operator>], which [std::greater<>]
    needs for the site queue and which [voronoi.hh] does not declare.  The
    spec orders points lexicographically by (x, y). *)
Definition Point_gt (a b : Point) : bool :=
  (px b <? px a) || ((px a ==? px b) && (py b <? py a)).

Record Segment := mkSegment {
  seg_start : Point;
  seg_end : Point;
  seg_done : bool
}.

(** [Segment(const Point& p)] *)
Definition Segment_new (p : Point) : Segment := mkSegment p Point0 false.

(** [Segment::finish] *)
Definition finish (s : Segment) (p : Point) : Segment :=
  if negb (seg_done s) then mkSegment (seg_start s) p true else s.

Definition ArcPtr := option nat.
Definition EventPtr := option nat.
Definition SegmentPtr := option nat.

Record Arc := mkArc {
  arc_p : Point;
  arc_prev : ArcPtr;
  arc_next : ArcPtr;
  arc_event : EventPtr;
  left_segment : SegmentPtr;
  right_segment : SegmentPtr
}.

(** [Arc(const Point& pp, ArcPtr a = nullptr, ArcPtr b = nullptr)] *)
Definition Arc_new (pp : Point) (a b : ArcPtr) : Arc :=
  mkArc pp a b None None None.

Record Event := mkEvent {
  ev_x : D;
  ev_p : Point;
  ev_arc : ArcPtr;
  ev_valid : bool
}.

(** [Event(double xx, const Point& pp, ArcPtr aa)] *)
Definition Event_new (xx : D) (pp : Point) (aa : ArcPtr) : Event :=
  mkEvent xx pp aa true.

(** ** The two geometric predicates *)

(** [FortuneAlgorithm::circle]: [None] is [return false]; [Some (x, o)] is
    [return true] with the two out-parameters. *)
Definition circle (a b c : Point) : option (D * Point) :=
  if d0 <? (px b - px a) * (py c - py a) - (px c - px a) * (py b - py a) then None
  else
    let A := px b - px a in
    let B := py b - py a in
    let C := px c - px a in
    let D' := py c - py a in
    let E := A * (px a + px b) + B * (py a + py b) in
    let F := C * (px a + px c) + D' * (py a + py c) in
    let G := d2 * (A * (py c - py b) - B * (px c - px b)) in
    if G ==? d0 then None
    else
      let ox := (D' * E - B * F) / G in
      let oy := (A * F - C * E) / G in
      Some (ox + dhypot (px a - ox) (py a - oy), mkPoint ox oy).

(** The [y] that [FortuneAlgorithm::intersection] stores in [res.y], with
    the focus [p] that the last statement substitutes it into. *)
Definition intersection_y (p0 p1 : Point) (l : D) : D * Point :=
  if px p0 ==? px p1 then ((py p0 + py p1) / d2, p0)
  else if px p1 ==? l then (py p1, p0)
  else if px p0 ==? l then (py p0, p1)
  else
    let z0 := d2 * (px p0 - l) in
    let z1 := d2 * (px p1 - l) in
    let a := d1 / z0 - d1 / z1 in
    let b := (- d2) * (py p0 / z0 - py p1 / z1) in
    let c := (py p0 * py p0 + px p0 * px p0 - l * l) / z0
             - (py p1 * py p1 + px p1 * px p1 - l * l) / z1 in
    (((- b) - dsqrt (b * b - d4 * a * c)) / (d2 * a), p0).

(** [FortuneAlgorithm::intersection] *)
Definition intersection (p0 p1 : Point) (l : D) : Point :=
  let '(ry, p) := intersection_y p0 p1 l in
  mkPoint ((px p * px p + (py p - ry) * (py p - ry) - l * l) / (d2 * px p - d2 * l)) ry.

End Fortune.

Arguments Point D : clear implicits.
Arguments Segment D : clear implicits.
Arguments Arc D : clear implicits.
Arguments Event D : clear implicits.


(** ** The algorithm object and its heap *)

Section Algorithm.

Context {D : Type} `{Double D}.
Local Open Scope double_scope.

(** The members of [FortuneAlgorithm], followed by the three arenas that
    its [shared_ptr]s point into.  A handle is the index of its object. *)
Record FortuneAlgorithm := mkFA {
  root : ArcPtr;
  points : list (Point D);
  events : list EventPtr;
  output_segments : list SegmentPtr;
  x_min : D; x_max : D; y_min : D; y_max : D;
  arc_heap : list (Arc D);
  event_heap : list (Event D);
  segment_heap : list (Segment D)
}.

(** The default-constructed object. *)
Definition FortuneAlgorithm_new : FortuneAlgorithm :=
  mkFA None [] [] [] d0 d0 d0 d0 [] [] [].

Definition M (A : Type) : Type := FortuneAlgorithm -> result (A * FortuneAlgorithm).

Definition ret {A : Type} (a : A) : M A := fun s => Ok (a, s).

Definition bind {A B : Type} (m : M A) (k : A -> M B) : M B :=
  fun s =>
    match m s with
    | Ok (a, s') => k a s'
    | Crash => Crash
    | OutOfFuel => OutOfFuel
    end.

Definition crash {A : Type} : M A := fun _ => Crash.
Definition out_of_fuel {A : Type} : M A := fun _ => OutOfFuel.
Definition gets {A : Type} (f : FortuneAlgorithm -> A) : M A := fun s => Ok (f s, s).
Definition modify (f : FortuneAlgorithm -> FortuneAlgorithm) : M unit := fun s => Ok (tt, f s).

End Algorithm.

Arguments FortuneAlgorithm D : clear implicits.
Arguments M D A : clear implicits.

Declare Scope fa_scope.
Delimit Scope fa_scope with fa.
Notation "'let*' x ':=' m 'in' k" := (bind m (fun x => k))
  (at level 10, x name, m at level 100, k at level 200) : fa_scope.
Notation "m ;; k" := (bind m (fun _ => k))
  (at level 100, k at level 200, right associativity) : fa_scope.

Section Members.

Context {D : Type} `{Double D}.
Local Open Scope double_scope.
Local Open Scope fa_scope.

Local Abbreviation FA := (FortuneAlgorithm D).

(** *** Field updates *)

Definition set_root (v : ArcPtr) (s : FA) : FA :=
  mkFA v (points s) (events s) (output_segments s) (x_min s) (x_max s) (y_min s) (y_max s)
       (arc_heap s) (event_heap s) (segment_heap s).
Definition set_points (v : list (Point D)) (s : FA) : FA :=
  mkFA (root s) v (events s) (output_segments s) (x_min s) (x_max s) (y_min s) (y_max s)
       (arc_heap s) (event_heap s) (segment_heap s).
Definition set_events (v : list EventPtr) (s : FA) : FA :=
  mkFA (root s) (points s) v (output_segments s) (x_min s) (x_max s) (y_min s) (y_max s)
       (arc_heap s) (event_heap s) (segment_heap s).
Definition set_output_segments (v : list SegmentPtr) (s : FA) : FA :=
  mkFA (root s) (points s) (events s) v (x_min s) (x_max s) (y_min s) (y_max s)
       (arc_heap s) (event_heap s) (segment_heap s).
Definition set_box (x0 x1 y0 y1 : D) (s : FA) : FA :=
  mkFA (root s) (points s) (events s) (output_segments s) x0 x1 y0 y1
       (arc_heap s) (event_heap s) (segment_heap s).
Definition set_arc_heap (v : list (Arc D)) (s : FA) : FA :=
  mkFA (root s) (points s) (events s) (output_segments s) (x_min s) (x_max s) (y_min s) (y_max s)
       v (event_heap s) (segment_heap s).
Definition set_event_heap (v : list (Event D)) (s : FA) : FA :=
  mkFA (root s) (points s) (events s) (output_segments s) (x_min s) (x_max s) (y_min s) (y_max s)
       (arc_heap s) v (segment_heap s).
Definition set_segment_heap (v : list (Segment D)) (s : FA) : FA :=
  mkFA (root s) (points s) (events s) (output_segments s) (x_min s) (x_max s) (y_min s) (y_max s)
       (arc_heap s) (event_heap s) v.

Definition with_prev (v : ArcPtr) (a : Arc D) : Arc D :=
  mkArc (arc_p a) v (arc_next a) (arc_event a) (left_segment a) (right_segment a).
Definition with_next (v : ArcPtr) (a : Arc D) : Arc D :=
  mkArc (arc_p a) (arc_prev a) v (arc_event a) (left_segment a) (right_segment a).
Definition with_event (v : EventPtr) (a : Arc D) : Arc D :=
  mkArc (arc_p a) (arc_prev a) (arc_next a) v (left_segment a) (right_segment a).
Definition with_left_segment (v : SegmentPtr) (a : Arc D) : Arc D :=
  mkArc (arc_p a) (arc_prev a) (arc_next a) (arc_event a) v (right_segment a).
Definition with_right_segment (v : SegmentPtr) (a : Arc D) : Arc D :=
  mkArc (arc_p a) (arc_prev a) (arc_next a) (arc_event a) (left_segment a) v.
Definition with_valid (v : bool) (e : Event D) : Event D :=
  mkEvent (ev_x e) (ev_p e) (ev_arc e) v.

(** *** Pointers: dereference, assignment through a pointer, [make_shared] *)

Definition load {A : Type} (heap : FA -> list A) (ptr : option nat) : M D A :=
  fun s =>
    match ptr with
    | Some n => match heap s !! n with Some a => Ok (a, s) | None => Crash end
    | None => Crash
    end.

Definition load_arc : ArcPtr -> M D (Arc D) := load arc_heap.
Definition load_event : EventPtr -> M D (Event D) := load event_heap.
Definition load_segment : SegmentPtr -> M D (Segment D) := load segment_heap.

Definition update_arc (i : ArcPtr) (f : Arc D -> Arc D) : M D unit :=
  let* a := load_arc i in
  modify (fun s => set_arc_heap (alter f (default 0 i) (arc_heap s)) s).
Definition update_event (e : EventPtr) (f : Event D -> Event D) : M D unit :=
  let* a := load_event e in
  modify (fun s => set_event_heap (alter f (default 0 e) (event_heap s)) s).
Definition update_segment (g : SegmentPtr) (f : Segment D -> Segment D) : M D unit :=
  let* a := load_segment g in
  modify (fun s => set_segment_heap (alter f (default 0 g) (segment_heap s)) s).

Definition new_arc (a : Arc D) : M D ArcPtr :=
  fun s => Ok (Some (length (arc_heap s)), set_arc_heap (arc_heap s ++ [a]) s).
Definition new_event (e : Event D) : M D EventPtr :=
  fun s => Ok (Some (length (event_heap s)), set_event_heap (event_heap s ++ [e]) s).
Definition new_segment (g : Segment D) : M D SegmentPtr :=
  fun s => Ok (Some (length (segment_heap s)), set_segment_heap (segment_heap s ++ [g]) s).

(** [i->p], [i->prev], ... *)
Definition p_of (i : ArcPtr) : M D (Point D) := let* a := load_arc i in ret (arc_p a).
Definition prev_of (i : ArcPtr) : M D ArcPtr := let* a := load_arc i in ret (arc_prev a).
Definition next_of (i : ArcPtr) : M D ArcPtr := let* a := load_arc i in ret (arc_next a).
Definition event_of (i : ArcPtr) : M D EventPtr := let* a := load_arc i in ret (arc_event a).
Definition left_of (i : ArcPtr) : M D SegmentPtr := let* a := load_arc i in ret (left_segment a).
Definition right_of (i : ArcPtr) : M D SegmentPtr := let* a := load_arc i in ret (right_segment a).

(** [g->finish(p)] through a [SegmentPtr] *)
Definition finish_at (g : SegmentPtr) (p : Point D) : M D unit :=
  update_segment g (fun sg => finish sg p).

(** [!ptr] *)
Definition is_null {A : Type} (ptr : option A) : bool :=
  if ptr is Some _ then false else true.

(** [q.empty ()] *)
Definition is_empty {A : Type} (q : list A) : bool :=
  if q is [] then true else false.

(** *** The two queues *)

(** [a > b] on two [shared_ptr]: the stored addresses are compared; the
    null pointer is below every object.  The position of an object in its
    arena stands for its address: an object created later is above every
    object created before it, as with an allocator that hands out
    increasing addresses and gives no freed block out again. *)
Definition ptr_gt (a b : option nat) : bool :=
  match a, b with
  | Some m, Some n => (n <? m)%nat
  | Some _, None => true
  | None, _ => false
  end.

Definition points_push (p : Point D) : M D unit :=
  modify (fun s => set_points (points s ++ [p]) s).
Definition points_top : M D (Point D) :=
  fun s => match pq_pop Point_gt (points s) with
           | Some (p, _) => Ok (p, s)
           | None => Crash
           end.
Definition points_pop : M D unit :=
  fun s => match pq_pop Point_gt (points s) with
           | Some (_, q) => Ok (tt, set_points q s)
           | None => Crash
           end.

Definition events_push (e : EventPtr) : M D unit :=
  modify (fun s => set_events (events s ++ [e]) s).
Definition events_top : M D EventPtr :=
  fun s => match pq_pop ptr_gt (events s) with
           | Some (e, _) => Ok (e, s)
           | None => Crash
           end.
Definition events_pop : M D unit :=
  fun s => match pq_pop ptr_gt (events s) with
           | Some (_, q) => Ok (tt, set_events q s)
           | None => Crash
           end.

Definition output_push (g : SegmentPtr) : M D unit :=
  modify (fun s => set_output_segments (output_segments s ++ [g]) s).

(** ** Member functions ([voronoi.cpp]) *)

(** [FortuneAlgorithm::add_point]; [std::min (a, b)] is [b < a ? b : a] and
    [std::max (a, b)] is [a < b ? b : a]. *)
Definition dmin (a b : D) : D := if b <? a then b else a.
Definition dmax (a b : D) : D := if a <? b then b else a.

Definition add_point (p : Point D) : M D unit :=
  points_push p ;;
  let* n := gets (fun s => length (points s)) in
  if (n =? 1)%nat then
    modify (set_box (px p) (px p) (py p) (py p))
  else
    modify (fun s => set_box (dmin (x_min s) (px p)) (dmax (x_max s) (px p))
                             (dmin (y_min s) (py p)) (dmax (y_max s) (py p)) s).

(** [FortuneAlgorithm::get_segments] *)
Definition get_segments (s : FA) : list SegmentPtr := output_segments s.

(** [FortuneAlgorithm::intersect], called with a non-null [res];
    [Some z] is [return true] with [*res = z]. *)
Definition intersect (p : Point D) (i : ArcPtr) : M D (option (Point D)) :=
  let* ip := p_of i in
  if px ip ==? px p then ret None
  else
    let* iprev := prev_of i in
    let* inext := next_of i in
    let* a := (if iprev is Some _ then
                 let* pp := p_of iprev in
                 ret (py (intersection pp ip (px p)))
               else ret d0) in
    let* b := (if inext is Some _ then
                 let* np := p_of inext in
                 ret (py (intersection ip np (px p)))
               else ret d0) in
    if (is_null iprev || (a <=? py p))
       && (is_null inext || (py p <=? b))
    then
      ret (Some (mkPoint ((px ip * px ip + (py ip - py p) * (py ip - py p) - px p * px p)
                           / (d2 * px ip - d2 * px p))
                         (py p)))
    else ret None.

(** [FortuneAlgorithm::check_circle_event] *)
Definition check_circle_event (i : ArcPtr) (x0 : D) : M D bool :=
  let* e := event_of i in
  (if e is Some _ then
     let* ev := load_event e in
     if negb (ev_x ev ==? x0) then update_event e (with_valid false) else ret tt
   else ret tt) ;;
  update_arc i (with_event None) ;;
  let* iprev := prev_of i in
  let* inext := next_of i in
  if is_null iprev || is_null inext then ret false
  else
    let* pp := p_of iprev in
    let* ip := p_of i in
    let* np := p_of inext in
    match circle pp ip np with
    | Some (x, o) =>
        if x0 <? x then
          let* e' := new_event (Event_new x o i) in
          update_arc i (with_event e') ;;
          let* e'' := event_of i in
          events_push e'' ;;
          ret true
        else ret false
    | None => ret false
    end.

(** The body of [if (e->valid)] in [process_event], for the popped event
    [ev]. *)
Definition process_event_fire (ev : Event D) : M D unit :=
  let* s := new_segment (Segment_new (ev_p ev)) in
  output_push s ;;
  let a := ev_arc ev in
  let* aprev := prev_of a in
  (if aprev is Some _ then
     let* anext := next_of a in
     update_arc aprev (with_next anext) ;;
     update_arc aprev (with_right_segment s)
   else ret tt) ;;
  let* anext := next_of a in
  (if anext is Some _ then
     let* aprev := prev_of a in
     update_arc anext (with_prev aprev) ;;
     update_arc anext (with_left_segment s)
   else ret tt) ;;
  let* l := left_of a in
  (if l is Some _ then finish_at l (ev_p ev) else ret tt) ;;
  let* r := right_of a in
  (if r is Some _ then finish_at r (ev_p ev) else ret tt) ;;
  let* aprev := prev_of a in
  (if aprev is Some _ then let* _ := check_circle_event aprev (ev_x ev) in ret tt else ret tt) ;;
  let* anext := next_of a in
  (if anext is Some _ then let* _ := check_circle_event anext (ev_x ev) in ret tt else ret tt).

(** [FortuneAlgorithm::process_event] *)
Definition process_event : M D unit :=
  let* e := events_top in
  events_pop ;;
  let* ev := load_event e in
  if ev_valid ev then process_event_fire ev else ret tt.

(** The part of [front_insert] that runs once [intersect (p, i, &z)] has
    answered true. *)
Definition front_insert_split (p : Point D) (i : ArcPtr) (z : Point D) : M D unit :=
  let* inext := next_of i in
  let* before_next :=
    (if inext is Some _ then
       let* r := intersect p inext in
       ret (is_null r)
     else ret false) in
  (if before_next then
     let* ip := p_of i in
     let* c := new_arc (Arc_new ip i inext) in
     update_arc inext (with_prev c) ;;
     let* inext := next_of i in
     let* v := prev_of inext in
     update_arc i (with_next v)
   else
     let* ip := p_of i in
     let* c := new_arc (Arc_new ip i None) in
     update_arc i (with_next c)) ;;
  let* r := right_of i in
  let* inext := next_of i in
  update_arc inext (with_right_segment r) ;;
  (* Add p between i and i->next *)
  let* inext := next_of i in
  let* c := new_arc (Arc_new p i inext) in
  update_arc inext (with_prev c) ;;
  let* inext := next_of i in
  let* v := prev_of inext in
  update_arc i (with_next v) ;;
  let* i := next_of i in
  (* Add new segments *)
  let* g := new_segment (Segment_new z) in
  update_arc i (with_left_segment g) ;;
  let* l := left_of i in
  let* iprev := prev_of i in
  update_arc iprev (with_right_segment l) ;;
  let* l := left_of i in
  output_push l ;;
  let* g := new_segment (Segment_new z) in
  update_arc i (with_right_segment g) ;;
  let* r := right_of i in
  let* inext := next_of i in
  update_arc inext (with_left_segment r) ;;
  let* r := right_of i in
  output_push r ;;
  (* Check for new circle events *)
  let* _ := check_circle_event i (px p) in
  let* iprev := prev_of i in
  let* _ := check_circle_event iprev (px p) in
  let* inext := next_of i in
  let* _ := check_circle_event inext (px p) in
  ret tt.

(** [for (ArcPtr i = root; i != nullptr; i = i->next)] of [front_insert];
    the answer is whether the body has returned from the function. *)
Fixpoint front_insert_scan (fuel : nat) (p : Point D) (i : ArcPtr) : M D bool :=
  if i is Some _ then
    match fuel with
    | 0 => out_of_fuel
    | S fuel' =>
        let* r := intersect p i in
        match r with
        | Some z => front_insert_split p i z ;; ret true
        | None => let* inext := next_of i in front_insert_scan fuel' p inext
        end
    end
  else ret false.

(** [for (i = root; i->next != nullptr; i = i->next) {}] *)
Fixpoint last_arc (fuel : nat) (i : ArcPtr) : M D ArcPtr :=
  let* inext := next_of i in
  if inext is Some _ then
    match fuel with
    | 0 => out_of_fuel
    | S fuel' => last_arc fuel' inext
    end
  else ret i.

(** The special case at the end of [front_insert]. *)
Definition front_insert_append (p : Point D) : M D unit :=
  let* r := gets root in
  let* n := gets (fun s => length (arc_heap s)) in
  let* i := last_arc n r in
  let* c := new_arc (Arc_new p i None) in
  update_arc i (with_next c) ;;
  let* xm := gets x_min in
  let* inext := next_of i in
  let* np := p_of inext in
  let* ip := p_of i in
  let start := mkPoint xm ((py np + py ip) / d2) in
  let* g := new_segment (Segment_new start) in
  let* inext := next_of i in
  update_arc inext (with_left_segment g) ;;
  let* l := left_of inext in
  update_arc i (with_right_segment l) ;;
  let* r := right_of i in
  output_push r.

(** [FortuneAlgorithm::front_insert] *)
Definition front_insert (p : Point D) : M D unit :=
  let* r := gets root in
  if r is Some _ then
    let* n := gets (fun s => length (arc_heap s)) in
    let* returned := front_insert_scan n p r in
    if returned then ret tt else front_insert_append p
  else
    let* c := new_arc (Arc_new p None None) in
    modify (set_root c).

(** [FortuneAlgorithm::process_point] *)
Definition process_point : M D unit :=
  let* p := points_top in
  points_pop ;;
  front_insert p.

(** [for (ArcPtr i = root; i->next != nullptr; i = i->next)] of
    [finish_edges]. *)
Fixpoint finish_edges_loop (fuel : nat) (l : D) (i : ArcPtr) : M D unit :=
  let* inext := next_of i in
  if inext is Some _ then
    match fuel with
    | 0 => out_of_fuel
    | S fuel' =>
        let* r := right_of i in
        (if r is Some _ then
           let* ip := p_of i in
           let* np := p_of inext in
           finish_at r (intersection ip np (l * d2))
         else ret tt) ;;
        let* inext := next_of i in
        finish_edges_loop fuel' l inext
    end
  else ret tt.

(** [FortuneAlgorithm::finish_edges] *)
Definition finish_edges : M D unit :=
  let* l := gets (fun s => x_max s + (x_max s - x_min s) + (y_max s - y_min s)) in
  let* r := gets root in
  let* n := gets (fun s => length (arc_heap s)) in
  finish_edges_loop n l r.

(** One turn of [while (!points.empty())] in [compute]. *)
Definition compute_step : M D unit :=
  let* es := gets events in
  let* circle_first :=
    (if negb (is_empty es) then
       let* e := events_top in
       let* ev := load_event e in
       let* p := points_top in
       ret (ev_x ev <=? px p)
     else ret false) in
  if circle_first then process_event else process_point.

Fixpoint compute_sites (fuel : nat) : M D unit :=
  let* ps := gets points in
  match ps with
  | [] => ret tt
  | _ :: _ =>
      match fuel with
      | 0 => out_of_fuel
      | S fuel' => compute_step ;; compute_sites fuel'
      end
  end.

(** [while (!events.empty()) process_event ();] *)
Fixpoint compute_events (fuel : nat) : M D unit :=
  let* es := gets events in
  match es with
  | [] => ret tt
  | _ :: _ =>
      match fuel with
      | 0 => out_of_fuel
      | S fuel' => process_event ;; compute_events fuel'
      end
  end.

(** The head of [compute]: margins are added to the bounding box. *)
Definition compute_margins : M D unit :=
  let* dx := gets (fun s => (x_max s - x_min s + d1) / d5) in
  let* dy := gets (fun s => (y_max s - y_min s + d1) / d5) in
  modify (fun s => set_box (x_min s - dx) (x_max s + dx) (y_min s - dy) (y_max s + dy) s).

(** The first [k] turns of [while (!points.empty())]. *)
Fixpoint compute_turns (k : nat) : M D unit :=
  match k with
  | 0 => ret tt
  | S k' => compute_step ;; compute_turns k'
  end.

(** [FortuneAlgorithm::compute]; [fuel] bounds the number of turns of each
    of the two [while] loops. *)
Definition compute (fuel : nat) : M D unit :=
  compute_margins ;;
  compute_sites fuel ;;
  compute_events fuel ;;
  finish_edges.

(** The driver of [main.cpp]: [add_point] each site in turn, then
    [compute]. *)
Fixpoint add_points (ps : list (Point D)) : M D unit :=
  match ps with
  | [] => ret tt
  | p :: ps' => add_point p ;; add_points ps'
  end.

Definition run (fuel : nat) (ps : list (Point D)) : result (unit * FA) :=
  (add_points ps ;; compute fuel) FortuneAlgorithm_new.

End Members.

(** ** The older pointer-based segment ([point.h]) *)

Section PointH.

Context {D : Type} `{Double D}.

(** [struct Segment] of [point.h]: [end] is a [Point*], null until the
    segment is finished. *)
Record Segment_h := mkSegment_h {
  h_start : Point D;
  h_end : option nat;
  h_done : bool
}.

(** [Segment::finish (Point* p)] of [point.h] *)
Definition finish_h (s : Segment_h) (p : option nat) : Segment_h :=
  if h_done s then s else mkSegment_h (h_start s) p true.

End PointH.

Arguments Segment_h D : clear implicits.

(** ** Quantities named by the specification *)

Section Geometry.

Context {D : Type} `{Double D}.
Local Open Scope double_scope.

(** The determinant that [circle] tests first: positive when [c] lies to
    the left of the ray from [a] through [b]. *)
Definition turn (a b c : Point D) : D :=
  (px b - px a) * (py c - py a) - (px c - px a) * (py b - py a).

(** The denominator [G] of the circumcenter solution. *)
Definition circle_G (a b c : Point D) : D :=
  d2 * ((px b - px a) * (py c - py b) - (py b - py a) * (px c - px b)).

(** The point [o] that [circle] writes. *)
Definition circumcenter (a b c : Point D) : Point D :=
  let A := px b - px a in
  let B := py b - py a in
  let C := px c - px a in
  let D' := py c - py a in
  let E := A * (px a + px b) + B * (py a + py b) in
  let F := C * (px a + px c) + D' * (py a + py c) in
  mkPoint ((D' * E - B * F) / circle_G a b c) ((A * F - C * E) / circle_G a b c).

(** A division that reports a zero divisor instead of performing it. *)
Definition checked_div (a b : D) : option D :=
  if b ==? d0 then None else Some (a / b).

(** [FortuneAlgorithm::intersection] with every [/] replaced by
    [checked_div]: [None] when some division has a zero divisor. *)
Definition intersection_checked (p0 p1 : Point D) (l : D) : option (Point D) :=
  ry_p ← (if px p0 ==? px p1 then
            ry ← checked_div (py p0 + py p1) d2; Some (ry, p0)
          else if px p1 ==? l then Some (py p1, p0)
          else if px p0 ==? l then Some (py p0, p1)
          else
            let z0 := d2 * (px p0 - l) in
            let z1 := d2 * (px p1 - l) in
            i0 ← checked_div d1 z0;
            i1 ← checked_div d1 z1;
            let a := i0 - i1 in
            y0 ← checked_div (py p0) z0;
            y1 ← checked_div (py p1) z1;
            let b := (- d2) * (y0 - y1) in
            c0 ← checked_div (py p0 * py p0 + px p0 * px p0 - l * l) z0;
            c1 ← checked_div (py p1 * py p1 + px p1 * px p1 - l * l) z1;
            let c := c0 - c1 in
            ry ← checked_div ((- b) - dsqrt (b * b - d4 * a * c)) (d2 * a);
            Some (ry, p0));
  rx ← checked_div (px ry_p.2 * px ry_p.2 + (py ry_p.2 - ry_p.1) * (py ry_p.2 - ry_p.1) - l * l)
                   (d2 * px ry_p.2 - d2 * l);
  Some (mkPoint rx ry_p.1).

End Geometry.

(** ** States named by the specification of [check_circle_event] *)

Section CheckCircleStates.

Context {D : Type} `{Double D}.
Local Open Scope double_scope.

(** The event arena once the event attached to arc [a] has been
    invalidated, which happens when its trigger x differs from [x0]. *)
Definition invalidate_stale (a : Arc D) (x0 : D) (evs : list (Event D)) : list (Event D) :=
  match arc_event a with
  | Some en =>
      match evs !! en with
      | Some ev => if ev_x ev ==? x0 then evs else <[en := with_valid false ev]> evs
      | None => evs
      end
  | None => evs
  end.

(** The state after the first two statements of [check_circle_event] on
    arc [n]: the stale event is invalidated and the arc's reference is
    cleared. *)
Definition detached (n : nat) (a : Arc D) (x0 : D) (s : FortuneAlgorithm D) : FortuneAlgorithm D :=
  set_arc_heap (<[n := with_event None a]> (arc_heap s))
    (set_event_heap (invalidate_stale a x0 (event_heap s)) s).

(** The state after a new event with trigger [x] and centre [o] has been
    created for arc [n], attached to it and pushed on the event queue. *)
Definition scheduled (n : nat) (a : Arc D) (x : D) (o : Point D) (s : FortuneAlgorithm D)
    : FortuneAlgorithm D :=
  let e := Some (length (event_heap s)) in
  set_events (events s ++ [e])
    (set_arc_heap (<[n := with_event e a]> (arc_heap s))
       (set_event_heap (event_heap s ++ [Event_new x o (Some n)]) s)).

End CheckCircleStates.

(** ** The beachline as a sequence *)

Section Beachline.

Context {D : Type} `{Double D}.

(** [chain s n l]: following [next] from arc [n] visits exactly the
    handles [l], the last of which has a null [next]. *)
Inductive chain (s : FortuneAlgorithm D) : nat -> list nat -> Prop :=
| chain_last (n : nat) (a : Arc D) :
    arc_heap s !! n = Some a -> arc_next a = None -> chain s n [n]
| chain_next (n m : nat) (a : Arc D) (l : list nat) :
    arc_heap s !! n = Some a -> arc_next a = Some m -> chain s m l ->
    chain s n (n :: l).

(** The state after the special case of [front_insert] has appended the
    site [p] behind the last arc (handle [n], contents [a]): one new arc,
    one new open segment shared by the two arcs and recorded in the
    output. *)
Definition appended (p : Point D) (n : nat) (a : Arc D) (s : FortuneAlgorithm D)
    : FortuneAlgorithm D :=
  let c := Some (length (arc_heap s)) in
  let g := Some (length (segment_heap s)) in
  let start := mkPoint (x_min s) (ddiv (dadd (py p) (py (arc_p a))) d2) in
  mkFA (root s) (points s) (events s) (output_segments s ++ [g])
       (x_min s) (x_max s) (y_min s) (y_max s)
       (<[n := with_right_segment g (with_next c a)]> (arc_heap s)
          ++ [mkArc p (Some n) None None g None])
       (event_heap s)
       (segment_heap s ++ [mkSegment start Point0 false]).

End Beachline.

(** ** Predicates on computations *)

Section Computations.

Context {D : Type} `{Double D}.

(** A computation that, when it returns, leaves the state as it was. *)
Definition readonly {A : Type} (m : M D A) : Prop :=
  forall s a s', m s = Ok (a, s') -> s' = s.

End Computations.

Arguments readonly D {A} m.

(** ** The circle events of an arc *)

(** The one fact about the order of [double] that the invariant below
    rests on: a number strictly above another does not compare equal to
    it. *)
Class DoubleOrder (D : Type) `{Double D} : Prop := {
  dltb_neq : forall a b : D, dltb a b = true -> deqb b a = false
}.

Section EventInvariant.

Context {D : Type} `{Double D}.
Local Open Scope double_scope.
Local Open Scope fa_scope.

(** Whether the queued pointer [e] is a valid event of arc [n]. *)
Definition valid_event_of (s : FortuneAlgorithm D) (n : nat) (e : EventPtr) : bool :=
  match e with
  | Some en =>
      match event_heap s !! en with
      | Some ev => ev_valid ev && bool_decide (ev_arc ev = Some n)
      | None => false
      end
  | None => false
  end.

(** The pending events that are valid and would remove arc [n]. *)
Definition valid_events_of (s : FortuneAlgorithm D) (n : nat) : list EventPtr :=
  filter (fun e => valid_event_of s n e = true) (events s).

(** Invariant (b) of the specification. *)
Definition one_valid_event (s : FortuneAlgorithm D) : Prop :=
  forall n, length (valid_events_of s n) <= 1.

(** Every pending pointer is live and was pushed once; a valid pending
    event is the event that its arc holds. *)
Definition events_attached (s : FortuneAlgorithm D) : Prop :=
  NoDup (events s)
  /\ forall e, e ∈ events s ->
       exists en ev, e = Some en /\ event_heap s !! en = Some ev
         /\ (ev_valid ev = true ->
             exists n a, ev_arc ev = Some n /\ arc_heap s !! n = Some a
                         /\ arc_event a = Some en).

(** No valid pending event has a trigger x that compares equal to the
    decision point [x0]. *)
Definition tie_free (x0 : D) (s : FortuneAlgorithm D) : Prop :=
  forall en ev, Some en ∈ events s -> event_heap s !! en = Some ev ->
    ev_valid ev = true -> (ev_x ev ==? x0) = false.

(** The operations of the run that touch circle events. *)
Inductive operation : Type :=
| InsertSite (p : Point D)
| CheckCircleEvent (i : ArcPtr) (x0 : D)
| ProcessCircleEvent.

Definition run_operation (op : operation) : M D unit :=
  match op with
  | InsertSite p => front_insert p
  | CheckCircleEvent i x0 => let* _ := check_circle_event i x0 in ret tt
  | ProcessCircleEvent => process_event
  end.

(** The decision point of an operation ties with no valid event that is
    pending while it runs: the x of the new site for an insertion, the
    trigger x of the fired event (which has left the queue) for a circle
    event. *)
Definition decision_point_clear (op : operation) (s : FortuneAlgorithm D) : Prop :=
  match op with
  | InsertSite p => tie_free (px p) s
  | CheckCircleEvent _ x0 => tie_free x0 s
  | ProcessCircleEvent =>
      forall e q ev, pq_pop ptr_gt (events s) = Some (e, q) ->
        load_event e s = Ok (ev, s) -> tie_free (ev_x ev) (set_events q s)
  end.

(** A computation that keeps a property of the state when it returns. *)
Definition preserves (P : FortuneAlgorithm D -> Prop) {A : Type} (m : M D A) : Prop :=
  forall s a s', P s -> m s = Ok (a, s') -> P s'.

End EventInvariant.

Arguments operation D : clear implicits.

Section EventFrames.

Context {D : Type} `{Double D}.

(** The invariant together with the side condition of the operation in
    progress. *)
Definition attached_clear (x0 : D) (s : FortuneAlgorithm D) : Prop :=
  events_attached s /\ tie_free x0 s.

(** [s'] differs from [s] in nothing that circle events look at: same
    queue, same events, and every arc of [s] still there with the same
    event reference. *)
Definition same_events (s s' : FortuneAlgorithm D) : Prop :=
  events s' = events s
  /\ event_heap s' = event_heap s
  /\ forall n a, arc_heap s !! n = Some a ->
       exists a', arc_heap s' !! n = Some a' /\ arc_event a' = arc_event a.

(** A computation that changes nothing that circle events look at. *)
Definition frames {A : Type} (m : M D A) : Prop :=
  forall s a s', m s = Ok (a, s') -> same_events s s'.

End EventFrames.

Arguments frames D {A} m.

(** ** Sample inputs *)

(** The state that [compute] reaches on the [sites] after [k] turns of its
    first loop (the default object if the run fails). *)
Definition state_after {D : Type} `{Double D} (sites : list (Point D)) (k : nat)
    : FortuneAlgorithm D :=
  match (bind (add_points sites) (fun _ => bind compute_margins (fun _ => compute_turns k)))
          FortuneAlgorithm_new with
  | Ok (_, s) => s
  | _ => FortuneAlgorithm_new
  end.

(** The five sites of [main.cpp], in binary64. *)
Definition main_sites : list (Point float) :=
  [mkPoint 100%float 200%float; mkPoint 300%float 400%float; mkPoint 200%float 100%float;
   mkPoint 400%float 300%float; mkPoint 250%float 250%float].

(** After three turns: two sites and the circle event 0 are pending. *)
Definition main_state3 : FortuneAlgorithm float := Eval vm_compute in state_after main_sites 3.

(** After seven turns: no site is left, the circle events 2 and 3 are
    pending. *)
Definition main_state7 : FortuneAlgorithm float := Eval vm_compute in state_after main_sites 7.

(** Five sites on which a circle event fires at the very trigger x of the
    event attached to a neighbouring arc. *)
Definition tie_sites : list (Point float) :=
  [mkPoint 0%float 0%float; mkPoint 0%float 2%float; mkPoint 0%float 4%float;
   mkPoint 1%float 5%float; mkPoint 3%float 3%float].

(** After one turn: the beachline is the single arc of the site (0, 0). *)
Definition tie_state1 : FortuneAlgorithm float := Eval vm_compute in state_after tie_sites 1.

(** After five turns the sites are consumed; events 0 and 1 are pending. *)
Definition tie_state : FortuneAlgorithm float := Eval vm_compute in state_after tie_sites 5.

(** Six sites on which two circle events with the same trigger x are
    pending, for the arc of (0, 2) and for the arc of (0, 4) whose [prev] is
    that arc.  The event of the arc of (0, 4) is created first, when the
    only event before it fires; nothing is destroyed in between, as the
    fired event and its arc still hold each other. *)
Definition tied_sites : list (Point float) :=
  [mkPoint 0%float 0%float; mkPoint 0%float 2%float; mkPoint 0%float 4%float;
   mkPoint 0%float 5%float; mkPoint 1%float 5%float; mkPoint 3%float 3%float].

(** After seven turns (six sites and the circle event 0) the sites are
    consumed; events 1 and 2 are pending. *)
Definition tied_state : FortuneAlgorithm float := Eval vm_compute in state_after tied_sites 7.

(** Two binary64 sites on one vertical line, placed so that the sweep
    coordinate of [finish_edges] is exactly their x. *)
Definition column_sites : list (Point float) :=
  [mkPoint (-0x1.3333333333334p+2)%float 0%float; mkPoint (-0x1.3333333333334p+2)%float 1%float].

(** Over the reals: a beachline of the single arc of the site (0, 0). *)
Definition origin_state : FortuneAlgorithm R :=
  mkFA (Some 0%nat) [] [] [] 0%R 0%R 0%R 0%R
       [Arc_new (mkPoint 0%R 0%R) None None] [] [].

(** ** Further quantities of the breakpoint computation *)

Section Breakpoint.

Context {D : Type} `{Double D}.
Local Open Scope double_scope.

(** The argument [b*b - 4*a*c] of the square root in the general case of
    [intersection]. *)
Definition intersection_discriminant (p0 p1 : Point D) (l : D) : D :=
  let z0 := d2 * (px p0 - l) in
  let z1 := d2 * (px p1 - l) in
  let a := d1 / z0 - d1 / z1 in
  let b := (- d2) * (py p0 / z0 - py p1 / z1) in
  let c := (py p0 * py p0 + px p0 * px p0 - l * l) / z0
           - (py p1 * py p1 + px p1 * px p1 - l * l) / z1 in
  b * b - d4 * a * c.

End Breakpoint.

(** ** The bounding box *)

Section BoundingBox.

Context {D : Type} `{Double D}.
Local Open Scope double_scope.

(** [p] is inside the box of [s], borders included. *)
Definition in_box (s : FortuneAlgorithm D) (p : Point D) : bool :=
  (x_min s <=? px p) && (px p <=? x_max s) && (y_min s <=? py p) && (py p <=? y_max s).

(** [p] is inside the box of [s] and on none of its borders. *)
Definition strictly_in_box (s : FortuneAlgorithm D) (p : Point D) : bool :=
  (x_min s <? px p) && (px p <? x_max s) && (y_min s <? py p) && (py p <? y_max s).

(** The box of [s] is the least box around the sites [ps]: it contains
    them, and each of its four borders goes through one of them. *)
Definition bounding_box (ps : list (Point D)) (s : FortuneAlgorithm D) : Prop :=
  (forall p, p ∈ ps -> in_box s p = true)
  /\ (ps <> [] ->
      (exists p, p ∈ ps /\ x_min s = px p) /\ (exists p, p ∈ ps /\ x_max s = px p)
      /\ (exists p, p ∈ ps /\ y_min s = py p) /\ (exists p, p ∈ ps /\ y_max s = py p)).

End BoundingBox.

(** ** What a run never undoes *)

Section History.

Context {D : Type} `{Double D}.

(** [s'] is a later state of [s]: every object of the three arenas is
    still there; an arc keeps its site; an event keeps its trigger, its
    centre and its arc, and is valid only if it was; a segment keeps its
    start, and all of it once it is done; the output keeps its entries, in
    place. *)
Definition extends (s s' : FortuneAlgorithm D) : Prop :=
  (forall n a, arc_heap s !! n = Some a ->
     exists a', arc_heap s' !! n = Some a' /\ arc_p a' = arc_p a)
  /\ (forall n ev, event_heap s !! n = Some ev ->
        exists ev', event_heap s' !! n = Some ev'
          /\ ev_x ev' = ev_x ev /\ ev_p ev' = ev_p ev /\ ev_arc ev' = ev_arc ev
          /\ (ev_valid ev = false -> ev_valid ev' = false))
  /\ (forall n g, segment_heap s !! n = Some g ->
        exists g', segment_heap s' !! n = Some g'
          /\ seg_start g' = seg_start g
          /\ (seg_done g = true -> g' = g))
  /\ output_segments s `prefix_of` output_segments s'.

(** Nothing that [s] records has been taken back in [s']: an arc or an
    event that is in both states is compared with itself; a segment, which
    the output keeps alive, is still there.  An arc has the site it had; an
    event has the trigger, the centre and the arc it had, and is valid
    only if it was; a segment has the start it had, and is unchanged if
    it was done; the output has grown at its end only. *)
Definition unchanged_since (s s' : FortuneAlgorithm D) : Prop :=
  (forall n a a', arc_heap s !! n = Some a -> arc_heap s' !! n = Some a' ->
     arc_p a' = arc_p a)
  /\ (forall n ev ev', event_heap s !! n = Some ev -> event_heap s' !! n = Some ev' ->
        ev_x ev' = ev_x ev /\ ev_p ev' = ev_p ev /\ ev_arc ev' = ev_arc ev
        /\ (ev_valid ev = false -> ev_valid ev' = false))
  /\ (forall n g, segment_heap s !! n = Some g ->
        exists g', segment_heap s' !! n = Some g'
          /\ seg_start g' = seg_start g
          /\ (seg_done g = true -> g' = g))
  /\ output_segments s `prefix_of` output_segments s'.

(** A computation that, when it returns, has taken the state to one that
    is related to the first by [R]. *)
Definition steps (R : relation (FortuneAlgorithm D)) {A : Type} (m : M D A) : Prop :=
  forall s a s', m s = Ok (a, s') -> R s s'.

End History.

(** The five sites of [main.cpp] once they have been added, and the state
    in which [compute] leaves them. *)
Definition main_input : FortuneAlgorithm float :=
  Eval vm_compute in
    match add_points main_sites FortuneAlgorithm_new with
    | Ok (_, s) => s
    | _ => FortuneAlgorithm_new
    end.

Definition main_output : FortuneAlgorithm float :=
  Eval vm_compute in
    match compute 20 main_input with
    | Ok (_, s) => s
    | _ => FortuneAlgorithm_new
    end.

(** ** The output as a record of the segments created *)

Section OutputRecord.

Context {D : Type} `{Double D}.

(** [output_segments] holds a pointer to every segment created so far,
    once each and in the order of creation. *)
Definition output_complete (s : FortuneAlgorithm D) : Prop :=
  output_segments s = Some <$> seq 0 (length (segment_heap s)).

(** [s'] has as many segments as [s], and the same output. *)
Definition same_output (s s' : FortuneAlgorithm D) : Prop :=
  length (segment_heap s') = length (segment_heap s)
  /\ output_segments s' = output_segments s.

End OutputRecord.

(** ** [FortuneAlgorithm::locate_cell] *)

(** [std::numeric_limits<double>::max ()] *)
Class DoubleLimits (D : Type) := { dbl_max : D }.

#[export] Instance DoubleLimits_float : DoubleLimits float :=
  {| dbl_max := 0x1.fffffffffffffp+1023%float |}.

(** [static_cast<int> (i)] of a [size_t]: the value modulo 2^32, read as a
    32-bit two's complement number. *)
Definition static_cast_int (i : nat) : Z :=
  let r := (Z.of_nat i mod 2 ^ 32)%Z in
  if (r <? 2 ^ 31)%Z then r else (r - 2 ^ 32)%Z.

Section LocateCell.

Context {D : Type} `{Double D} `{DoubleLimits D}.
Local Open Scope double_scope.
Local Open Scope fa_scope.

(** [for (ArcPtr arc = root; arc != nullptr; arc = arc->next)
    sites.push_back (arc->p);] *)
Fixpoint locate_cell_sites (fuel : nat) (arc : ArcPtr) (sites : list (Point D))
    : M D (list (Point D)) :=
  if arc is Some _ then
    match fuel with
    | 0 => out_of_fuel
    | S fuel' =>
        let* p := p_of arc in
        let* anext := next_of arc in
        locate_cell_sites fuel' anext (sites ++ [p])
    end
  else ret sites.

(** The body of the second loop, on the pair of [closest_index] and
    [min_distance]; [i] is below [sites.size ()]. *)
Definition locate_cell_visit (q : Point D) (sites : list (Point D)) (st : Z * D) (i : nat)
    : Z * D :=
  match sites !! i with
  | Some site =>
      let dist := dhypot (px q - px site) (py q - py site) in
      if dist <? st.2 then (static_cast_int i, dist) else st
  | None => st
  end.

(** [for (size_t i = 0; i < sites.size (); ++i)] and the [return]. *)
Definition locate_cell_closest (q : Point D) (sites : list (Point D)) : Z :=
  (foldl (locate_cell_visit q sites) ((-1)%Z, dbl_max) (seq 0 (length sites))).1.

Definition locate_cell (q : Point D) : M D Z :=
  let* r := gets root in
  let* n := gets (fun s => length (arc_heap s)) in
  let* sites := locate_cell_sites n r [] in
  ret (locate_cell_closest q sites).

(** The sites of the arcs [l], in order. *)
Definition sites_of (s : FortuneAlgorithm D) (l : list nat) : list (Point D) :=
  omap (fun n => arc_p <$> arc_heap s !! n) l.

End LocateCell.

(** ** The older event record ([point.h]) and its queue ([Voronoi.h]) *)

Section PointHEvent.

Context {D : Type} `{Double D}.
Local Open Scope double_scope.

(** [struct Event] of [point.h]: the centre and the arc are raw
    pointers. *)
Record Event_h := mkEvent_h {
  h_x : D;
  h_p : option nat;
  h_a : option nat;
  h_valid : bool
}.

(** [Event::Event] *)
Definition Event_h_new (x : D) (p a : option nat) : Event_h := mkEvent_h x p a true.

(** [Event::operator<]: [x > other.x]. *)
Definition Event_h_lt (e other : Event_h) : bool := h_x other <? h_x e.

(** [events.top ()] and [events.pop ()] of [std::priority_queue<Event>
    events] in [Voronoi.h]: the default comparison is [operator<], and the
    queue hands out an element that is below no other. *)
Definition events_h_pop (q : list Event_h) : option (Event_h * list Event_h) :=
  pq_pop Event_h_lt q.

End PointHEvent.

Arguments Event_h D : clear implicits.

(** ** Parts of the state that a computation leaves alone *)

Section Keeps.

Context {D : Type} `{Double D}.

(** [s'] agrees with [s] on the part [f] of the state. *)
Definition keeps {X : Type} (f : FortuneAlgorithm D -> X) (s s' : FortuneAlgorithm D) : Prop :=
  f s' = f s.

(** What an arc is apart from its circle event: its site, its neighbours
    and its two segments. *)
Definition arc_links (a : Arc D) : Point D * ArcPtr * ArcPtr * SegmentPtr * SegmentPtr :=
  (arc_p a, arc_prev a, arc_next a, left_segment a, right_segment a).

Definition links (s : FortuneAlgorithm D)
    : list (Point D * ArcPtr * ArcPtr * SegmentPtr * SegmentPtr) :=
  arc_links <$> arc_heap s.

End Keeps.

(** Five sites on which a circle event is invalidated while it is queued:
    after five turns the event 1 is invalid and at the top of the queue. *)
Definition stale_sites : list (Point float) :=
  [mkPoint 0%float 0%float; mkPoint 0%float 1%float; mkPoint 1%float 0%float;
   mkPoint 1%float 2%float; mkPoint 4%float 0%float].

Definition stale_state : FortuneAlgorithm float := Eval vm_compute in state_after stale_sites 5.

(** A second call of [compute]: the object on which [compute] has returned
    for [stale_sites], with the site (5, 1) added, and the state in which
    the second call leaves it.  Event 1 is invalid and the ten segments are
    done before the second call. *)
Definition second_input : FortuneAlgorithm float :=
  Eval vm_compute in
    match (bind (add_points stale_sites) (fun _ =>
           bind (compute 20) (fun _ => add_point (mkPoint 5%float 1%float))))
            FortuneAlgorithm_new with
    | Ok (_, s) => s
    | _ => FortuneAlgorithm_new
    end.

Definition second_output : FortuneAlgorithm float :=
  Eval vm_compute in
    match compute 20 second_input with
    | Ok (_, s) => s
    | _ => FortuneAlgorithm_new
    end.

(** ** Surgery on the beachline *)

Section Surgery.

Context {D : Type} `{Double D}.

(** The arc [m] of [s] is an arc of [t] with the same [next]. *)
Definition same_next (s t : FortuneAlgorithm D) (m : nat) : Prop :=
  forall a, arc_heap s !! m = Some a ->
    exists a', arc_heap t !! m = Some a' /\ arc_next a' = arc_next a.

End Surgery.

(** After one turn of [main.cpp]: the beachline is the arc of the first
    site. *)
Definition main_state1 : FortuneAlgorithm float := Eval vm_compute in state_after main_sites 1.

(** ** [FortuneAlgorithm::print_output] *)

Section PrintOutput.

Context {D : Type} `{Double D}.
Local Open Scope fa_scope.

(** What is written to [std::cout] is kept as the list of its lines, and a
    line as the list of the numbers on it. *)

(** The line of a segment: [start.x start.y end.x end.y]. *)
Definition segment_row (g : Segment D) : list D :=
  [px (seg_start g); py (seg_start g); px (seg_end g); py (seg_end g)].

(** [for (const auto& seg : output_segments) if (seg->done) ...], after
    the lines [out]. *)
Fixpoint print_output_loop (segs : list SegmentPtr) (out : list (list D))
    : M D (list (list D)) :=
  match segs with
  | [] => ret out
  | seg :: rest =>
      let* g := load_segment seg in
      print_output_loop rest (if seg_done g then out ++ [segment_row g] else out)
  end.

Definition print_output : M D (list (list D)) :=
  let* box := gets (fun s => [x_min s; x_max s; y_min s; y_max s]) in
  let* segs := gets output_segments in
  print_output_loop segs [box].

End PrintOutput.

(** ** The sites of the arcs *)

Section SitesOfArcs.

Context {D : Type} `{Double D}.

(** Every queued site and the site of every arc is one of [sites]. *)
Definition sites_among (sites : list (Point D)) (s : FortuneAlgorithm D) : Prop :=
  (forall p, p ∈ points s -> p ∈ sites)
  /\ (forall p, p ∈ arc_p <$> arc_heap s -> p ∈ sites).

End SitesOfArcs.

(** ** Pointers that can be followed *)

Section Safety.

Context {D : Type} `{Double D}.

(** A pointer into an arena of [n] objects: null or one of them. *)
Definition ptr_ok (n : nat) (p : option nat) : Prop :=
  forall k, p = Some k -> k < n.

(** With [na] arcs, [ne] events and [ns] segments, no pointer of the arc
    [a] dangles. *)
Definition arc_ok (na ne ns : nat) (a : Arc D) : Prop :=
  ptr_ok na (arc_prev a) /\ ptr_ok na (arc_next a) /\ ptr_ok ne (arc_event a)
  /\ ptr_ok ns (left_segment a) /\ ptr_ok ns (right_segment a).

(** The arc of an event is one of the [na] arcs: it is not null. *)
Definition event_ok (na : nat) (ev : Event D) : Prop :=
  exists n, ev_arc ev = Some n /\ n < na.

(** A queued pointer is one of the [ne] events: it is not null. *)
Definition queued_ok (ne : nat) (e : EventPtr) : Prop :=
  exists en, e = Some en /\ en < ne.

(** The object has [na] arcs, [ne] events and [ns] segments, its root is
    [r], and every pointer that [compute] may follow is null only where
    the code tests for it, and never dangles. *)
Definition state_ok (na ne ns : nat) (r : ArcPtr) (s : FortuneAlgorithm D) : Prop :=
  length (arc_heap s) = na /\ length (event_heap s) = ne /\ length (segment_heap s) = ns
  /\ Forall (arc_ok na ne ns) (arc_heap s)
  /\ Forall (event_ok na) (event_heap s)
  /\ Forall (queued_ok ne) (events s)
  /\ root s = r /\ ptr_ok na r.

(** [state_ok] for some numbers of objects that are not below [na], [ne]
    and [ns]. *)
Definition later_ok (na ne ns : nat) (r : ArcPtr) (s : FortuneAlgorithm D) : Prop :=
  exists na' ne' ns', na <= na' /\ ne <= ne' /\ ns <= ns' /\ state_ok na' ne' ns' r s.

(** No pointer of the object dangles. *)
Definition well_formed (s : FortuneAlgorithm D) : Prop :=
  state_ok (length (arc_heap s)) (length (event_heap s)) (length (segment_heap s)) (root s) s.

(** The run of [m] from [s] does not crash: it returns, and then [Q]
    holds, or it goes on for ever. *)
Definition safe {A : Type} (m : M D A) (Q : A -> FortuneAlgorithm D -> Prop)
    (s : FortuneAlgorithm D) : Prop :=
  match m s with
  | Ok (a, s') => Q a s'
  | Crash => False
  | OutOfFuel => True
  end.

End Safety.

(** * Properties *)

Section SegmentFacts.

Context {D : Type} `{Double D}.

Lemma finish_sets_done (s : Segment D) (p : Point D) : seg_done (finish s p) = true.
Proof. unfold finish. by destruct (seg_done s) eqn:E. Qed.

Lemma finish_done_noop (s : Segment D) (q : Point D) :
  seg_done s = true -> finish s q = s.
Proof. intros Hd. unfold finish. by rewrite Hd. Qed.

Lemma finish_h_sets_done (s : Segment_h D) (p : option nat) : h_done (finish_h s p) = true.
Proof. unfold finish_h. by destruct (h_done s) eqn:E. Qed.

(** C8. Once [finish] has run on a segment, [done] is true and a further
    [finish] with any point changes nothing: [end] and [done] (and the
    whole segment) stay as the first call left them.  The same holds for
    the pointer-based segment of [point.h]. *)
Theorem finish_idempotent (s : Segment D) (h : Segment_h D)
    (p q : Point D) (pp qq : option nat) :
  seg_done (finish s p) = true
  /\ finish (finish s p) q = finish s p
  /\ seg_end (finish (finish s p) q) = seg_end (finish s p)
  /\ seg_done (finish (finish s p) q) = seg_done (finish s p)
  /\ h_done (finish_h h pp) = true
  /\ finish_h (finish_h h pp) qq = finish_h h pp.
Proof.
  pose proof (finish_sets_done s p) as Hd.
  pose proof (finish_done_noop (finish s p) q Hd) as Hn.
  repeat split; try done; try by rewrite Hn.
  - apply finish_h_sets_done.
  - unfold finish_h at 1. by rewrite finish_h_sets_done.
Qed.

End SegmentFacts.

(** ** Comparisons of the exact instance *)

Lemma Reqb_true (a b : R) : Reqb a b = true <-> a = b.
Proof. unfold Reqb. destruct (Req_dec_T a b); split; congruence. Qed.

Lemma Reqb_false (a b : R) : Reqb a b = false <-> a <> b.
Proof. unfold Reqb. destruct (Req_dec_T a b); split; congruence. Qed.

Lemma Rltb_true (a b : R) : Rltb a b = true <-> (a < b)%R.
Proof. unfold Rltb. destruct (Rlt_dec a b); split; (congruence || done). Qed.

Lemma Rltb_false (a b : R) : Rltb a b = false <-> (b <= a)%R.
Proof. unfold Rltb. destruct (Rlt_dec a b); split; (congruence || lra). Qed.

Lemma Rleb_true (a b : R) : Rleb a b = true <-> (a <= b)%R.
Proof. unfold Rleb. destruct (Rle_dec a b); split; (congruence || done). Qed.

Lemma Rleb_false (a b : R) : Rleb a b = false <-> (b < a)%R.
Proof. unfold Rleb. destruct (Rle_dec a b); split; (congruence || lra). Qed.

(** ** [circle] *)

Section CircleFacts.

Context {D : Type} `{Double D}.
Local Open Scope double_scope.

(** C4. [circle (a, b, c)] answers false exactly when its first test
    rejects the triple (the determinant [turn a b c] is positive: [c] is
    not a right turn from [a] to [b]) or the denominator [G] of the
    circumcenter solution compares equal to zero.  When it answers true,
    the centre it writes is [circumcenter a b c] and the trigger [x] is the
    centre's x-coordinate plus [hypot] of the offset from the centre to
    [a]. *)
Theorem circle_spec (a b c : Point D) :
  (circle a b c = None <->
     (d0 <? turn a b c) = true \/ (circle_G a b c ==? d0) = true)
  /\ (forall x o, circle a b c = Some (x, o) ->
        o = circumcenter a b c
        /\ x = px o + dhypot (px a - px o) (py a - py o)).
Proof.
  unfold circle, turn, circle_G, circumcenter.
  destruct (d0 <? _) eqn:Ht; [split; [by intuition | done] |].
  destruct (_ ==? d0) eqn:Hg; [split; [by intuition | done] |].
  split.
  - split; [done | intros [?|?]; congruence].
  - intros x o [= <- <-]. done.
Qed.

End CircleFacts.

(** Exposes the real-number operations behind the [Double] interface. *)
Ltac unfold_double :=
  cbn [d0 d1 d2 d4 d5 dadd dsub dmul ddiv dopp dsqrt dhypot deqb dltb dleb Double_R px py] in *.

(** [circle] in terms of the quantities named above. *)
Lemma circle_unfold {D : Type} `{Double D} (a b c : Point D) :
  circle a b c
  = if dltb d0 (turn a b c) then None
    else if deqb (circle_G a b c) d0 then None
    else let o := circumcenter a b c in
         Some (dadd (px o) (dhypot (dsub (px a) (px o)) (dsub (py a) (py o))), o).
Proof. reflexivity. Qed.

(** ** [circle] over the exact reals *)

Section CircleExact.

Local Open Scope R_scope.

Lemma circle_G_turn (a b c : Point R) : circle_G a b c = 2 * turn a b c.
Proof. unfold circle_G, turn. unfold_double. ring. Qed.

(** In exact arithmetic the two rejections together are "[c] is not
    strictly to the right of the ray from [a] through [b]". *)
Lemma circle_None_iff (a b c : Point R) :
  circle a b c = None <-> 0 <= turn a b c.
Proof.
  rewrite circle_unfold, circle_G_turn. unfold_double.
  destruct (Rltb 0 _) eqn:Ht.
  - apply Rltb_true in Ht. split; [lra | done].
  - apply Rltb_false in Ht. destruct (Reqb _ 0) eqn:Hg.
    + apply Reqb_true in Hg. split; [lra | done].
    + apply Reqb_false in Hg. split; [done | lra].
Qed.

Definition dist2 (p q : Point R) : R :=
  (px p - px q) * (px p - px q) + (py p - py q) * (py p - py q).

(** The centre that [circle] writes is at the same distance from the three
    sites, and the trigger is the centre's x plus that distance. *)
Lemma circle_center_equidistant (a b c : Point R) (x : R) (o : Point R) :
  circle a b c = Some (x, o) ->
  dist2 o a = dist2 o b /\ dist2 o a = dist2 o c /\ x = px o + sqrt (dist2 o a).
Proof.
  intros Hc.
  assert (Hne : circle a b c <> None) by congruence.
  rewrite circle_None_iff in Hne.
  rewrite circle_unfold in Hc.
  destruct (dltb d0 _); [done |]. destruct (deqb _ d0); [done |].
  cbv zeta in Hc. injection Hc as <- <-.
  assert (HG : circle_G a b c <> 0) by (rewrite circle_G_turn; lra).
  unfold dist2, circumcenter. fold (circle_G a b c). unfold_double.
  destruct a as [ax ay], b as [bx by'], c as [cx cy]. unfold_double.
  set (G := circle_G _ _ _) in *.
  assert (HGdef : G = 2 * ((bx - ax) * (cy - by') - (by' - ay) * (cx - bx))) by reflexivity.
  clearbody G.
  repeat split.
  - field_simplify_eq; [| done]. rewrite HGdef. ring.
  - field_simplify_eq; [| done]. rewrite HGdef. ring.
  - rewrite <- HGdef. f_equal. f_equal. ring.
Qed.

End CircleExact.


(** ** [intersection] *)

Section IntersectionFacts.

Context {D : Type} `{Double D}.
Local Open Scope double_scope.

Lemma checked_div_Some (a b q : D) : checked_div a b = Some q -> q = a / b.
Proof. unfold checked_div. destruct (b ==? d0); congruence. Qed.

Ltac step_div :=
  match goal with
  | |- context [checked_div ?a ?b] =>
      let E := fresh "E" in
      destruct (checked_div a b) eqn:E; simpl;
      [apply checked_div_Some in E; subst | done]
  end.

(** When no divisor is zero the checked evaluation is the evaluation. *)
Lemma intersection_checked_sound (p0 p1 : Point D) (l : D) (r : Point D) :
  intersection_checked p0 p1 l = Some r -> intersection p0 p1 l = r.
Proof.
  unfold intersection_checked, intersection, intersection_y.
  destruct (px p0 ==? px p1); [| destruct (px p1 ==? l); [| destruct (px p0 ==? l)]];
    cbv zeta; simpl; repeat step_div; congruence.
Qed.

(** The branches of [intersection], one by one. *)
Lemma intersection_branches (p0 p1 : Point D) (l : D) :
  ((px p0 ==? px p1) = true ->
     py (intersection p0 p1 l) = (py p0 + py p1) / d2)
  /\ ((px p0 ==? px p1) = false -> (px p1 ==? l) = true ->
     py (intersection p0 p1 l) = py p1)
  /\ ((px p0 ==? px p1) = false -> (px p1 ==? l) = false -> (px p0 ==? l) = true ->
     py (intersection p0 p1 l) = py p0)
  /\ ((px p0 ==? px p1) = false -> (px p1 ==? l) = false -> (px p0 ==? l) = false ->
     let z0 := d2 * (px p0 - l) in
     let z1 := d2 * (px p1 - l) in
     let a := d1 / z0 - d1 / z1 in
     let b := (- d2) * (py p0 / z0 - py p1 / z1) in
     let c := (py p0 * py p0 + px p0 * px p0 - l * l) / z0
              - (py p1 * py p1 + px p1 * px p1 - l * l) / z1 in
     py (intersection p0 p1 l) = ((- b) - dsqrt (b * b - d4 * a * c)) / (d2 * a)).
Proof.
  unfold intersection, intersection_y.
  repeat split; intros;
    repeat match goal with Hq : (_ ==? _) = _ |- _ => rewrite Hq; clear Hq end; done.
Qed.

End IntersectionFacts.

Section IntersectionExact.

Local Open Scope R_scope.

Lemma checked_div_R (a b : R) :
  checked_div a b = if Reqb b 0 then None else Some (a / b).
Proof. reflexivity. Qed.

Lemma checked_div_R_ne (a b : R) : b <> 0 -> checked_div a b = Some (a / b).
Proof. intros Hb. rewrite checked_div_R. apply Reqb_false in Hb. by rewrite Hb. Qed.

Lemma checked_div_R_0 (a b : R) : b = 0 -> checked_div a b = None.
Proof. intros Hb. rewrite checked_div_R. apply Reqb_true in Hb. by rewrite Hb. Qed.

(** Over the reals [intersection] divides by zero exactly when both foci
    lie on the directrix. *)
Lemma intersection_checked_None_iff (p0 p1 : Point R) (l : R) :
  intersection_checked p0 p1 l = None <-> px p0 = px p1 /\ px p0 = l.
Proof.
  unfold intersection_checked. unfold_double.
  destruct (Reqb (px p0) (px p1)) eqn:E01.
  - apply Reqb_true in E01.
    rewrite (checked_div_R_ne _ 2) by lra. simpl.
    destruct (Req_dec_T (px p0) l) as [E|E].
    + rewrite checked_div_R_0 by lra. done.
    + rewrite checked_div_R_ne by lra. simpl. split; [done | intros [_ ?]; done].
  - apply Reqb_false in E01.
    destruct (Reqb (px p1) l) eqn:E1.
    { apply Reqb_true in E1. simpl. rewrite checked_div_R_ne by lra. simpl.
      split; [done | intros [? _]; done]. }
    apply Reqb_false in E1.
    destruct (Reqb (px p0) l) eqn:E0.
    { apply Reqb_true in E0. simpl. rewrite checked_div_R_ne by lra. simpl.
      split; [done | intros [? _]; done]. }
    apply Reqb_false in E0. cbv zeta.
    rewrite (checked_div_R_ne _ (2 * (px p0 - l))) by lra. simpl.
    rewrite (checked_div_R_ne _ (2 * (px p1 - l))) by lra. simpl.
    rewrite (checked_div_R_ne _ (2 * (px p0 - l))) by lra. simpl.
    rewrite (checked_div_R_ne _ (2 * (px p1 - l))) by lra. simpl.
    rewrite (checked_div_R_ne _ (2 * (px p0 - l))) by lra. simpl.
    rewrite (checked_div_R_ne _ (2 * (px p1 - l))) by lra. simpl.
    rewrite checked_div_R_ne.
    2:{ intros Heq.
        assert (Hinv : / (2 * (px p0 - l)) = / (2 * (px p1 - l))) by lra.
        apply Rinv_eq_reg in Hinv. lra. }
    simpl. rewrite checked_div_R_ne by lra. simpl.
    split; [done | intros [? _]; done].
Qed.

End IntersectionExact.

(** ** Stepping through the state monad *)

Section MonadFacts.

Context {D : Type} `{Double D}.
Local Open Scope fa_scope.

Local Abbreviation FA := (FortuneAlgorithm D).

Lemma bind_Ok {A B : Type} (m : M D A) (k : A -> M D B) (s s' : FA) (a : A) :
  m s = Ok (a, s') -> bind m k s = k a s'.
Proof. intros Hm. unfold bind. by rewrite Hm. Qed.

Lemma bind_Ok_inv {A B : Type} (m : M D A) (k : A -> M D B) (s s'' : FA) (b : B) :
  bind m k s = Ok (b, s'') -> exists a s', m s = Ok (a, s') /\ k a s' = Ok (b, s'').
Proof.
  unfold bind. destruct (m s) as [[a s']| |]; [| done | done].
  intros Hk. by exists a, s'.
Qed.

Lemma load_arc_Some (n : nat) (a : Arc D) (s : FA) :
  arc_heap s !! n = Some a -> load_arc (Some n) s = Ok (a, s).
Proof. intros Hn. unfold load_arc, load. by rewrite Hn. Qed.

Lemma load_event_Some (n : nat) (e : Event D) (s : FA) :
  event_heap s !! n = Some e -> load_event (Some n) s = Ok (e, s).
Proof. intros Hn. unfold load_event, load. by rewrite Hn. Qed.

Lemma load_segment_Some (n : nat) (g : Segment D) (s : FA) :
  segment_heap s !! n = Some g -> load_segment (Some n) s = Ok (g, s).
Proof. intros Hn. unfold load_segment, load. by rewrite Hn. Qed.

Lemma load_arc_inv (i : ArcPtr) (a : Arc D) (s s' : FA) :
  load_arc i s = Ok (a, s') -> s' = s /\ exists n, i = Some n /\ arc_heap s !! n = Some a.
Proof.
  unfold load_arc, load. destruct i as [n|]; [| done].
  destruct (arc_heap s !! n) as [a'|] eqn:Hn; [| done].
  intros [= <- <-]. split; [done | by exists n].
Qed.

Lemma load_arc_null (s : FA) : load_arc None s = Crash.
Proof. reflexivity. Qed.

Lemma alter_insert {A : Type} (f : A -> A) (n : nat) (l : list A) (a : A) :
  l !! n = Some a -> alter f n l = <[n := f a]> l.
Proof.
  revert n. induction l as [|b l IH]; intros [|n] Hn; simplify_eq/=; [done |].
  f_equal. by apply IH.
Qed.

Lemma update_arc_Some (n : nat) (a : Arc D) (f : Arc D -> Arc D) (s : FA) :
  arc_heap s !! n = Some a ->
  update_arc (Some n) f s = Ok (tt, set_arc_heap (<[n := f a]> (arc_heap s)) s).
Proof.
  intros Hn. unfold update_arc. rewrite (bind_Ok _ _ _ _ _ (load_arc_Some _ _ _ Hn)).
  unfold modify. cbn. by rewrite (alter_insert _ _ _ _ Hn).
Qed.

Lemma update_event_Some (n : nat) (e : Event D) (f : Event D -> Event D) (s : FA) :
  event_heap s !! n = Some e ->
  update_event (Some n) f s = Ok (tt, set_event_heap (<[n := f e]> (event_heap s)) s).
Proof.
  intros Hn. unfold update_event. rewrite (bind_Ok _ _ _ _ _ (load_event_Some _ _ _ Hn)).
  unfold modify. cbn. by rewrite (alter_insert _ _ _ _ Hn).
Qed.

Lemma update_segment_Some (n : nat) (g : Segment D) (f : Segment D -> Segment D) (s : FA) :
  segment_heap s !! n = Some g ->
  update_segment (Some n) f s = Ok (tt, set_segment_heap (<[n := f g]> (segment_heap s)) s).
Proof.
  intros Hn. unfold update_segment. rewrite (bind_Ok _ _ _ _ _ (load_segment_Some _ _ _ Hn)).
  unfold modify. cbn. by rewrite (alter_insert _ _ _ _ Hn).
Qed.

Lemma p_of_Some (n : nat) (a : Arc D) (s : FA) :
  arc_heap s !! n = Some a -> p_of (Some n) s = Ok (arc_p a, s).
Proof. intros Hn. unfold p_of. by rewrite (bind_Ok _ _ _ _ _ (load_arc_Some _ _ _ Hn)). Qed.

Lemma prev_of_Some (n : nat) (a : Arc D) (s : FA) :
  arc_heap s !! n = Some a -> prev_of (Some n) s = Ok (arc_prev a, s).
Proof. intros Hn. unfold prev_of. by rewrite (bind_Ok _ _ _ _ _ (load_arc_Some _ _ _ Hn)). Qed.

Lemma next_of_Some (n : nat) (a : Arc D) (s : FA) :
  arc_heap s !! n = Some a -> next_of (Some n) s = Ok (arc_next a, s).
Proof. intros Hn. unfold next_of. by rewrite (bind_Ok _ _ _ _ _ (load_arc_Some _ _ _ Hn)). Qed.

Lemma event_of_Some (n : nat) (a : Arc D) (s : FA) :
  arc_heap s !! n = Some a -> event_of (Some n) s = Ok (arc_event a, s).
Proof. intros Hn. unfold event_of. by rewrite (bind_Ok _ _ _ _ _ (load_arc_Some _ _ _ Hn)). Qed.

Lemma left_of_Some (n : nat) (a : Arc D) (s : FA) :
  arc_heap s !! n = Some a -> left_of (Some n) s = Ok (left_segment a, s).
Proof. intros Hn. unfold left_of. by rewrite (bind_Ok _ _ _ _ _ (load_arc_Some _ _ _ Hn)). Qed.

Lemma right_of_Some (n : nat) (a : Arc D) (s : FA) :
  arc_heap s !! n = Some a -> right_of (Some n) s = Ok (right_segment a, s).
Proof. intros Hn. unfold right_of. by rewrite (bind_Ok _ _ _ _ _ (load_arc_Some _ _ _ Hn)). Qed.

End MonadFacts.

(** ** [intersect] *)

Section IntersectFacts.

Context {D : Type} `{Double D}.
Local Open Scope double_scope.
Local Open Scope fa_scope.

(** The guard at the head of [intersect], for every interpretation of
    [double]: a site whose x compares equal to [p.x] is never intersected,
    and an answer of true means the guard did not fire. *)
Lemma intersect_same_x (p : Point D) (n : nat) (s : FortuneAlgorithm D) (a : Arc D) :
  arc_heap s !! n = Some a ->
  ((px (arc_p a) ==? px p) = true -> intersect p (Some n) s = Ok (None, s))
  /\ (forall z s', intersect p (Some n) s = Ok (Some z, s') ->
        (px (arc_p a) ==? px p) = false).
Proof.
  intros Hn. unfold intersect.
  rewrite (bind_Ok _ _ _ _ _ (p_of_Some _ _ _ Hn)).
  destruct (px (arc_p a) ==? px p); [| done].
  split; [done |]. intros z s'. unfold ret. congruence.
Qed.

End IntersectFacts.

Section IntersectExact.

Local Open Scope R_scope.

(** C10. Over the exact reals: [intersect (p, i)] answers false for every
    arc [i] whose site has the x-coordinate of [p]; hence whenever it
    answers true the divisor [2 * i->p.x - 2 * p.x] of the back-substitution
    is not zero. *)
Theorem intersect_guard (p : Point R) (n : nat) (s : FortuneAlgorithm R) (a : Arc R) :
  arc_heap s !! n = Some a ->
  (px (arc_p a) = px p -> intersect p (Some n) s = Ok (None, s))
  /\ (forall z s', intersect p (Some n) s = Ok (Some z, s') ->
        2 * px (arc_p a) - 2 * px p <> 0).
Proof.
  intros Hn. destruct (intersect_same_x p n s a Hn) as [H1 H2]. split.
  - intros Hx. apply H1. unfold_double. by apply Reqb_true.
  - intros z s' Hi. specialize (H2 z s' Hi). unfold_double.
    apply Reqb_false in H2. lra.
Qed.

End IntersectExact.

(** ** The driver: [compute] *)

Section ComputeFacts.

Context {D : Type} `{Double D}.
Local Open Scope double_scope.
Local Open Scope fa_scope.

Local Abbreviation FA := (FortuneAlgorithm D).

Lemma events_top_nonempty (s s' : FA) (e : EventPtr) :
  events_top s = Ok (e, s') -> is_empty (events s) = false.
Proof. unfold events_top. by destruct (events s). Qed.

(** While sites are pending, a turn of the first loop of [compute] is
    [compute_step]. *)
Lemma compute_sites_turn (fuel : nat) (s : FA) :
  points s <> [] -> compute_sites (S fuel) s = (compute_step ;; compute_sites fuel) s.
Proof.
  intros Hp. cbn [compute_sites]. unfold bind at 1, gets at 1.
  by destruct (points s).
Qed.

(** With no circle event pending the site is taken. *)
Lemma compute_step_no_event (s : FA) :
  events s = [] -> compute_step s = process_point s.
Proof. intros He. unfold compute_step, bind, gets. by rewrite He. Qed.

(** C3. In a turn of the main loop of [compute] where a circle event [ev]
    is at the top of the event queue and a site [p] is at the top of the
    site queue, the circle event is processed when [ev.x <= p.x] (ties go
    to the circle event) and the site is processed otherwise. *)
Theorem compute_step_dispatch (s : FA) (e : EventPtr) (ev : Event D) (p : Point D) :
  events_top s = Ok (e, s) ->
  load_event e s = Ok (ev, s) ->
  points_top s = Ok (p, s) ->
  compute_step s = if ev_x ev <=? px p then process_event s else process_point s.
Proof.
  intros He Hev Hp. unfold compute_step.
  unfold bind at 1, gets at 1.
  rewrite (events_top_nonempty _ _ _ He). cbn [negb].
  unfold bind at 1. unfold bind at 1. rewrite He.
  unfold bind at 1. rewrite Hev.
  unfold bind at 1. rewrite Hp. unfold ret.
  by destruct (ev_x ev <=? px p).
Qed.

(** [finish_edges] starts by reading [root->next]: with a null [root] it
    crashes, whatever else the state holds. *)
Lemma finish_edges_null_root (s : FA) : root s = None -> finish_edges s = Crash.
Proof.
  intros Hr. unfold finish_edges, bind, gets. rewrite Hr.
  by destruct (length (arc_heap s)).
Qed.

(** C1.  [compute] on an object that received no site ends in
    [finish_edges] dereferencing the null [root]: whatever the fuel, the
    run crashes. *)
Theorem compute_no_sites_crashes (fuel : nat) : run (D := D) fuel [] = Crash.
Proof. by destruct fuel. Qed.

(** With exactly one site and fuel for one turn of the loop, [compute] returns
    normally; the beachline is the single arc of the site and no segment
    was created. *)
Lemma compute_one_site (fuel : nat) (p : Point D) :
  exists s, run (S fuel) [p] = Ok (tt, s)
    /\ get_segments s = []
    /\ segment_heap s = []
    /\ root s = Some 0%nat
    /\ arc_heap s = [Arc_new p None None].
Proof. eexists. split; [by destruct fuel | done]. Qed.

End ComputeFacts.

(** ** The two queues *)

Section QueueFacts.

Context {A : Type} (gt : A -> A -> bool).

Lemma pq_pop_None (q : list A) : pq_pop gt q = None -> q = [].
Proof.
  destruct q as [|a q]; [done |]. cbn.
  destruct (pq_pop gt q) as [[m r]|]; [by destruct (gt a m) | done].
Qed.

(** Popping neither loses nor duplicates an element. *)
Lemma pq_pop_perm (q : list A) (m : A) (r : list A) :
  pq_pop gt q = Some (m, r) -> q ≡ₚ m :: r.
Proof.
  revert m r. induction q as [|a q IH]; intros m r; [done |]. cbn.
  destruct (pq_pop gt q) as [[m' r']|] eqn:Hq.
  - destruct (gt a m'); intros [= <- <-]; [| done].
    rewrite (IH m' r' eq_refl). apply Permutation_swap.
  - apply pq_pop_None in Hq as ->. by intros [= <- <-].
Qed.

Hypothesis gt_asym : forall a b, gt a b = true -> gt b a = false.
Hypothesis gt_negtrans : forall a b c, gt a b = false -> gt b c = false -> gt a c = false.

Lemma gt_irrefl (a : A) : gt a a = false.
Proof using gt_asym. destruct (gt a a) eqn:E; [by rewrite (gt_asym a a E) in E | done]. Qed.

(** For a strict weak order the popped element is a least one: it is
    greater than no element of the queue. *)
Lemma pq_pop_least (q : list A) (m : A) (r : list A) :
  pq_pop gt q = Some (m, r) -> forall a, a ∈ q -> gt m a = false.
Proof using gt_asym gt_negtrans.
  revert m r. induction q as [|b q IH]; intros m r; [done |]. cbn.
  destruct (pq_pop gt q) as [[m' r']|] eqn:Hq.
  - destruct (gt b m') eqn:Hb; intros [= <- <-] a [->|Ha]%elem_of_cons.
    + by apply gt_asym.
    + by apply (IH m' r').
    + apply gt_irrefl.
    + apply (gt_negtrans _ m'); [done |]. by apply (IH m' r').
  - apply pq_pop_None in Hq as ->. intros [= <- <-] a Ha.
    apply list_elem_of_singleton in Ha as ->. apply gt_irrefl.
Qed.

End QueueFacts.

Section EventQueueFacts.

Context {D : Type} `{Double D}.

Lemma ptr_gt_asym (a b : option nat) : ptr_gt a b = true -> ptr_gt b a = false.
Proof.
  destruct a as [m|], b as [n|]; cbn -[Nat.ltb]; try done.
  rewrite Nat.ltb_lt, Nat.ltb_ge. lia.
Qed.

Lemma ptr_gt_negtrans (a b c : option nat) :
  ptr_gt a b = false -> ptr_gt b c = false -> ptr_gt a c = false.
Proof.
  destruct a as [m|], b as [n|], c as [k|]; cbn -[Nat.ltb]; try done.
  rewrite !Nat.ltb_ge. lia.
Qed.

(** What the event queue hands out: the pending pointer with the least
    address, whatever the trigger x of the events. *)
Lemma events_top_least_address (s s' : FortuneAlgorithm D) (e : EventPtr) :
  events_top s = Ok (e, s') -> forall e', e' ∈ events s -> ptr_gt e e' = false.
Proof.
  unfold events_top. destruct (pq_pop ptr_gt (events s)) as [[m r]|] eqn:Hq; [| done].
  intros [= <- <-]. by apply (pq_pop_least ptr_gt ptr_gt_asym ptr_gt_negtrans _ _ _ Hq).
Qed.

End EventQueueFacts.

Section SiteQueueExact.

Local Open Scope R_scope.

Lemma Point_gt_R (a b : Point R) :
  Point_gt a b = true <-> px b < px a \/ (px a = px b /\ py b < py a).
Proof.
  unfold Point_gt. unfold_double.
  rewrite orb_true_iff, andb_true_iff, !Rltb_true, Reqb_true. done.
Qed.

Lemma Point_gt_R_false (a b : Point R) :
  Point_gt a b = false <-> px a < px b \/ (px a = px b /\ py a <= py b).
Proof.
  rewrite <- not_true_iff_false, Point_gt_R. lra.
Qed.

(** With the lexicographic order of the spec, the site queue hands out a
    site that is least in (x, y): ascending x, ties by ascending y. *)
Lemma points_top_least (s s' : FortuneAlgorithm R) (p : Point R) :
  points_top s = Ok (p, s') ->
  forall q, q ∈ points s -> px p < px q \/ (px p = px q /\ py p <= py q).
Proof.
  unfold points_top. destruct (pq_pop Point_gt (points s)) as [[m r]|] eqn:Hq; [| done].
  intros [= <- <-] q Hin. apply Point_gt_R_false.
  apply (pq_pop_least Point_gt) with (q := points s) (r := r); [| | done | done].
  - intros a b. rewrite Point_gt_R, Point_gt_R_false. lra.
  - intros a b c. rewrite !Point_gt_R_false. lra.
Qed.

End SiteQueueExact.

Local Open Scope fa_scope.

(** C2.  On the five sites of [main.cpp], with the events
    allocated at increasing addresses, the seven turns of the first loop
    of [compute] consume all sites and leave two valid circle events
    pending: event 2 with trigger x about 551.78 and event 3 with trigger x
    about 400.89.  The queue hands out event 2: the pending event of least
    address, not the one of least trigger x. *)
Theorem events_top_not_least_x :
  exists (s : FortuneAlgorithm float) (ev2 ev3 : Event float),
    (add_points main_sites ;; compute_margins ;; compute_turns 7) FortuneAlgorithm_new
      = Ok (tt, s)
    /\ points s = []
    /\ events s = [Some 2%nat; Some 3%nat]
    /\ events_top s = Ok (Some 2%nat, s)
    /\ load_event (Some 2%nat) s = Ok (ev2, s)
    /\ load_event (Some 3%nat) s = Ok (ev3, s)
    /\ ev_valid ev2 = true /\ ev_valid ev3 = true
    /\ (ev_x ev3 <? ev_x ev2)%float = true.
Proof.
  eexists _, _, _.
  split; [vm_compute; reflexivity |].
  repeat split; vm_compute; reflexivity.
Qed.

(** ** [check_circle_event] *)

Section CheckCircleFacts.

Context {D : Type} `{Double D}.
Local Open Scope double_scope.
Local Open Scope fa_scope.

Local Abbreviation FA := (FortuneAlgorithm D).

Lemma lookup_detached_arc (n m : nat) (a : Arc D) (x0 : D) (s : FA) :
  arc_heap s !! n = Some a ->
  arc_heap (detached n a x0 s) !! m
  = if decide (n = m) then Some (with_event None a) else arc_heap s !! m.
Proof.
  intros Hn. unfold detached. cbn. rewrite list_lookup_insert.
  destruct (decide (n = m)) as [->|]; [| by rewrite decide_False by tauto].
  rewrite decide_True; [done |]. split; [done |]. by eapply lookup_lt_Some.
Qed.

(** The whole of [check_circle_event] on an arc [n] whose event reference,
    if any, points to a live event. *)
Lemma check_circle_event_run (n : nat) (x0 : D) (s : FA) (a : Arc D) :
  arc_heap s !! n = Some a ->
  (forall en, arc_event a = Some en -> is_Some (event_heap s !! en)) ->
  check_circle_event (Some n) x0 s
  = match arc_prev a, arc_next a with
    | Some pn, Some nn =>
        match arc_heap s !! pn, arc_heap s !! nn with
        | Some ap, Some an =>
            match circle (arc_p ap) (arc_p a) (arc_p an) with
            | Some (x, o) =>
                if x0 <? x then Ok (true, scheduled n a x o (detached n a x0 s))
                else Ok (false, detached n a x0 s)
            | None => Ok (false, detached n a x0 s)
            end
        | _, _ => Crash
        end
    | _, _ => Ok (false, detached n a x0 s)
    end.
Proof.
  intros Hn Hev. unfold check_circle_event.
  rewrite (bind_Ok _ _ _ _ _ (event_of_Some _ _ _ Hn)).
  (* the stale event *)
  set (s0 := set_event_heap (invalidate_stale a x0 (event_heap s)) s).
  assert (Hstale :
    (if arc_event a is Some _
     then let* ev := load_event (arc_event a) in
          if negb (ev_x ev ==? x0) then update_event (arc_event a) (with_valid false)
          else ret tt
     else ret tt) s = Ok (tt, s0) \/ s0 = s /\
    (if arc_event a is Some _
     then let* ev := load_event (arc_event a) in
          if negb (ev_x ev ==? x0) then update_event (arc_event a) (with_valid false)
          else ret tt
     else ret tt) s = Ok (tt, s)).
  { subst s0. unfold invalidate_stale.
    destruct (arc_event a) as [en|] eqn:Hae.
    - destruct (Hev en eq_refl) as [ev Hen]. rewrite Hen.
      rewrite (bind_Ok _ _ _ _ _ (load_event_Some _ _ _ Hen)).
      destruct (ev_x ev ==? x0); cbn [negb].
      + right. split; [by destruct s | done].
      + left. by rewrite (update_event_Some _ _ _ _ Hen).
    - right. split; [by destruct s | done]. }
  assert (Hstale' :
    (if arc_event a is Some _
     then let* ev := load_event (arc_event a) in
          if negb (ev_x ev ==? x0) then update_event (arc_event a) (with_valid false)
          else ret tt
     else ret tt) s = Ok (tt, s0)).
  { destruct Hstale as [?|[Heq ?]]; [done | by rewrite Heq]. }
  clear Hstale.
  rewrite (bind_Ok _ _ _ _ _ Hstale').
  assert (Hn0 : arc_heap s0 !! n = Some a) by done.
  rewrite (bind_Ok _ _ _ _ _ (update_arc_Some _ _ _ _ Hn0)).
  change (set_arc_heap (<[n:=with_event None a]> (arc_heap s0)) s0) with (detached n a x0 s).
  assert (Hn1 : arc_heap (detached n a x0 s) !! n = Some (with_event None a)).
  { rewrite lookup_detached_arc by done. by rewrite decide_True. }
  rewrite (bind_Ok _ _ _ _ _ (prev_of_Some _ _ _ Hn1)).
  rewrite (bind_Ok _ _ _ _ _ (next_of_Some _ _ _ Hn1)).
  cbn [with_event arc_prev arc_next].
  destruct (arc_prev a) as [pn|]; [| done].
  destruct (arc_next a) as [nn|]; [| done].
  cbn [is_null orb negb].
  assert (Hp : forall m, p_of (Some m) (detached n a x0 s)
     = match arc_heap s !! m with
       | Some b => Ok (arc_p b, detached n a x0 s) | None => Crash end).
  { intros m. unfold p_of, bind, load_arc, load.
    rewrite lookup_detached_arc by done.
    destruct (decide (n = m)) as [<-|]; [by rewrite Hn |].
    by destruct (arc_heap s !! m). }
  unfold bind at 1. rewrite Hp.
  destruct (arc_heap s !! pn) as [ap|]; [| done].
  unfold bind at 1. rewrite Hp, Hn.
  unfold bind at 1. rewrite Hp.
  destruct (arc_heap s !! nn) as [an|]; [| done].
  destruct (circle (arc_p ap) (arc_p a) (arc_p an)) as [[x o]|]; [| done].
  destruct (x0 <? x); [| done].
  unfold bind at 1, new_event.
  set (s2 := set_event_heap _ _).
  assert (Hn2 : arc_heap s2 !! n = Some (with_event None a)) by done.
  rewrite (bind_Ok _ _ _ _ _ (update_arc_Some _ _ _ _ Hn2)).
  set (s3 := set_arc_heap _ _).
  assert (Hn3 : arc_heap s3 !! n
                = Some (with_event (Some (length (event_heap (detached n a x0 s)))) a)).
  { subst s3. cbn [arc_heap set_arc_heap]. rewrite list_lookup_insert_eq; [done |].
    by eapply lookup_lt_Some. }
  rewrite (bind_Ok _ _ _ _ _ (event_of_Some _ _ _ Hn3)).
  unfold bind, events_push, modify, ret. cbn [with_event arc_event].
  done.
Qed.

Lemma lookup_invalidate_stale (a : Arc D) (x0 : D) (evs : list (Event D))
    (en : nat) (ev : Event D) :
  arc_event a = Some en -> evs !! en = Some ev ->
  invalidate_stale a x0 evs !! en = Some (if ev_x ev ==? x0 then ev else with_valid false ev).
Proof.
  intros Ha Hen. unfold invalidate_stale. rewrite Ha, Hen.
  destruct (ev_x ev ==? x0); [done |].
  apply list_lookup_insert_eq. by eapply lookup_lt_Some.
Qed.

Lemma length_invalidate_stale (a : Arc D) (x0 : D) (evs : list (Event D)) :
  length (invalidate_stale a x0 evs) = length evs.
Proof.
  unfold invalidate_stale. destruct (arc_event a) as [en|]; [| done].
  destruct (evs !! en) as [ev|]; [| done].
  destruct (ev_x ev ==? x0); [done |]. apply length_insert.
Qed.

(** C5. [check_circle_event (i, x0)] on an arc [i] (handle [n], contents
    [a]) whose pointers are live.  It returns some [b] in a state [s'] such
    that: the event previously attached to [i] is invalidated exactly when
    its trigger x differs from [x0]; when [b] is false nothing was
    scheduled and [i] holds no event ([s'] is [detached]: the queue is
    untouched, the reference cleared); [b] is false when [i] lacks a
    previous or a next arc; otherwise [b] is true exactly when [circle] of
    the three sites succeeds with a trigger x strictly above [x0], and then
    a new valid event with that trigger and centre is created for [i],
    attached to it and pushed ([s'] is [scheduled]). *)
Theorem check_circle_event_spec (n : nat) (x0 : D) (s : FA) (a : Arc D) :
  arc_heap s !! n = Some a ->
  (forall en, arc_event a = Some en -> is_Some (event_heap s !! en)) ->
  (forall pn nn, arc_prev a = Some pn -> arc_next a = Some nn ->
     is_Some (arc_heap s !! pn) /\ is_Some (arc_heap s !! nn)) ->
  exists b s',
    check_circle_event (Some n) x0 s = Ok (b, s')
    /\ (forall en ev, arc_event a = Some en -> event_heap s !! en = Some ev ->
          event_heap s' !! en
          = Some (if ev_x ev ==? x0 then ev else with_valid false ev))
    /\ (b = false ->
          s' = detached n a x0 s
          /\ events s' = events s
          /\ arc_event <$> arc_heap s' !! n = Some None)
    /\ (arc_prev a = None \/ arc_next a = None -> b = false)
    /\ (forall pn nn ap an,
          arc_prev a = Some pn -> arc_next a = Some nn ->
          arc_heap s !! pn = Some ap -> arc_heap s !! nn = Some an ->
          (b = true <->
             exists x o, circle (arc_p ap) (arc_p a) (arc_p an) = Some (x, o)
                         /\ (x0 <? x) = true)
          /\ (forall x o, circle (arc_p ap) (arc_p a) (arc_p an) = Some (x, o) ->
                (x0 <? x) = true ->
                s' = scheduled n a x o (detached n a x0 s)
                /\ events s' = events s ++ [Some (length (event_heap s))]
                /\ event_heap s' !! length (event_heap s) = Some (Event_new x o (Some n))
                /\ arc_event <$> arc_heap s' !! n = Some (Some (length (event_heap s))))).
Proof.
  intros Hn Hev Hnb. rewrite (check_circle_event_run n x0 s a Hn Hev).
  assert (Hdet : forall en ev, arc_event a = Some en -> event_heap s !! en = Some ev ->
            event_heap (detached n a x0 s) !! en
            = Some (if ev_x ev ==? x0 then ev else with_valid false ev)).
  { intros en ev Ha Hen. by apply lookup_invalidate_stale. }
  assert (Hdn : arc_event <$> arc_heap (detached n a x0 s) !! n = Some None).
  { rewrite lookup_detached_arc by done. by rewrite decide_True. }
  assert (Hlen : length (event_heap (detached n a x0 s)) = length (event_heap s)).
  { apply length_invalidate_stale. }
  assert (Hsch : forall x o,
     let s' := scheduled n a x o (detached n a x0 s) in
     (forall en ev, arc_event a = Some en -> event_heap s !! en = Some ev ->
          event_heap s' !! en = Some (if ev_x ev ==? x0 then ev else with_valid false ev))
     /\ events s' = events s ++ [Some (length (event_heap s))]
     /\ event_heap s' !! length (event_heap s) = Some (Event_new x o (Some n))
     /\ arc_event <$> arc_heap s' !! n = Some (Some (length (event_heap s)))).
  { intros x o s'. subst s'. unfold scheduled. rewrite Hlen.
    cbn [events event_heap arc_heap set_events set_arc_heap set_event_heap].
    repeat split.
    - intros en ev Ha Hen. apply lookup_app_l_Some. by apply Hdet.
    - rewrite <- Hlen. by rewrite list_lookup_middle.
    - rewrite list_lookup_insert_eq; [done |].
      unfold detached. cbn [arc_heap set_arc_heap set_event_heap].
      rewrite length_insert. by eapply lookup_lt_Some. }
  assert (Hfalse : exists b s',
    Ok (false, detached n a x0 s) = Ok (b, s')
    /\ (forall en ev, arc_event a = Some en -> event_heap s !! en = Some ev ->
          event_heap s' !! en = Some (if ev_x ev ==? x0 then ev else with_valid false ev))
    /\ (b = false -> s' = detached n a x0 s /\ events s' = events s
                     /\ arc_event <$> arc_heap s' !! n = Some None)
    /\ b = false).
  { exists false, (detached n a x0 s). by repeat split. }
  destruct (arc_prev a) as [pn|] eqn:Hp.
  2:{ destruct Hfalse as (b & s' & Heq & H1 & H2 & ->). exists false, s'.
      split; [done |]. split; [done |]. split; [done |]. split; [done |].
      by intros ? ? ? ? ? ?. }
  destruct (arc_next a) as [nn|] eqn:Hx.
  2:{ destruct Hfalse as (b & s' & Heq & H1 & H2 & ->). exists false, s'.
      split; [done |]. split; [done |]. split; [done |]. split; [done |].
      by intros ? ? ? ? ? ?. }
  destruct (Hnb pn nn eq_refl eq_refl) as [[ap Hap] [an Han]].
  rewrite Hap, Han.
  destruct (circle (arc_p ap) (arc_p a) (arc_p an)) as [[x o]|] eqn:Hc.
  2:{ destruct Hfalse as (b & s' & Heq & H1 & H2 & ->). exists false, s'.
      split; [done |]. split; [done |]. split; [done |]. split; [done |].
      intros pn' nn' ap' an' Hp' Hx' Hap' Han'. simplify_eq. split.
      - split; [done | intros (? & ? & ? & ?); congruence].
      - intros; congruence. }
  destruct (x0 <? x) eqn:Hlt.
  2:{ destruct Hfalse as (b & s' & Heq & H1 & H2 & ->). exists false, s'.
      split; [done |]. split; [done |]. split; [done |]. split; [done |].
      intros pn' nn' ap' an' Hp' Hx' Hap' Han'. simplify_eq. split.
      - split; [done |]. intros (x' & o' & Hc' & ?). congruence.
      - intros x' o' Hc' ?. congruence. }
  exists true, (scheduled n a x o (detached n a x0 s)).
  destruct (Hsch x o) as (S1 & S2 & S3 & S4).
  split; [done |]. split; [done |]. split; [done |].
  split; [intros Hor; by destruct Hor |].
  intros pn' nn' ap' an' Hp' Hx' Hap' Han'. simplify_eq. split.
  - split; [by exists x, o | done].
  - intros x' o' Hc' _. by simplify_eq.
Qed.

End CheckCircleFacts.

(** ** Computations that only read *)

Section ReadOnly.

Context {D : Type} `{Double D}.
Local Open Scope double_scope.
Local Open Scope fa_scope.

Local Abbreviation FA := (FortuneAlgorithm D).

Lemma readonly_ret {A : Type} (a : A) : readonly D (ret a).
Proof. intros s b s'. unfold ret. congruence. Qed.

Lemma readonly_bind {A B : Type} (m : M D A) (k : A -> M D B) :
  readonly D m -> (forall a, readonly D (k a)) -> readonly D (bind m k).
Proof.
  intros Hm Hk s b s'' (a & s' & H1 & H2)%bind_Ok_inv.
  apply Hm in H1 as ->. by apply Hk in H2.
Qed.

Lemma readonly_load {A : Type} (heap : FA -> list A) (i : option nat) :
  readonly D (load heap i).
Proof.
  intros s a s'. unfold load. destruct i as [n|]; [| done].
  destruct (heap s !! n); congruence.
Qed.

Lemma readonly_p_of (i : ArcPtr) : readonly D (p_of i).
Proof. apply readonly_bind; [apply readonly_load | intros; apply readonly_ret]. Qed.

Lemma readonly_prev_of (i : ArcPtr) : readonly D (prev_of i).
Proof. apply readonly_bind; [apply readonly_load | intros; apply readonly_ret]. Qed.

Lemma readonly_next_of (i : ArcPtr) : readonly D (next_of i).
Proof. apply readonly_bind; [apply readonly_load | intros; apply readonly_ret]. Qed.

(** [intersect] is a [const] member: it leaves the object as it was. *)
Lemma readonly_intersect (p : Point D) (i : ArcPtr) : readonly D (intersect p i).
Proof.
  unfold intersect.
  apply readonly_bind; [apply readonly_p_of | intros ip].
  destruct (px ip ==? px p); [apply readonly_ret |].
  apply readonly_bind; [apply readonly_prev_of | intros iprev].
  apply readonly_bind; [apply readonly_next_of | intros inext].
  apply readonly_bind.
  { destruct iprev; [| apply readonly_ret].
    apply readonly_bind; [apply readonly_p_of | intros; apply readonly_ret]. }
  intros a. apply readonly_bind.
  { destruct inext; [| apply readonly_ret].
    apply readonly_bind; [apply readonly_p_of | intros; apply readonly_ret]. }
  intros b. destruct (_ && _); apply readonly_ret.
Qed.

End ReadOnly.

(** ** The beachline chain *)

Section ChainFacts.

Context {D : Type} `{Double D}.
Local Open Scope fa_scope.

Local Abbreviation FA := (FortuneAlgorithm D).

Lemma chain_head (s : FA) (n : nat) (l : list nat) :
  chain s n l -> exists l', l = n :: l'.
Proof. destruct 1; eauto. Qed.

Lemma chain_det (s : FA) (n : nat) (l l' : list nat) :
  chain s n l -> chain s n l' -> l = l'.
Proof.
  intros Hc. revert l'. induction Hc as [n a Hn Hx | n m a l Hn Hx Hc IH]; intros l' Hc'.
  - inversion Hc'; simplify_eq; (done || congruence).
  - inversion Hc'; simplify_eq. f_equal. apply IH. congruence.
Qed.

Lemma chain_suffix (s : FA) (n k : nat) (l l1 l2 : list nat) :
  chain s n l -> l = l1 ++ k :: l2 -> chain s k (k :: l2).
Proof.
  intros Hc. revert l1. induction Hc as [n a Hn Hx | n m a l Hn Hx Hc IH]; intros l1 Hl.
  - destruct l1 as [|? [|]]; simplify_eq/=. by eapply chain_last.
  - destruct l1 as [|? l1]; simplify_eq/=.
    + by eapply chain_next.
    + by eapply IH.
Qed.

Lemma chain_NoDup (s : FA) (n : nat) (l : list nat) : chain s n l -> NoDup l.
Proof.
  intros Hc. induction Hc as [n a Hn Hx | n m a l Hn Hx Hc IH].
  - apply NoDup_singleton.
  - apply NoDup_cons. split; [| done].
    intros (l1 & l2 & Hl)%list_elem_of_split.
    assert (Hc' : chain s n (n :: l2)) by (by eapply chain_suffix).
    assert (Hc'' : chain s n (n :: l)) by (by eapply chain_next).
    pose proof (chain_det _ _ _ _ Hc' Hc'') as Heq.
    apply (f_equal length) in Heq. rewrite Hl in Heq.
    cbn in Heq. rewrite length_app in Heq. cbn in Heq. lia.
Qed.

Lemma chain_live (s : FA) (n : nat) (l : list nat) :
  chain s n l -> forall m, m ∈ l -> is_Some (arc_heap s !! m).
Proof.
  induction 1 as [n a Hn Hx | n m a l Hn Hx Hc IH]; intros k Hk.
  - apply list_elem_of_singleton in Hk as ->. eauto.
  - apply elem_of_cons in Hk as [->|Hk]; eauto.
Qed.

(** A chain never has more arcs than the arena holds, so the fuel that the
    list walks start with is always enough. *)
Lemma chain_length (s : FA) (n : nat) (l : list nat) :
  chain s n l -> length l <= length (arc_heap s).
Proof.
  intros Hc.
  assert (Hle : length l <= length (seq 0 (length (arc_heap s)))); [| by rewrite length_seq in Hle].
  apply submseteq_length, NoDup_submseteq; [by eapply chain_NoDup |].
  intros m Hm. apply elem_of_seq. split; [lia |].
  destruct (chain_live _ _ _ Hc m Hm) as [a Ha]. apply lookup_lt_Some in Ha. lia.
Qed.

Lemma chain_last_arc (s : FA) (n : nat) (l : list nat) :
  chain s n l -> exists k a, last l = Some k /\ arc_heap s !! k = Some a /\ arc_next a = None.
Proof.
  induction 1 as [n a Hn Hx | n m a l Hn Hx Hc IH]; [by exists n, a |].
  destruct IH as (k & b & Hl & Hk & Hb). exists k, b.
  split; [| done]. destruct (chain_head _ _ _ Hc) as [l' ->]. by rewrite last_cons_cons.
Qed.

(** The scan of [front_insert] over a beachline none of whose arcs is
    intersected: it runs off the end without touching the state. *)
Lemma front_insert_scan_none (p : Point D) (s : FA) (n : nat) (l : list nat) (fuel : nat) :
  chain s n l ->
  (forall m, m ∈ l -> intersect p (Some m) s = Ok (None, s)) ->
  length l <= fuel ->
  front_insert_scan fuel p (Some n) s = Ok (false, s).
Proof.
  intros Hc. revert fuel.
  induction Hc as [n a Hn Hx | n m a l Hn Hx Hc IH]; intros fuel Hi Hf.
  - destruct fuel as [|fuel]; [cbn in Hf; lia |]. cbn [front_insert_scan].
    rewrite (bind_Ok _ _ _ _ _ (Hi n ltac:(apply list_elem_of_singleton; done))).
    rewrite (bind_Ok _ _ _ _ _ (next_of_Some _ _ _ Hn)). rewrite Hx.
    by destruct fuel.
  - destruct fuel as [|fuel]; [cbn in Hf; lia |]. cbn [front_insert_scan].
    rewrite (bind_Ok _ _ _ _ _ (Hi n ltac:(apply elem_of_cons; by left))).
    rewrite (bind_Ok _ _ _ _ _ (next_of_Some _ _ _ Hn)). rewrite Hx.
    apply IH; [| cbn in Hf; lia].
    intros k Hk. apply Hi, elem_of_cons. by right.
Qed.

Lemma last_arc_chain (s : FA) (n : nat) (l : list nat) (fuel : nat) :
  chain s n l -> length l <= S fuel ->
  last_arc fuel (Some n) s = Ok (last l, s).
Proof.
  intros Hc. revert fuel.
  induction Hc as [n a Hn Hx | n m a l Hn Hx Hc IH]; intros fuel Hf.
  - destruct fuel; cbn [last_arc];
      rewrite (bind_Ok _ _ _ _ _ (next_of_Some _ _ _ Hn)); by rewrite Hx.
  - destruct (chain_head _ _ _ Hc) as [l' ->]. rewrite last_cons_cons.
    destruct fuel as [|fuel]; [cbn in Hf; lia |]. cbn [last_arc].
    rewrite (bind_Ok _ _ _ _ _ (next_of_Some _ _ _ Hn)). rewrite Hx.
    apply IH. cbn in *. lia.
Qed.

End ChainFacts.

(** ** [front_insert]: the append case *)

Section AppendFacts.

Context {D : Type} `{Double D}.
Local Open Scope double_scope.
Local Open Scope fa_scope.

Local Abbreviation FA := (FortuneAlgorithm D).

Lemma insert_snoc_insert {A : Type} (h : list A) (n : nat) (x y z w : A) :
  n < length h ->
  <[n := x]> (<[length h := y]> (<[n := z]> (h ++ [w]))) = <[n := x]> h ++ [y].
Proof.
  intros Hlt. rewrite (insert_app_l h [w] n z) by done.
  rewrite <- (length_insert h n z) at 1.
  rewrite <- (Nat.add_0_r (length (<[n:=z]> h))), insert_app_r. cbn [insert list_insert].
  rewrite insert_app_l by (by rewrite length_insert).
  by rewrite list_insert_insert_eq.
Qed.

(** The special case of [front_insert], run from the last arc of the
    beachline. *)
Lemma front_insert_append_run (p : Point D) (s : FA) (r : nat) (l : list nat)
    (n : nat) (a : Arc D) :
  root s = Some r -> chain s r l -> last l = Some n -> arc_heap s !! n = Some a ->
  front_insert_append p s = Ok (tt, appended p n a s).
Proof.
  intros Hr Hc Hl Hn. unfold front_insert_append.
  unfold bind at 1, gets at 1. rewrite Hr.
  unfold bind at 1, gets at 1.
  assert (Hfuel : length l <= S (length (arc_heap s))).
  { pose proof (chain_length _ _ _ Hc). lia. }
  rewrite (bind_Ok _ _ _ _ _ (last_arc_chain s r l _ Hc Hfuel)).
  rewrite Hl.
  assert (Hlt : n < length (arc_heap s)) by (by eapply lookup_lt_Some).
  unfold bind at 1, new_arc at 1.
  set (c := length (arc_heap s)). set (s1 := set_arc_heap _ s).
  assert (H1 : arc_heap s1 !! n = Some a) by (by apply lookup_app_l_Some).
  rewrite (bind_Ok _ _ _ _ _ (update_arc_Some _ _ _ _ H1)).
  set (s2 := set_arc_heap _ s1).
  assert (H2 : arc_heap s2 !! n = Some (with_next (Some c) a)).
  { subst s2. cbn [arc_heap set_arc_heap]. apply list_lookup_insert_eq.
    by eapply lookup_lt_Some. }
  assert (H2c : arc_heap s2 !! c = Some (Arc_new p (Some n) None)).
  { subst s2 s1. cbn [arc_heap set_arc_heap].
    rewrite list_lookup_insert_ne by lia. by rewrite list_lookup_middle. }
  unfold bind at 1, gets at 1.
  rewrite (bind_Ok _ _ _ _ _ (next_of_Some _ _ _ H2)). cbn [arc_next with_next].
  rewrite (bind_Ok _ _ _ _ _ (p_of_Some _ _ _ H2c)).
  rewrite (bind_Ok _ _ _ _ _ (p_of_Some _ _ _ H2)).
  cbn [arc_p Arc_new with_next].
  unfold bind at 1, new_segment at 1.
  set (g := length (segment_heap s2)). set (s3 := set_segment_heap _ s2).
  assert (H3 : arc_heap s3 !! n = Some (with_next (Some c) a)) by done.
  assert (H3c : arc_heap s3 !! c = Some (Arc_new p (Some n) None)) by done.
  rewrite (bind_Ok _ _ _ _ _ (next_of_Some _ _ _ H3)). cbn [arc_next with_next].
  rewrite (bind_Ok _ _ _ _ _ (update_arc_Some _ _ _ _ H3c)).
  set (s4 := set_arc_heap _ s3).
  assert (H4c : arc_heap s4 !! c = Some (with_left_segment (Some g) (Arc_new p (Some n) None))).
  { subst s4. cbn [arc_heap set_arc_heap]. apply list_lookup_insert_eq.
    by eapply lookup_lt_Some. }
  assert (H4 : arc_heap s4 !! n = Some (with_next (Some c) a)).
  { subst s4. cbn [arc_heap set_arc_heap]. by rewrite list_lookup_insert_ne by lia. }
  rewrite (bind_Ok _ _ _ _ _ (left_of_Some _ _ _ H4c)).
  cbn [left_segment with_left_segment].
  rewrite (bind_Ok _ _ _ _ _ (update_arc_Some _ _ _ _ H4)).
  set (s5 := set_arc_heap _ s4).
  assert (H5 : arc_heap s5 !! n = Some (with_right_segment (Some g) (with_next (Some c) a))).
  { subst s5. cbn [arc_heap set_arc_heap]. apply list_lookup_insert_eq.
    by eapply lookup_lt_Some. }
  rewrite (bind_Ok _ _ _ _ _ (right_of_Some _ _ _ H5)).
  cbn [right_segment with_right_segment].
  unfold output_push, modify, appended. do 2 f_equal.
  clear H1 H2 H2c H3 H3c H4 H4c H5.
  subst s5 s4 s3 s2 s1 g c.
  unfold set_output_segments, set_arc_heap, set_segment_heap.
  cbn [root points events output_segments x_min x_max y_min y_max arc_heap event_heap
       segment_heap].
  f_equal. by apply insert_snoc_insert.
Qed.

Lemma chain_appended (p : Point D) (s : FA) (r : nat) (l : list nat)
    (n : nat) (a : Arc D) :
  chain s r l -> last l = Some n -> arc_heap s !! n = Some a ->
  chain (appended p n a s) r (l ++ [length (arc_heap s)]).
Proof.
  intros Hc Hl Hn.
  assert (Hlt : n < length (arc_heap s)) by (by eapply lookup_lt_Some).
  assert (Hnew : chain (appended p n a s) (length (arc_heap s)) [length (arc_heap s)]).
  { apply (chain_last _ _ (mkArc p (Some n) None None (Some (length (segment_heap s))) None));
      [| done].
    unfold appended. cbn [arc_heap].
    rewrite <- (length_insert (arc_heap s) n
                 (with_right_segment (Some (length (segment_heap s)))
                    (with_next (Some (length (arc_heap s))) a))) at 1.
    by rewrite list_lookup_middle. }
  pose proof (chain_NoDup _ _ _ Hc) as Hnd.
  induction Hc as [k b Hk Hx | k m b l Hk Hx Hc IH].
  - cbn in Hl. simplify_eq. cbn [app].
    eapply chain_next; [| | exact Hnew].
    + unfold appended. cbn [arc_heap]. apply lookup_app_l_Some.
      by apply list_lookup_insert_eq.
    + done.
  - destruct (chain_head _ _ _ Hc) as [l' ->]. rewrite last_cons_cons in Hl.
    apply NoDup_cons in Hnd as [Hnotin Hnd].
    assert (k <> n).
    { intros ->. apply Hnotin. by apply last_Some_elem_of. }
    cbn [app]. eapply chain_next; [| exact Hx | by apply IH].
    unfold appended. cbn [arc_heap]. apply lookup_app_l_Some.
    by rewrite list_lookup_insert_ne.
Qed.

(** C7. [front_insert (p)] on a beachline (the chain [l] from [root])
    none of whose arcs [intersect] accepts: the state becomes [appended]:
    [p] is a new arc at the end of the chain, behind the old last arc [n];
    exactly one segment is created, open, recorded at the end of the
    output, and shared as the right segment of [n] and the left segment of
    the new arc; its start has x [x_min] and, as y, the mean of the y of
    [p] and of the site of [n]. *)
Theorem front_insert_appends (p : Point D) (s : FA) (r : nat) (l : list nat)
    (n : nat) (a : Arc D) :
  root s = Some r -> chain s r l -> last l = Some n -> arc_heap s !! n = Some a ->
  (forall m, m ∈ l -> intersect p (Some m) s = Ok (None, s)) ->
  let s' := appended p n a s in
  let c := length (arc_heap s) in
  let g := length (segment_heap s) in
  front_insert p s = Ok (tt, s')
  /\ chain s' r (l ++ [c])
  /\ arc_heap s' !! c = Some (mkArc p (Some n) None None (Some g) None)
  /\ arc_heap s' !! n = Some (with_right_segment (Some g) (with_next (Some c) a))
  /\ length (arc_heap s') = S (length (arc_heap s))
  /\ segment_heap s'
     = segment_heap s ++ [mkSegment (mkPoint (x_min s) ((py p + py (arc_p a)) / d2)) Point0 false]
  /\ output_segments s' = output_segments s ++ [Some g].
Proof.
  intros Hr Hc Hl Hn Hi s' c g.
  assert (Hlt : n < length (arc_heap s)) by (by eapply lookup_lt_Some).
  split; [| split; [| split; [| split; [| split; [| split]]]]].
  - unfold front_insert. unfold bind at 1, gets at 1. rewrite Hr.
    unfold bind at 1, gets at 1.
    rewrite (bind_Ok _ _ _ _ _ (front_insert_scan_none p s r l _ Hc Hi (chain_length _ _ _ Hc))).
    by eapply front_insert_append_run.
  - by apply chain_appended.
  - subst s' c. unfold appended. cbn [arc_heap].
    rewrite <- (length_insert (arc_heap s) n
                 (with_right_segment (Some (length (segment_heap s)))
                    (with_next (Some (length (arc_heap s))) a))) at 1.
    by rewrite list_lookup_middle.
  - subst s'. unfold appended. cbn [arc_heap]. apply lookup_app_l_Some.
    by apply list_lookup_insert_eq.
  - subst s'. unfold appended. cbn [arc_heap].
    rewrite length_app, length_insert. cbn. lia.
  - done.
  - done.
Qed.

End AppendFacts.

(** ** Circle events that tie with the decision point *)

Local Open Scope fa_scope.

Lemma tie_state_reached :
  (add_points tie_sites ;; compute_margins ;; compute_turns 5) FortuneAlgorithm_new
  = Ok (tt, tie_state).
Proof. vm_compute. reflexivity. Qed.

Lemma tied_state_reached :
  (add_points tied_sites ;; compute_margins ;; compute_turns 7) FortuneAlgorithm_new
  = Ok (tt, tied_state).
Proof. vm_compute. reflexivity. Qed.

(** In [tied_state] the queue holds events 1 and 2, in the order of their
    creation.  Event 1 belongs to arc 2, the arc of (0, 4), which the
    insertion of (3, 3) has cut off the beachline and whose [prev] is
    still arc 1; event 2 belongs to arc 1, the arc of (0, 2).  Both have
    the trigger x = 2 + sqrt 5, computed as [hypot (-2, -1)] from the
    centres (2, 3) and (2, 1). *)
Lemma tied_state_events :
  events tied_state = [Some 1%nat; Some 2%nat]
  /\ (arc_p <$> arc_heap tied_state !! 1%nat) = Some (mkPoint 0%float 2%float)
  /\ (arc_event <$> arc_heap tied_state !! 1%nat) = Some (Some 2%nat)
  /\ (arc_p <$> arc_heap tied_state !! 2%nat) = Some (mkPoint 0%float 4%float)
  /\ (arc_prev <$> arc_heap tied_state !! 2%nat) = Some (Some 1%nat)
  /\ (arc_event <$> arc_heap tied_state !! 2%nat) = Some (Some 1%nat)
  /\ (ev_arc <$> event_heap tied_state !! 1%nat) = Some (Some 2%nat)
  /\ (ev_arc <$> event_heap tied_state !! 2%nat) = Some (Some 1%nat)
  /\ (ev_p <$> event_heap tied_state !! 1%nat) = Some (mkPoint 2%float 3%float)
  /\ (ev_p <$> event_heap tied_state !! 2%nat) = Some (mkPoint 2%float 1%float)
  /\ (ev_x <$> event_heap tied_state !! 1%nat) = (ev_x <$> event_heap tied_state !! 2%nat).
Proof. repeat split; vm_compute; reflexivity. Qed.

(** Up to [tied_state] the queue never holds two events, so that no turn
    depends on which of several events the queue delivers. *)
Lemma tied_state_no_choice (k : nat) :
  k <= 6 -> length (events (state_after tied_sites k)) <= 1.
Proof. intros Hk. do 7 (destruct k as [|k]; [vm_compute; lia |]). lia. Qed.

Lemma tied_state_one_valid_event : one_valid_event tied_state.
Proof.
  intros n. unfold valid_events_of.
  destruct n as [|[|[|n]]]; vm_compute; lia.
Qed.

(** C9 as stated fails, on the run of [compute] over [tied_sites].  After
    seven turns every arc has at most one valid pending event.  The eighth
    turn fires event 1: arc 2 leaves, and [check_circle_event] is called on
    its [prev], arc 1, with x0 the trigger x of event 1.  Event 2, which arc
    1 holds, has the same trigger x, so the guard [i->event->x != x0]
    leaves it valid; arc 1 gets the new event 3.  Events 2 and 3 are then
    both pending and valid for arc 1. *)
Lemma one_valid_event_not_preserved :
  (add_points tied_sites ;; compute_margins ;; compute_turns 7) FortuneAlgorithm_new
  = Ok (tt, tied_state)
  /\ one_valid_event tied_state
  /\ exists s' ev2 ev3,
       run_operation ProcessCircleEvent tied_state = Ok (tt, s')
       /\ events s' = [Some 2%nat; Some 3%nat]
       /\ event_heap s' !! 2%nat = Some ev2 /\ event_heap s' !! 3%nat = Some ev3
       /\ ev_valid ev2 = true /\ ev_valid ev3 = true
       /\ ev_arc ev2 = Some 1%nat /\ ev_arc ev3 = Some 1%nat
       /\ (arc_event <$> arc_heap s' !! 1%nat) = Some (Some 3%nat)
       /\ ~ one_valid_event s'.
Proof.
  split; [exact tied_state_reached |]. split; [exact tied_state_one_valid_event |].
  eexists _, _, _. split; [vm_compute; reflexivity |].
  split_and!; try (vm_compute; reflexivity).
  intros Hone. specialize (Hone 1%nat). vm_compute in Hone. lia.
Qed.

(** ** The invariant on circle events *)

Section FrameFacts.

Context {D : Type} `{Double D}.
Local Open Scope double_scope.
Local Open Scope fa_scope.

Local Abbreviation FA := (FortuneAlgorithm D).

Lemma same_events_refl (s : FA) : same_events s s.
Proof. repeat split. intros n a Hn. by exists a. Qed.

Lemma same_events_trans (s1 s2 s3 : FA) :
  same_events s1 s2 -> same_events s2 s3 -> same_events s1 s3.
Proof.
  intros (E1 & V1 & A1) (E2 & V2 & A2). split; [congruence |]. split; [congruence |].
  intros n a Hn. destruct (A1 n a Hn) as (a' & Hn' & Ha').
  destruct (A2 n a' Hn') as (a'' & Hn'' & Ha''). exists a''. split; [done | congruence].
Qed.

Lemma same_events_attached_clear (x0 : D) (s s' : FA) :
  same_events s s' -> attached_clear x0 s -> attached_clear x0 s'.
Proof.
  intros (E & V & A) [[Hnd Hatt] Htie]. split; [split |].
  - by rewrite E.
  - intros e He. rewrite E in He. destruct (Hatt e He) as (en & ev & -> & Hev & Hval).
    exists en, ev. split; [done |]. split; [by rewrite V |].
    intros Hv. destruct (Hval Hv) as (n & a & Hn & Ha & Hae).
    destruct (A n a Ha) as (a' & Ha' & Hae'). exists n, a'.
    split; [done |]. split; [done | congruence].
  - intros en ev He Hev Hv. rewrite E in He. rewrite V in Hev. exact (Htie en ev He Hev Hv).
Qed.

Lemma frames_preserves {A : Type} (x0 : D) (m : M D A) :
  frames D m -> preserves (attached_clear x0) m.
Proof. intros Hm s a s' Hs Hrun. eapply same_events_attached_clear; [by eapply Hm | done]. Qed.

Lemma frames_ret {A : Type} (a : A) : frames D (ret a).
Proof. intros s b s' [= _ <-]. apply same_events_refl. Qed.

Lemma frames_bind {A B : Type} (m : M D A) (k : A -> M D B) :
  frames D m -> (forall a, frames D (k a)) -> frames D (bind m k).
Proof.
  intros Hm Hk s b s'' (a & s' & H1 & H2)%bind_Ok_inv.
  eapply same_events_trans; [by eapply Hm | by eapply Hk].
Qed.

Lemma frames_readonly {A : Type} (m : M D A) : readonly D m -> frames D m.
Proof. intros Hm s a s' ->%Hm. apply same_events_refl. Qed.

Lemma frames_gets {A : Type} (f : FA -> A) : frames D (gets f).
Proof. intros s a s' [= _ <-]. apply same_events_refl. Qed.

Lemma frames_update_arc (i : ArcPtr) (f : Arc D -> Arc D) :
  (forall a, arc_event (f a) = arc_event a) -> frames D (update_arc i f).
Proof.
  intros Hf s u s' (a & s1 & (-> & n & -> & Hn)%load_arc_inv & Hm)%bind_Ok_inv.
  unfold modify in Hm. injection Hm as _ <-. repeat split.
  intros m b Hm. cbn [arc_heap set_arc_heap default]. rewrite list_lookup_alter.
  destruct (decide (n = m)) as [->|]; rewrite Hm; cbn.
  - exists (f b). by rewrite Hf.
  - by exists b.
Qed.

Lemma frames_new_arc (a : Arc D) : arc_event a = None -> frames D (new_arc a).
Proof.
  intros Ha s c s' [= _ <-]. repeat split.
  intros m b Hm. exists b. split; [| done]. by apply lookup_app_l_Some.
Qed.

Lemma frames_new_segment (g : Segment D) : frames D (new_segment g).
Proof. intros s c s' [= _ <-]. repeat split. intros m b Hm. by exists b. Qed.

Lemma frames_update_segment (g : SegmentPtr) (f : Segment D -> Segment D) :
  frames D (update_segment g f).
Proof.
  intros s u s' (a & s1 & Hl & Hm)%bind_Ok_inv.
  apply readonly_load in Hl as ->. unfold modify in Hm. injection Hm as _ <-.
  repeat split. intros m b Hm. by exists b.
Qed.

Lemma frames_output_push (g : SegmentPtr) : frames D (output_push g).
Proof. intros s u s' [= _ <-]. repeat split. intros m b Hm. by exists b. Qed.

Lemma frames_set_root (c : ArcPtr) : frames D (modify (set_root c)).
Proof. intros s u s' [= _ <-]. repeat split. intros m b Hm. by exists b. Qed.

Lemma preserves_ret {A : Type} (P : FA -> Prop) (a : A) : preserves P (ret a).
Proof. intros s b s' Hs [= _ <-]. done. Qed.

Lemma preserves_bind {A B : Type} (P : FA -> Prop) (m : M D A) (k : A -> M D B) :
  preserves P m -> (forall a, preserves P (k a)) -> preserves P (bind m k).
Proof.
  intros Hm Hk s b s'' Hs (a & s' & H1 & H2)%bind_Ok_inv.
  eapply Hk; [| done]. by eapply Hm.
Qed.

End FrameFacts.

Section CheckCircleInvariant.

Context {D : Type} `{DoubleOrder D}.
Local Open Scope double_scope.
Local Open Scope fa_scope.

Local Abbreviation FA := (FortuneAlgorithm D).

(** A call of [check_circle_event] that returns was made on a live arc
    whose event reference, if any, is live. *)
Lemma check_circle_event_inv (i : ArcPtr) (x0 : D) (s s' : FA) (b : bool) :
  check_circle_event i x0 s = Ok (b, s') ->
  exists n a, i = Some n /\ arc_heap s !! n = Some a
    /\ forall en, arc_event a = Some en -> is_Some (event_heap s !! en).
Proof.
  unfold check_circle_event.
  intros (e & s1 & He & Hrest)%bind_Ok_inv.
  apply bind_Ok_inv in He as (a & s2 & (-> & n & -> & Hn)%load_arc_inv & [= <- <-]).
  exists n, a. split; [done |]. split; [done |].
  intros en Hen. rewrite Hen in Hrest.
  apply bind_Ok_inv in Hrest as (u & s3 & Hstale & _).
  apply bind_Ok_inv in Hstale as (ev & s4 & Hload & _).
  unfold load_event, load in Hload. destruct (event_heap s !! en); [by eexists | done].
Qed.

(** Detaching: once the first two statements of [check_circle_event] have
    run on arc [n], no valid pending event refers to [n]. *)
Lemma detached_attached_clear (n : nat) (a : Arc D) (x0 : D) (s : FA) :
  arc_heap s !! n = Some a ->
  attached_clear x0 s ->
  attached_clear x0 (detached n a x0 s)
  /\ forall en ev, Some en ∈ events (detached n a x0 s) ->
       event_heap (detached n a x0 s) !! en = Some ev ->
       ev_valid ev = true -> ev_arc ev <> Some n.
Proof.
  intros Hn [[Hnd Hatt] Htie].
  (* a valid pending event of the new state was one of the old state, and
     is not the event that arc [n] held *)
  assert (Hold : forall en ev, Some en ∈ events s ->
            event_heap (detached n a x0 s) !! en = Some ev -> ev_valid ev = true ->
            event_heap s !! en = Some ev /\ arc_event a <> Some en).
  { intros en ev He Hev Hv. unfold detached in Hev.
    cbn [event_heap set_arc_heap set_event_heap] in Hev. unfold invalidate_stale in Hev.
    destruct (Hatt _ He) as (en' & ev0 & [= <-] & Hev0 & _).
    destruct (arc_event a) as [en0|] eqn:Hae; [| done].
    destruct (decide (en0 = en)) as [->|Hne].
    - rewrite Hev0 in Hev. destruct (ev_x ev0 ==? x0) eqn:Hx.
      + assert (ev = ev0) as -> by congruence.
        by rewrite (Htie _ _ He Hev0 Hv) in Hx.
      + rewrite list_lookup_insert_eq in Hev by (by eapply lookup_lt_Some).
        by simplify_eq.
    - split; [| congruence].
      destruct (event_heap s !! en0) as [ev1|]; [| done].
      destruct (ev_x ev1 ==? x0); [done |].
      by rewrite list_lookup_insert_ne in Hev. }
  assert (Hlive : forall en ev, event_heap s !! en = Some ev ->
            exists ev', event_heap (detached n a x0 s) !! en = Some ev').
  { intros en ev Hev. apply lookup_lt_is_Some.
    unfold detached. cbn [event_heap set_arc_heap set_event_heap].
    rewrite length_invalidate_stale. by eapply lookup_lt_Some. }
  assert (Harc : forall en ev, Some en ∈ events s ->
            event_heap (detached n a x0 s) !! en = Some ev -> ev_valid ev = true ->
            exists m b, ev_arc ev = Some m /\ m <> n /\ arc_heap s !! m = Some b
                        /\ arc_event b = Some en).
  { intros en ev He Hev Hv. destruct (Hold _ _ He Hev Hv) as [Hev0 Hne].
    destruct (Hatt _ He) as (en' & ev0 & [= <-] & Hev0' & Hval). simplify_eq.
    destruct (Hval Hv) as (m & b & Hm & Hb & Hbe). exists m, b.
    split; [done |]. split; [| done]. intros ->. congruence. }
  split; [split; [split |] |].
  - done.
  - intros e He. destruct (Hatt _ He) as (en & ev0 & -> & Hev0 & _).
    destruct (Hlive _ _ Hev0) as [ev Hev]. exists en, ev.
    split; [done |]. split; [done |]. intros Hv.
    destruct (Harc _ _ He Hev Hv) as (m & b & Hm & Hmn & Hb & Hbe).
    exists m, b. split; [done |]. split; [| done].
    rewrite lookup_detached_arc by done. by rewrite decide_False.
  - intros en ev He Hev Hv. destruct (Hold _ _ He Hev Hv) as [Hev0 _].
    exact (Htie _ _ He Hev0 Hv).
  - intros en ev He Hev Hv. destruct (Harc _ _ He Hev Hv) as (m & b & Hm & Hmn & _).
    congruence.
Qed.

(** Scheduling a new event, with a trigger above the decision point, for
    an arc that no valid pending event refers to. *)
Lemma scheduled_attached_clear (n : nat) (a : Arc D) (x0 x : D) (o : Point D) (s : FA) :
  is_Some (arc_heap s !! n) ->
  (x0 <? x) = true ->
  attached_clear x0 s ->
  (forall en ev, Some en ∈ events s -> event_heap s !! en = Some ev ->
     ev_valid ev = true -> ev_arc ev <> Some n) ->
  attached_clear x0 (scheduled n a x o s).
Proof.
  intros Hn Hx [[Hnd Hatt] Htie] Hfree.
  assert (Hfresh : Some (length (event_heap s)) ∉ events s).
  { intros He. destruct (Hatt _ He) as (en & ev & [= <-] & Hev & _).
    apply lookup_lt_Some in Hev. lia. }
  unfold scheduled. split; [split |]; cbn [events event_heap arc_heap set_events set_arc_heap set_event_heap].
  - apply NoDup_app. split; [done |]. split; [| apply NoDup_singleton].
    intros e He ->%list_elem_of_singleton. done.
  - intros e [He| ->%list_elem_of_singleton]%elem_of_app.
    + destruct (Hatt _ He) as (en & ev & -> & Hev & Hval). exists en, ev.
      split; [done |]. split; [by apply lookup_app_l_Some |]. intros Hv.
      destruct (Hval Hv) as (m & b & Hm & Hb & Hbe). exists m, b.
      split; [done |]. split; [| done].
      rewrite list_lookup_insert_ne; [done |].
      intros ->. by apply (Hfree _ _ He Hev Hv).
    + exists (length (event_heap s)), (Event_new x o (Some n)).
      split; [done |]. split; [by rewrite list_lookup_middle |]. intros _.
      exists n, (with_event (Some (length (event_heap s))) a).
      split; [done |]. split; [| done].
      apply list_lookup_insert_eq. by apply lookup_lt_is_Some.
  - intros en ev He Hev Hv.
    cbn [events event_heap arc_heap set_events set_arc_heap set_event_heap] in He, Hev.
    apply elem_of_app in He as [He| Hnew%list_elem_of_singleton].
    + destruct (Hatt _ He) as (en' & ev0 & [= <-] & Hev0 & _).
      rewrite (lookup_app_l_Some _ _ _ _ Hev0) in Hev. simplify_eq.
      exact (Htie _ _ He Hev0 Hv).
    + simplify_eq. rewrite list_lookup_middle in Hev by done. simplify_eq.
      cbn [ev_x Event_new]. by apply dltb_neq.
Qed.

(** [check_circle_event] keeps the invariant when no valid pending event
    ties with its decision point. *)
Lemma check_circle_event_preserves (i : ArcPtr) (x0 : D) :
  preserves (attached_clear x0) (check_circle_event i x0).
Proof.
  intros s b s' Hs Hrun.
  destruct (check_circle_event_inv _ _ _ _ _ Hrun) as (n & a & -> & Hn & Hev).
  rewrite (check_circle_event_run n x0 s a Hn Hev) in Hrun.
  destruct (detached_attached_clear n a x0 s Hn Hs) as [Hd Hfree].
  assert (Hsch : forall x o, (x0 <? x) = true ->
            attached_clear x0 (scheduled n a x o (detached n a x0 s))).
  { intros x o Hx. apply scheduled_attached_clear; [| done | done | done].
    rewrite lookup_detached_arc by done. rewrite decide_True by done. by eexists. }
  destruct (arc_prev a) as [pn|]; [| by simplify_eq].
  destruct (arc_next a) as [nn|]; [| by simplify_eq].
  destruct (arc_heap s !! pn) as [ap|]; [| done].
  destruct (arc_heap s !! nn) as [an|]; [| done].
  destruct (circle (arc_p ap) (arc_p a) (arc_p an)) as [[x o]|]; [| by simplify_eq].
  destruct (x0 <? x) eqn:Hx; simplify_eq; [by apply Hsch | done].
Qed.

End CheckCircleInvariant.

Section OperationsInvariant.

Context {D : Type} `{DoubleOrder D}.
Local Open Scope double_scope.
Local Open Scope fa_scope.

Local Abbreviation FA := (FortuneAlgorithm D).

Lemma readonly_gets {A : Type} (f : FA -> A) : readonly D (gets f).
Proof. intros s a s' [= _ <-]. done. Qed.

Lemma readonly_left_of (i : ArcPtr) : readonly D (left_of i).
Proof. apply readonly_bind; [apply readonly_load | intros; apply readonly_ret]. Qed.

Lemma readonly_right_of (i : ArcPtr) : readonly D (right_of i).
Proof. apply readonly_bind; [apply readonly_load | intros; apply readonly_ret]. Qed.

Lemma readonly_last_arc (fuel : nat) (i : ArcPtr) : readonly D (last_arc fuel i).
Proof.
  revert i. induction fuel as [|fuel IH]; intros i; cbn [last_arc];
    (apply readonly_bind; [apply readonly_next_of | intros [m|]; [| apply readonly_ret]]).
  - by intros s a s'.
  - apply IH.
Qed.

Ltac frame_step :=
  first
    [ apply frames_ret
    | apply frames_new_segment
    | apply frames_update_segment
    | apply frames_output_push
    | apply frames_set_root
    | apply frames_new_arc; reflexivity
    | apply frames_update_arc; intros ?; reflexivity
    | apply frames_readonly;
      first [ apply readonly_ret | apply readonly_gets | apply readonly_intersect
            | apply readonly_p_of | apply readonly_prev_of | apply readonly_next_of
            | apply readonly_left_of | apply readonly_right_of | apply readonly_last_arc
            | apply readonly_load ] ].

Ltac pres_step :=
  first
    [ apply preserves_ret
    | apply check_circle_event_preserves
    | apply frames_preserves; frame_step ].

Ltac pres :=
  repeat first
    [ pres_step
    | apply preserves_bind; [| intros ?]
    | match goal with
      | |- preserves _ (match ?c with Some _ => _ | None => _ end) => destruct c
      | |- preserves _ (if ?c then _ else _) => destruct c
      end ].

Lemma front_insert_split_preserves (p : Point D) (i : ArcPtr) (z : Point D) :
  preserves (attached_clear (px p)) (front_insert_split p i z).
Proof. unfold front_insert_split. pres. Qed.

Lemma front_insert_scan_preserves (fuel : nat) (p : Point D) (i : ArcPtr) :
  preserves (attached_clear (px p)) (front_insert_scan fuel p i).
Proof.
  revert i. induction fuel as [|fuel IH]; intros [n|]; cbn [front_insert_scan];
    try apply preserves_ret.
  - by intros s a s'.
  - apply preserves_bind; [pres |]. intros [z|].
    + apply preserves_bind; [apply front_insert_split_preserves | intros; apply preserves_ret].
    + apply preserves_bind; [pres | intros; apply IH].
Qed.

Lemma front_insert_append_preserves (p : Point D) :
  preserves (attached_clear (px p)) (front_insert_append p).
Proof. unfold front_insert_append. pres. Qed.

Lemma front_insert_preserves (p : Point D) :
  preserves (attached_clear (px p)) (front_insert p).
Proof.
  unfold front_insert. apply preserves_bind; [pres |]. intros [r|].
  - apply preserves_bind; [pres |]. intros n.
    apply preserves_bind; [apply front_insert_scan_preserves |].
    intros []; [apply preserves_ret | apply front_insert_append_preserves].
  - pres.
Qed.

Lemma process_event_fire_preserves (ev : Event D) :
  preserves (attached_clear (ev_x ev)) (process_event_fire ev).
Proof. unfold process_event_fire, finish_at. cbv zeta. pres. Qed.

Lemma events_attached_pop (s : FA) (e : EventPtr) (q : list EventPtr) :
  pq_pop ptr_gt (events s) = Some (e, q) ->
  events_attached s -> events_attached (set_events q s).
Proof.
  intros Hq [Hnd Hatt]. pose proof (pq_pop_perm _ _ _ _ Hq) as Hp.
  split; cbn [events set_events event_heap arc_heap].
  - rewrite Hp in Hnd. by apply NoDup_cons in Hnd as [_ ?].
  - intros e' He'. apply Hatt. rewrite Hp. apply elem_of_cons. by right.
Qed.

Lemma process_event_preserves (s s' : FA) :
  events_attached s ->
  decision_point_clear ProcessCircleEvent s ->
  process_event s = Ok (tt, s') ->
  events_attached s'.
Proof.
  intros Hatt Hclear Hrun. unfold process_event in Hrun.
  apply bind_Ok_inv in Hrun as (e & s1 & Htop & Hrun).
  unfold events_top in Htop.
  destruct (pq_pop ptr_gt (events s)) as [[e' q]|] eqn:Hq; [| done].
  injection Htop as -> <-.
  apply bind_Ok_inv in Hrun as (u & s2 & Hpop & Hrun).
  unfold events_pop in Hpop. rewrite Hq in Hpop. injection Hpop as _ <-.
  apply bind_Ok_inv in Hrun as (ev & s3 & Hload & Hrun).
  pose proof (readonly_load _ _ _ _ _ Hload) as ->.
  assert (Hload' : load_event e s = Ok (ev, s)).
  { unfold load_event, load in *. cbn [event_heap set_events] in Hload.
    destruct e as [en|]; [| done]. destruct (event_heap s !! en); [| done].
    by injection Hload as ->. }
  assert (Hs1 : attached_clear (ev_x ev) (set_events q s)).
  { split; [by eapply events_attached_pop | by eapply Hclear]. }
  destruct (ev_valid ev).
  - by destruct (process_event_fire_preserves ev _ _ _ Hs1 Hrun).
  - injection Hrun as <-. by destruct Hs1.
Qed.

(** A state that satisfies the invariant has at most one valid pending
    event per arc. *)
Lemma events_attached_one_valid (s : FA) : events_attached s -> one_valid_event s.
Proof.
  intros [Hnd Hatt] n. unfold valid_events_of.
  set (l := filter _ _).
  assert (Hl : NoDup l) by (subst l; by apply NoDup_filter).
  assert (Hsame : forall e, e ∈ l -> arc_event <$> arc_heap s !! n = Some e).
  { subst l. intros e [Hv He]%list_elem_of_filter.
    destruct (Hatt _ He) as (en & ev & -> & Hev & Hval).
    unfold valid_event_of in Hv. rewrite Hev in Hv.
    apply andb_true_iff in Hv as [Hv Harc]. apply bool_decide_eq_true in Harc.
    destruct (Hval Hv) as (m & a & Hm & Ha & Hae).
    assert (m = n) as -> by congruence. rewrite Ha. cbn. by rewrite Hae. }
  destruct l as [|e1 [|e2 l]]; cbn; [lia | lia |].
  assert (e1 = e2).
  { pose proof (Hsame e1 ltac:(apply elem_of_cons; by left)).
    pose proof (Hsame e2 ltac:(apply elem_of_cons; right; apply elem_of_cons; by left)).
    congruence. }
  subst. apply NoDup_cons in Hl as [Hin _]. exfalso. apply Hin, elem_of_cons. by left.
Qed.

(** C9 (amended).  Let every valid pending circle event be the event
    attached to its arc (pending pointers live and pushed once).  Each of
    [front_insert], [check_circle_event] and [process_event], run at a
    decision point that ties with the trigger x of no valid pending event,
    re-establishes this on return; in particular every arc then has at
    most one valid pending circle event. *)
Theorem events_attached_preserved (op : operation D) (s s' : FA) :
  events_attached s ->
  decision_point_clear op s ->
  run_operation op s = Ok (tt, s') ->
  events_attached s' /\ one_valid_event s'.
Proof.
  intros Hatt Hclear Hrun.
  assert (Hs' : events_attached s'); [| split; [done | by apply events_attached_one_valid]].
  destruct op as [p | i x0 |]; cbn [run_operation decision_point_clear] in *.
  - by destruct (front_insert_preserves p s tt s' (conj Hatt Hclear) Hrun).
  - apply bind_Ok_inv in Hrun as (b & s1 & Hrun & [= <-]).
    by destruct (check_circle_event_preserves i x0 s b s1 (conj Hatt Hclear) Hrun).
  - by eapply process_event_preserves.
Qed.

End OperationsInvariant.

(** ** The order fact for the two interpretations of [double] *)

#[export] Instance DoubleOrder_R : DoubleOrder R.
Proof.
  constructor. intros a b. unfold_double. rewrite Rltb_true, Reqb_false. lra.
Qed.

Lemma SFcompare_Lt_not_Eq (f g : SpecFloat.spec_float) :
  SpecFloat.SFcompare f g = Some Lt -> SpecFloat.SFcompare g f <> Some Eq.
Proof.
  destruct f as [sf| sf | | sf mf ef], g as [sg | sg | | sg mg eg]; cbn;
    try done; try (by destruct sf, sg); try (by destruct sf); try (by destruct sg).
  destruct sf, sg; try done.
  - rewrite (Z.compare_antisym eg ef).
    destruct (eg ?= ef)%Z; cbn; try done.
    rewrite !Pos.compare_cont_spec. cbn.
    rewrite (Pos.compare_antisym mg mf). by destruct (mg ?= mf)%positive.
  - rewrite (Z.compare_antisym eg ef).
    destruct (eg ?= ef)%Z; cbn; try done.
    rewrite !Pos.compare_cont_spec. cbn.
    rewrite (Pos.compare_antisym mg mf). by destruct (mg ?= mf)%positive.
Qed.

#[export] Instance DoubleOrder_float : DoubleOrder float.
Proof.
  constructor. intros a b. cbn [dltb deqb Double_float].
  rewrite FloatAxioms.ltb_spec, FloatAxioms.eqb_spec. unfold SpecFloat.SFltb, SpecFloat.SFeqb.
  pose proof (SFcompare_Lt_not_Eq (Prim2SF a) (Prim2SF b)) as Hc.
  destruct (SpecFloat.SFcompare (Prim2SF a) (Prim2SF b)) as [[]|]; try done.
  intros _. destruct (SpecFloat.SFcompare (Prim2SF b) (Prim2SF a)) as [[]|]; try done.
  by destruct Hc.
Qed.

(** ** The theorems at work on concrete states *)

Local Open Scope fa_scope.

Lemma main_state3_reached :
  (add_points main_sites ;; compute_margins ;; compute_turns 3) FortuneAlgorithm_new
  = Ok (tt, main_state3).
Proof. vm_compute. reflexivity. Qed.

Lemma main_state7_reached :
  (add_points main_sites ;; compute_margins ;; compute_turns 7) FortuneAlgorithm_new
  = Ok (tt, main_state7).
Proof. vm_compute. reflexivity. Qed.

Lemma tie_state1_reached :
  (add_points tie_sites ;; compute_margins ;; compute_turns 1) FortuneAlgorithm_new
  = Ok (tt, tie_state1).
Proof. vm_compute. reflexivity. Qed.

(** In [main_state3] the pending circle event has trigger x about 275.89
    and the next site is (300, 400): the circle event goes first. *)
Lemma compute_step_dispatch_witness :
  exists ev p,
    load_event (Some 0%nat) main_state3 = Ok (ev, main_state3)
    /\ points_top main_state3 = Ok (p, main_state3)
    /\ (ev_x ev <=? px p)%D = true
    /\ compute_step main_state3 = process_event main_state3.
Proof.
  eexists _, _.
  split; [vm_compute; reflexivity |].
  split; [vm_compute; reflexivity |].
  split; [vm_compute; reflexivity |].
  etransitivity.
  - eapply (compute_step_dispatch main_state3 (Some 0%nat)); vm_compute; reflexivity.
  - match goal with
    | |- (if ?c then _ else _) = _ => replace c with true by (vm_compute; reflexivity)
    end.
    reflexivity.
Defined.

(** [check_circle_event] on arc 1 of [tie_state], at a decision point below
    the trigger of its attached event. *)
Lemma check_circle_event_spec_witness :
  exists b s', check_circle_event (Some 1%nat) 4%float tie_state = Ok (b, s').
Proof.
  edestruct (check_circle_event_spec 1%nat 4%float tie_state) as (b & s' & Hrun & _).
  - reflexivity.
  - intros en Hen. vm_compute in Hen. injection Hen as <-. by eexists.
  - intros pn nn Hp Hn. vm_compute in Hp, Hn. injection Hp as <-. injection Hn as <-.
    split; by eexists.
  - by exists b, s'.
Defined.

(** In [tie_state1] the next site (0, 2) has the x of the only arc, so it
    is appended. *)
Lemma front_insert_appends_witness :
  exists s', front_insert (mkPoint 0%float 2%float) tie_state1 = Ok (tt, s')
    /\ length (arc_heap s') = 2%nat /\ length (segment_heap s') = 1%nat.
Proof.
  edestruct (front_insert_appends (mkPoint 0%float 2%float) tie_state1 0%nat [0%nat] 0%nat)
    as (Hrun & _ & _ & _ & Hlen & Hseg & _).
  - reflexivity.
  - eapply chain_last; reflexivity.
  - reflexivity.
  - reflexivity.
  - intros m ->%list_elem_of_singleton. vm_compute. reflexivity.
  - eexists. split; [exact Hrun |]. split; [exact Hlen |]. by rewrite Hseg.
Defined.

Lemma main_state7_attached : events_attached main_state7.
Proof.
  split.
  - apply (bool_decide_unpack _). vm_compute. exact I.
  - intros e He. change (events main_state7) with [Some 2%nat; Some 3%nat] in He.
    apply elem_of_cons in He as [->|He]; [| apply list_elem_of_singleton in He as ->].
    + eexists _, _. split; [reflexivity |]. split; [reflexivity |]. intros _.
      eexists _, _. split; [reflexivity |]. split; reflexivity.
    + eexists _, _. split; [reflexivity |]. split; [reflexivity |]. intros _.
      eexists _, _. split; [reflexivity |]. split; reflexivity.
Qed.

Lemma main_state7_clear : decision_point_clear ProcessCircleEvent main_state7.
Proof.
  intros e q ev Hq Hload. vm_compute in Hq. injection Hq as <- <-.
  vm_compute in Hload. injection Hload as <-.
  intros en ev He Hev Hv. cbn [events set_events] in He.
  apply list_elem_of_singleton in He. injection He as ->.
  vm_compute in Hev. injection Hev as <-. vm_compute. reflexivity.
Qed.

(** The eighth step of [compute] on the sites of [main.cpp]: event 2 fires
    while event 3, with another trigger x, is pending. *)
Lemma events_attached_preserved_witness :
  exists s', process_event main_state7 = Ok (tt, s')
    /\ events_attached s' /\ one_valid_event s'.
Proof.
  eexists. split; [vm_compute; reflexivity |].
  eapply (events_attached_preserved ProcessCircleEvent main_state7).
  - exact main_state7_attached.
  - exact main_state7_clear.
  - vm_compute. reflexivity.
Defined.

(** Over the reals, on the beachline of the single site (0, 0): the site
    (0, 1) has the same x and is not intersected; the site (1, 0) is, and
    the divisor of the back-substitution is 2 * 0 - 2 * 1. *)
Lemma intersect_guard_witness :
  intersect (mkPoint 0%R 1%R) (Some 0%nat) origin_state = Ok (None, origin_state)
  /\ (2 * 0 - 2 * 1 <> 0)%R.
Proof.
  split.
  - apply (proj1 (intersect_guard (mkPoint 0%R 1%R) 0%nat origin_state _ eq_refl)).
    reflexivity.
  - eapply (proj2 (intersect_guard (mkPoint 1%R 0%R) 0%nat origin_state _ eq_refl)).
    unfold intersect, bind, p_of, prev_of, next_of, load_arc, load, ret. cbn.
    unfold Reqb. destruct (Req_dec_T 0 1) as [Heq|_]; [lra | reflexivity].
Defined.

(** ** [intersection] with both foci on the directrix *)

Local Open Scope fa_scope.

(** C6.  When both foci have the x of the directrix,
    the equal-x branch is taken and the back-substitution divides by
    [2 * p.x - 2 * l = 0]: over the reals for all such inputs, and in
    binary64 at (0, 0), (0, 2), 0, where the quotient is infinite. *)
Theorem intersection_divides_by_zero :
  (forall l y0 y1 : R, intersection_checked (mkPoint l y0) (mkPoint l y1) l = None)
  /\ intersection_checked (mkPoint 0%float 0%float) (mkPoint 0%float 2%float) 0%float = None
  /\ intersection (mkPoint 0%float 0%float) (mkPoint 0%float 2%float) 0%float
     = mkPoint infinity 1%float.
Proof.
  split; [| split; vm_compute; reflexivity].
  intros l y0 y1. by apply intersection_checked_None_iff.
Qed.

(** The case is reached from [compute]: on [column_sites] the sweep
    coordinate [l * 2] of [finish_edges] is the x of both sites, and the
    only segment is finished at x = infinity. *)
Lemma finish_edges_divides_by_zero :
  exists s g,
    run 2 column_sites = Ok (tt, s)
    /\ segment_heap s = [g]
    /\ seg_done g = true
    /\ px (seg_end g) = infinity
    /\ ((x_max s + (x_max s - x_min s) + (y_max s - y_min s)) * 2)%float
       = (-0x1.3333333333334p+2)%float.
Proof.
  eexists _, _. split; [vm_compute; reflexivity |].
  repeat split; vm_compute; reflexivity.
Qed.

(** * Further properties *)

(** ** The geometry of the breakpoints, over the exact reals *)

Section BreakpointExact.

Local Open Scope R_scope.

(** A point whose x is obtained by the back-substitution of the source
    lies on the parabola of focus [p] and directrix [x = l]. *)
Lemma on_parabola (p : Point R) (l y : R) :
  px p <> l ->
  let x := (px p * px p + (py p - y) * (py p - y) - l * l) / (2 * px p - 2 * l) in
  (x - px p) * (x - px p) + (y - py p) * (y - py p) = (x - l) * (x - l).
Proof.
  intros Hp x. subst x. field. lra.
Qed.

Lemma quadratic_root (a b c s : R) :
  a <> 0 -> s * s = b * b - 4 * a * c ->
  let y := (- b - s) / (2 * a) in a * (y * y) + b * y + c = 0.
Proof.
  intros Ha Hs y. subst y.
  assert (H4 : 4 * a * (a * ((- b - s) / (2 * a) * ((- b - s) / (2 * a)))
                        + b * ((- b - s) / (2 * a)) + c) = 0).
  { field_simplify; [| done]. nra. }
  nra.
Qed.

(** The breakpoint that [intersection] returns is at the same distance
    from the two foci and from the directrix, whenever the foci are not
    both on the directrix and, in the general case, the quadratic has a
    real root. *)
Theorem intersection_equidistant (p0 p1 : Point R) (l : R) :
  ~ (px p0 = px p1 /\ px p0 = l) ->
  (px p0 <> px p1 -> px p1 <> l -> px p0 <> l -> 0 <= intersection_discriminant p0 p1 l) ->
  let r := intersection p0 p1 l in
  dist2 r p0 = dist2 r p1 /\ dist2 r p0 = (px r - l) * (px r - l).
Proof.
  intros Hnot Hdisc r. subst r. unfold intersection, intersection_y, dist2.
  unfold_double.
  destruct (Reqb (px p0) (px p1)) eqn:E01.
  { apply Reqb_true in E01. assert (Hl : px p0 <> l) by (intros ?; apply Hnot; done).
    cbn [px py]. pose proof (on_parabola p0 l ((py p0 + py p1) / 2) Hl) as Hp. cbv zeta in Hp.
    split; [| exact Hp]. rewrite <- E01. 
    set (x := (px p0 * px p0 + _ - l * l) / _) in *. clearbody x. nra. }
  apply Reqb_false in E01.
  destruct (Reqb (px p1) l) eqn:E1.
  { apply Reqb_true in E1. assert (Hl : px p0 <> l) by congruence.
    cbn [px py]. pose proof (on_parabola p0 l (py p1) Hl) as Hp. cbv zeta in Hp.
    split; [| exact Hp]. rewrite Hp, E1. ring. }
  apply Reqb_false in E1.
  destruct (Reqb (px p0) l) eqn:E0.
  { apply Reqb_true in E0.
    cbn [px py]. pose proof (on_parabola p1 l (py p0) E1) as Hp. cbv zeta in Hp.
    assert (H0 : forall x, (x - px p0) * (x - px p0) + (py p0 - py p0) * (py p0 - py p0)
                           = (x - l) * (x - l)) by (intros; rewrite E0; nra).
    split; [by rewrite H0, Hp | apply H0]. }
  apply Reqb_false in E0.
  specialize (Hdisc E01 E1 E0). unfold intersection_discriminant in Hdisc.
  unfold_double. cbv zeta in *. cbn [px py].
  set (z0 := 2 * (px p0 - l)) in *. set (z1 := 2 * (px p1 - l)) in *.
  set (a := 1 / z0 - 1 / z1) in *.
  set (b := - (2) * (py p0 / z0 - py p1 / z1)) in *.
  set (c := (py p0 * py p0 + px p0 * px p0 - l * l) / z0
            - (py p1 * py p1 + px p1 * px p1 - l * l) / z1) in *.
  set (y := (- b - sqrt (b * b - 4 * a * c)) / (2 * a)).
  assert (Hz0 : z0 <> 0) by (subst z0; lra).
  assert (Hz1 : z1 <> 0) by (subst z1; lra).
  assert (Ha : a <> 0).
  { subst a. intros Heq. assert (Hinv : / z0 = / z1) by lra.
    apply Rinv_eq_reg in Hinv. subst z0 z1. lra. }
  pose proof (quadratic_root a b c (sqrt (b * b - 4 * a * c)) Ha (sqrt_sqrt _ Hdisc)) as Hy.
  cbv zeta in Hy. fold y in Hy.
  pose proof (on_parabola p0 l y E0) as Hp0. cbv zeta in Hp0.
  pose proof (on_parabola p1 l y E1) as Hp1. cbv zeta in Hp1.
  assert (Hx : (px p0 * px p0 + (py p0 - y) * (py p0 - y) - l * l) / (2 * px p0 - 2 * l)
               = (px p1 * px p1 + (py p1 - y) * (py p1 - y) - l * l) / (2 * px p1 - 2 * l)).
  { apply Rminus_diag_uniq. rewrite <- Hy. subst a b c z0 z1. field. lra. }
  split; [| exact Hp0]. rewrite Hp0. rewrite Hx in *. by rewrite Hp1.
Qed.

(** The foci (0, 0) and (2, 0) with the directrix x = 4: the general case,
    with discriminant 1/2. *)
Lemma intersection_equidistant_witness :
  dist2 (intersection (mkPoint 0 0) (mkPoint 2 0) 4) (mkPoint 0 0)
  = dist2 (intersection (mkPoint 0 0) (mkPoint 2 0) 4) (mkPoint 2 0).
Proof.
  apply (intersection_equidistant (mkPoint 0 0) (mkPoint 2 0) 4).
  - cbn [px]. lra.
  - intros _ _ _. unfold intersection_discriminant. unfold_double.
    replace (_ - _) with (1 / 2); [lra | field].
Defined.

End BreakpointExact.

Section ParabolaExact.

Local Open Scope R_scope.
Local Open Scope fa_scope.

(** When [intersect (p, i, &z)] answers true the object is untouched, [z]
    has the y of [p], and [z] is at the same distance from the site of [i]
    as from the sweep line [x = p.x]. *)
Theorem intersect_on_parabola (p : Point R) (n : nat) (s s' : FortuneAlgorithm R)
    (a : Arc R) (z : Point R) :
  arc_heap s !! n = Some a ->
  intersect p (Some n) s = Ok (Some z, s') ->
  s' = s /\ py z = py p /\ dist2 z (arc_p a) = (px z - px p) * (px z - px p).
Proof.
  intros Hn Hrun.
  pose proof (readonly_intersect p (Some n) _ _ _ Hrun) as ->. split; [done |].
  destruct (intersect_same_x p n s a Hn) as [_ Hne]. specialize (Hne z s Hrun).
  unfold_double. assert (Hpx : px (arc_p a) <> px p) by (by apply Reqb_false).
  unfold intersect in Hrun.
  rewrite (bind_Ok _ _ _ _ _ (p_of_Some _ _ _ Hn)) in Hrun.
  unfold_double. rewrite (proj2 (Reqb_false _ _) Hpx) in Hrun.
  apply bind_Ok_inv in Hrun as (iprev & s1 & _ & Hrun).
  apply bind_Ok_inv in Hrun as (inext & s2 & _ & Hrun).
  apply bind_Ok_inv in Hrun as (ya & s3 & _ & Hrun).
  apply bind_Ok_inv in Hrun as (yb & s4 & _ & Hrun).
  destruct (_ && _); [| done]. injection Hrun as <- _.
  cbn [px py]. split; [done |]. unfold dist2. cbn [px py].
  exact (on_parabola (arc_p a) (px p) (py p) Hpx).
Qed.

(** On the beachline of the single site (0, 0), the site (1, 0). *)
Lemma intersect_on_parabola_witness :
  exists z, intersect (mkPoint 1 0) (Some 0%nat) origin_state = Ok (Some z, origin_state)
    /\ py z = 0 /\ dist2 z (mkPoint 0 0) = (px z - 1) * (px z - 1).
Proof.
  assert (Hrun : exists z, intersect (mkPoint 1 0) (Some 0%nat) origin_state
                           = Ok (Some z, origin_state)).
  { eexists. unfold intersect, bind, p_of, prev_of, next_of, load_arc, load, ret. cbn.
    unfold Reqb. destruct (Req_dec_T 0 1) as [Heq|_]; [lra | reflexivity]. }
  destruct Hrun as [z Hrun]. exists z. split; [exact Hrun |].
  exact (proj2 (intersect_on_parabola (mkPoint 1 0) 0%nat origin_state origin_state _ z
                  eq_refl Hrun)).
Defined.

End ParabolaExact.

Section CircumcircleExact.

Local Open Scope R_scope.

(** When [circle] answers true, the centre is at the same distance from
    the three sites, the trigger is the centre's x plus that distance, and
    the trigger is not to the left of any of the three sites. *)
Theorem circle_circumcircle (a b c : Point R) (x : R) (o : Point R) :
  circle a b c = Some (x, o) ->
  dist2 o a = dist2 o b /\ dist2 o a = dist2 o c
  /\ x = px o + sqrt (dist2 o a)
  /\ px a <= x /\ px b <= x /\ px c <= x.
Proof.
  intros Hc. destruct (circle_center_equidistant a b c x o Hc) as (Hb & Hcc & Hx).
  split; [done |]. split; [done |]. split; [done |].
  assert (Hd : 0 <= dist2 o a).
  { apply Rplus_le_le_0_compat; exact (Rle_0_sqr _). }
  pose proof (sqrt_pos (dist2 o a)) as Hr.
  pose proof (sqrt_sqrt _ Hd) as Hrr.
  set (r := sqrt (dist2 o a)) in *. clearbody r.
  assert (Hside : forall q, dist2 o q = dist2 o a -> px q <= px o + r).
  { intros q Hq. unfold dist2 in Hq, Hrr. rewrite <- Hq in Hrr.
    destruct (Rle_dec (px q) (px o + r)) as [|Hgt]; [done |].
    assert (Ht : 0 < px q - px o - r) by lra.
    pose proof (Rmult_lt_0_compat _ _ Ht Ht) as Htt.
    pose proof (Rmult_le_pos _ _ Hr (Rlt_le _ _ Ht)) as Hrt.
    pose proof (Rle_0_sqr (py o - py q)) as Hy. unfold Rsqr in Hy. nra. }
  rewrite Hx. repeat split; apply Hside; congruence.
Qed.

(** The triple (10, 0), (0, 0), (5, 10), a right turn. *)
Lemma circle_circumcircle_witness :
  exists x o, circle (mkPoint 10 0) (mkPoint 0 0) (mkPoint 5 10) = Some (x, o)
    /\ dist2 o (mkPoint 10 0) = dist2 o (mkPoint 0 0) /\ 10 <= x.
Proof.
  destruct (circle (mkPoint 10 0) (mkPoint 0 0) (mkPoint 5 10)) as [[x o]|] eqn:Hc.
  - exists x, o. split; [done |].
    destruct (circle_circumcircle _ _ _ _ _ Hc) as (Hb & _ & _ & Ha & _). done.
  - apply circle_None_iff in Hc. unfold turn in Hc. unfold_double. lra.
Defined.

End CircumcircleExact.

(** ** The bounding box kept by [add_point] and widened by [compute] *)

Section BoundingBoxFacts.

Context {D : Type} `{Double D}.
Local Open Scope double_scope.
Local Open Scope fa_scope.

(** [add_point] never fails; the state it leaves. *)
Lemma add_point_run (p : Point D) (s : FortuneAlgorithm D) :
  add_point p s
  = Ok (tt, let s1 := set_points (points s ++ [p]) s in
            if (length (points s ++ [p]) =? 1)%nat
            then set_box (px p) (px p) (py p) (py p) s1
            else set_box (dmin (x_min s) (px p)) (dmax (x_max s) (px p))
                         (dmin (y_min s) (py p)) (dmax (y_max s) (py p)) s1).
Proof.
  unfold add_point, points_push, bind, modify, gets. cbn [points set_points].
  by destruct (_ =? 1)%nat.
Qed.

End BoundingBoxFacts.

Section BoundingBoxExact.

Local Open Scope R_scope.

Lemma in_box_R (s : FortuneAlgorithm R) (p : Point R) :
  in_box s p = true
  <-> (x_min s <= px p <= x_max s) /\ (y_min s <= py p <= y_max s).
Proof.
  unfold in_box. unfold_double.
  rewrite !andb_true_iff, !Rleb_true. tauto.
Qed.

Lemma strictly_in_box_R (s : FortuneAlgorithm R) (p : Point R) :
  strictly_in_box s p = true
  <-> (x_min s < px p < x_max s) /\ (y_min s < py p < y_max s).
Proof.
  unfold strictly_in_box. unfold_double.
  rewrite !andb_true_iff, !Rltb_true. tauto.
Qed.

Lemma dmin_R (a b : R) : dmin a b = Rmin a b.
Proof.
  unfold dmin, Rmin. unfold_double.
  destruct (Rltb b a) eqn:E; [apply Rltb_true in E | apply Rltb_false in E];
    destruct (Rle_dec a b); lra.
Qed.

Lemma dmax_R (a b : R) : dmax a b = Rmax a b.
Proof.
  unfold dmax, Rmax. unfold_double.
  destruct (Rltb a b) eqn:E; [apply Rltb_true in E | apply Rltb_false in E];
    destruct (Rle_dec a b); lra.
Qed.

(** One more site: the queue gets it, and the box stays the least box
    around the queued sites. *)
Lemma add_point_bounding_box (p : Point R) (s : FortuneAlgorithm R) :
  bounding_box (points s) s ->
  exists s', add_point p s = Ok (tt, s')
    /\ points s' = points s ++ [p]
    /\ bounding_box (points s') s'.
Proof.
  intros [Hin Htight]. eexists. split; [apply add_point_run |].
  cbv zeta. destruct (_ =? 1)%nat eqn:Hlen.
  - apply Nat.eqb_eq in Hlen. rewrite length_app in Hlen. cbn in Hlen.
    destruct (points s) as [|q qs] eqn:Hps; [| cbn in Hlen; lia].
    split; [done |]. cbn [points set_box set_points app]. split.
    + intros q Hq. apply list_elem_of_singleton in Hq as ->.
      apply in_box_R. cbn. lra.
    + intros _. cbn. repeat split; exists p; (split; [by apply list_elem_of_singleton | done]).
  - apply Nat.eqb_neq in Hlen.
    assert (Hne : points s <> []).
    { intros Hnil. rewrite Hnil in Hlen. by cbn in Hlen. }
    split; [done |]. cbn [points set_box set_points]. split.
    + intros q Hq. apply in_box_R. cbn [x_min x_max y_min y_max set_box set_points].
      rewrite !dmin_R, !dmax_R.
      pose proof (Rmin_l (x_min s) (px p)). pose proof (Rmin_r (x_min s) (px p)).
      pose proof (Rmin_l (y_min s) (py p)). pose proof (Rmin_r (y_min s) (py p)).
      pose proof (Rmax_l (x_max s) (px p)). pose proof (Rmax_r (x_max s) (px p)).
      pose proof (Rmax_l (y_max s) (py p)). pose proof (Rmax_r (y_max s) (py p)).
      apply elem_of_app in Hq as [Hq|Hq].
      * apply Hin, in_box_R in Hq. lra.
      * apply list_elem_of_singleton in Hq as ->. lra.
    + intros _. destruct (Htight Hne) as ((a & Ha & Hxa) & (b & Hb & Hxb)
                                          & (c & Hc & Hyc) & (d & Hd & Hyd)).
      cbn [x_min x_max y_min y_max set_box set_points].
      rewrite !dmin_R, !dmax_R.
      assert (Hp : p ∈ points s ++ [p]) by (apply elem_of_app; right; by apply list_elem_of_singleton).
      repeat split.
      * unfold Rmin. destruct (Rle_dec _ _); [exists a | exists p]; (split; [| done]); [| done].
        apply elem_of_app; by left.
      * unfold Rmax. destruct (Rle_dec _ _); [exists p | exists b]; (split; [| done]); [done |].
        apply elem_of_app; by left.
      * unfold Rmin. destruct (Rle_dec _ _); [exists c | exists p]; (split; [| done]); [| done].
        apply elem_of_app; by left.
      * unfold Rmax. destruct (Rle_dec _ _); [exists p | exists d]; (split; [| done]); [done |].
        apply elem_of_app; by left.
Qed.

Lemma add_points_bounding_box_from (ps : list (Point R)) (s : FortuneAlgorithm R) :
  bounding_box (points s) s ->
  exists s', add_points ps s = Ok (tt, s')
    /\ points s' = points s ++ ps
    /\ bounding_box (points s') s'.
Proof.
  revert s. induction ps as [|p ps IH]; intros s Hb.
  - exists s. by rewrite app_nil_r.
  - destruct (add_point_bounding_box p s Hb) as (s1 & Hrun & Hps & Hb1).
    destruct (IH s1 Hb1) as (s2 & Hrun2 & Hps2 & Hb2).
    exists s2. split; [| split; [| done]].
    + cbn [add_points]. by rewrite (bind_Ok _ _ _ _ _ Hrun).
    + by rewrite Hps2, Hps, <- app_assoc.
Qed.

(** After the calls [add_point (p)] for the sites [ps] on a fresh object,
    the priority queue holds exactly [ps] and the box is the least box
    around them: every site is inside, and each border goes through a
    site. *)
Theorem add_points_bounding_box (ps : list (Point R)) :
  exists s, add_points ps FortuneAlgorithm_new = Ok (tt, s)
    /\ points s = ps
    /\ bounding_box ps s.
Proof.
  destruct (add_points_bounding_box_from ps FortuneAlgorithm_new) as (s & Hrun & Hps & Hb).
  - split; [intros p Hp; by apply elem_of_nil in Hp | done].
  - cbn in Hps. subst ps. by exists s.
Qed.

(** The margins that [compute] adds first are positive when the box is
    not inverted: the widened box has every point of the old one strictly
    inside, and each side grows by a fifth of the old extent plus one. *)
Lemma compute_margins_run (s : FortuneAlgorithm R) :
  exists s', compute_margins s = Ok (tt, s')
    /\ points s' = points s /\ events s' = events s /\ root s' = root s
    /\ x_min s' = x_min s - (x_max s - x_min s + 1) / 5
    /\ x_max s' = x_max s + (x_max s - x_min s + 1) / 5
    /\ y_min s' = y_min s - (y_max s - y_min s + 1) / 5
    /\ y_max s' = y_max s + (y_max s - y_min s + 1) / 5.
Proof. eexists. split; [reflexivity |]. by cbn. Qed.

(** Every input site lies strictly inside the box that the main loop of
    [compute] works with. *)
Theorem compute_margins_strict (ps : list (Point R)) :
  exists s s', add_points ps FortuneAlgorithm_new = Ok (tt, s)
    /\ compute_margins s = Ok (tt, s')
    /\ points s' = ps
    /\ forall p, p ∈ ps -> strictly_in_box s' p = true.
Proof.
  destruct (add_points_bounding_box_from ps FortuneAlgorithm_new) as (s & Hrun & Hps & Hb).
  { split; [intros p Hp; by apply elem_of_nil in Hp | done]. }
  cbn in Hps.
  destruct (compute_margins_run s) as (s' & Hm & Hps' & _ & _ & Hx0 & Hx1 & Hy0 & Hy1).
  exists s, s'. split; [done |]. split; [done |]. split; [congruence |].
  intros p Hp. rewrite <- Hps in Hp. destruct Hb as [Hin _].
  apply Hin, in_box_R in Hp. apply strictly_in_box_R.
  rewrite Hx0, Hx1, Hy0, Hy1. lra.
Qed.

End BoundingBoxExact.

(** ** What [compute] never undoes *)

Section StepsFacts.

Context {D : Type} `{Double D}.
Context (R : relation (FortuneAlgorithm D)) `{!PreOrder R}.
Local Open Scope fa_scope.

Lemma steps_ret {A : Type} (a : A) : steps R (ret a).
Proof. intros s b s' Hr. unfold ret in Hr. simplify_eq. reflexivity. Qed.

Lemma steps_bind {A B : Type} (m : M D A) (k : A -> M D B) :
  steps R m -> (forall a, steps R (k a)) -> steps R (bind m k).
Proof.
  intros Hm Hk s b s'' (a & s' & H1 & H2)%bind_Ok_inv.
  etransitivity; [by eapply Hm | by eapply Hk].
Qed.

Lemma steps_readonly {A : Type} (m : M D A) : readonly D m -> steps R m.
Proof. intros Hm s a s' ->%Hm. reflexivity. Qed.

Lemma steps_out_of_fuel {A : Type} : steps R (@out_of_fuel D A).
Proof. by intros s a s'. Qed.

Lemma steps_crash {A : Type} : steps R (@crash D A).
Proof. by intros s a s'. Qed.

Lemma steps_modify (f : FortuneAlgorithm D -> FortuneAlgorithm D) :
  (forall s, R s (f s)) -> steps R (modify f).
Proof. intros Hf s u s' Hr. unfold modify in Hr. simplify_eq. apply Hf. Qed.

End StepsFacts.

Section ExtendsFacts.

Context {D : Type} `{Double D}.
Local Open Scope double_scope.
Local Open Scope fa_scope.

Local Abbreviation FA := (FortuneAlgorithm D).

#[export] Instance extends_preorder : PreOrder (@extends D).
Proof.
  split.
  - intros s. repeat split; eauto 10.
  - intros s1 s2 s3 (A1 & E1 & G1 & O1) (A2 & E2 & G2 & O2). repeat split.
    + intros n a Ha. destruct (A1 n a Ha) as (a' & Ha' & Hp).
      destruct (A2 n a' Ha') as (a'' & Ha'' & Hp'). exists a''. split; [done | congruence].
    + intros n ev He. destruct (E1 n ev He) as (ev' & He' & Hx & Hp & Ha & Hv).
      destruct (E2 n ev' He') as (ev'' & He'' & Hx' & Hp' & Ha' & Hv').
      exists ev''. repeat split; [done | congruence.. | auto].
    + intros n g Hg. destruct (G1 n g Hg) as (g' & Hg' & Hs & Hd).
      destruct (G2 n g' Hg') as (g'' & Hg'' & Hs' & Hd').
      exists g''. repeat split; [done | congruence |].
      intros Hdone. specialize (Hd Hdone). subst g'. auto.
    + by etransitivity.
Qed.

(** The three arenas and the output taken one at a time. *)
Lemma extends_arcs (s : FA) (h : list (Arc D)) :
  (forall n a, arc_heap s !! n = Some a -> exists a', h !! n = Some a' /\ arc_p a' = arc_p a) ->
  extends s (set_arc_heap h s).
Proof. intros Hh. repeat split; [done | eauto 10..]. Qed.

Lemma extends_events (s : FA) (h : list (Event D)) :
  (forall n ev, event_heap s !! n = Some ev ->
     exists ev', h !! n = Some ev'
       /\ ev_x ev' = ev_x ev /\ ev_p ev' = ev_p ev /\ ev_arc ev' = ev_arc ev
       /\ (ev_valid ev = false -> ev_valid ev' = false)) ->
  extends s (set_event_heap h s).
Proof. intros Hh. repeat split; [eauto 10 | done | eauto 10..]. Qed.

Lemma extends_segments (s : FA) (h : list (Segment D)) :
  (forall n g, segment_heap s !! n = Some g ->
     exists g', h !! n = Some g' /\ seg_start g' = seg_start g
                /\ (seg_done g = true -> g' = g)) ->
  extends s (set_segment_heap h s).
Proof. intros Hh. repeat split; [eauto 10 | eauto 10 | done | done]. Qed.

Lemma extends_update_arc (i : ArcPtr) (f : Arc D -> Arc D) :
  (forall a, arc_p (f a) = arc_p a) -> steps (@extends D) (update_arc i f).
Proof.
  intros Hf s u s' (a & s1 & (-> & n & -> & Hn)%load_arc_inv & Hm)%bind_Ok_inv.
  unfold modify in Hm. simplify_eq. apply extends_arcs.
  intros m b Hm. cbn [default]. rewrite list_lookup_alter.
  destruct (decide (n = m)) as [->|]; rewrite Hm; cbn.
  - exists (f b). by rewrite Hf.
  - by exists b.
Qed.

Lemma extends_invalidate (e : EventPtr) : steps (@extends D) (update_event e (with_valid false)).
Proof.
  intros s u s' (a & s1 & Hl & Hm)%bind_Ok_inv.
  apply readonly_load in Hl as ->.
  unfold modify in Hm. simplify_eq. apply extends_events.
  intros m b Hm. rewrite list_lookup_alter.
  destruct (decide (default 0 e = m)) as [->|]; rewrite Hm; cbn.
  - by exists (with_valid false b).
  - by exists b.
Qed.

Lemma extends_finish_at (g : SegmentPtr) (p : Point D) : steps (@extends D) (finish_at g p).
Proof.
  intros s u s' (a & s1 & Hl & Hm)%bind_Ok_inv.
  apply readonly_load in Hl as ->.
  unfold modify in Hm. simplify_eq. apply extends_segments.
  intros m b Hm. rewrite list_lookup_alter.
  destruct (decide (default 0 g = m)) as [->|]; rewrite Hm; cbn.
  - exists (finish b p). split; [done |]. unfold finish.
    destruct (seg_done b); [done |]. split; [done | done].
  - by exists b.
Qed.

Lemma extends_new_arc (a : Arc D) : steps (@extends D) (new_arc a).
Proof.
  intros s c s' Hr. unfold new_arc, new_event, new_segment in Hr. simplify_eq. apply extends_arcs.
  intros m b Hm. exists b. split; [| done]. by apply lookup_app_l_Some.
Qed.

Lemma extends_new_event (e : Event D) : steps (@extends D) (new_event e).
Proof.
  intros s c s' Hr. unfold new_arc, new_event, new_segment in Hr. simplify_eq. apply extends_events.
  intros m b Hm. exists b. split; [| done]. by apply lookup_app_l_Some.
Qed.

Lemma extends_new_segment (g : Segment D) : steps (@extends D) (new_segment g).
Proof.
  intros s c s' Hr. unfold new_arc, new_event, new_segment in Hr. simplify_eq. apply extends_segments.
  intros m b Hm. exists b. split; [| done]. by apply lookup_app_l_Some.
Qed.

Lemma extends_output_push (g : SegmentPtr) : steps (@extends D) (output_push g).
Proof.
  apply steps_modify. intros s. repeat split; [eauto 10.. |].
  cbn. by apply prefix_app_r.
Qed.

Lemma extends_events_push (e : EventPtr) : steps (@extends D) (events_push e).
Proof. apply steps_modify. intros s. repeat split; eauto 10. Qed.

Lemma extends_events_pop : steps (@extends D) (@events_pop D).
Proof.
  intros s u s'. unfold events_pop. destruct (pq_pop _ _) as [[e q]|]; [| done].
  intros Hr. simplify_eq. repeat split; eauto 10.
Qed.

Lemma extends_events_top : steps (@extends D) (@events_top D).
Proof.
  intros s u s'. unfold events_top. destruct (pq_pop _ _) as [[e q]|]; [| done].
  intros Hr. simplify_eq. reflexivity.
Qed.

Lemma extends_points_pop : steps (@extends D) (@points_pop D _).
Proof.
  intros s u s'. unfold points_pop. destruct (pq_pop _ _) as [[e q]|]; [| done].
  intros Hr. simplify_eq. repeat split; eauto 10.
Qed.

Lemma extends_points_top : steps (@extends D) (@points_top D _).
Proof.
  intros s u s'. unfold points_top. destruct (pq_pop _ _) as [[e q]|]; [| done].
  intros Hr. simplify_eq. reflexivity.
Qed.

Lemma extends_set_root (c : ArcPtr) : steps (@extends D) (modify (set_root (D:=D) c)).
Proof. apply steps_modify. intros s. repeat split; eauto 10. Qed.

Lemma extends_compute_margins : steps (@extends D) (@compute_margins D _).
Proof.
  intros s u s' Hr. unfold compute_margins, bind, gets, modify in Hr.
  simplify_eq. repeat split; eauto 10.
Qed.

Ltac extends_step :=
  first
    [ apply steps_ret; apply _
    | apply extends_new_arc | apply extends_new_event | apply extends_new_segment
    | apply extends_output_push | apply extends_events_push
    | apply extends_events_pop | apply extends_events_top
    | apply extends_points_pop | apply extends_points_top
    | apply extends_set_root | apply extends_invalidate | apply extends_finish_at
    | apply extends_update_arc; intros ?; reflexivity
    | apply steps_out_of_fuel
    | apply steps_readonly;
      [ apply _
      | first [ apply readonly_ret | apply readonly_gets | apply readonly_intersect
              | apply readonly_p_of | apply readonly_prev_of | apply readonly_next_of
              | apply readonly_left_of | apply readonly_right_of | apply readonly_last_arc
              | apply readonly_load
              | apply readonly_bind; [apply readonly_load | intros; apply readonly_ret] ] ] ].

Ltac extends_go :=
  repeat first
    [ extends_step
    | match goal with
      | |- steps _ (bind _ _) => apply steps_bind; [apply _ | | intros ?]
      | |- steps _ (match ?c with Some _ => _ | None => _ end) => destruct c
      | |- steps _ (match ?c with (_, _) => _ end) => destruct c
      | |- steps _ (if ?c then _ else _) => destruct c
      end ].

Lemma extends_check_circle_event (i : ArcPtr) (x0 : D) :
  steps (@extends D) (check_circle_event i x0).
Proof. unfold check_circle_event. extends_go. Qed.

Lemma extends_process_event_fire (ev : Event D) : steps (@extends D) (process_event_fire ev).
Proof.
  unfold process_event_fire. cbv zeta.
  pose proof extends_check_circle_event as Hc. extends_go; apply Hc.
Qed.

Lemma extends_process_event : steps (@extends D) (@process_event D _).
Proof.
  unfold process_event. pose proof extends_process_event_fire as Hf. extends_go; apply Hf.
Qed.

Lemma extends_front_insert_split (p : Point D) (i : ArcPtr) (z : Point D) :
  steps (@extends D) (front_insert_split p i z).
Proof.
  unfold front_insert_split.
  pose proof extends_check_circle_event as Hc. extends_go; apply Hc.
Qed.

Lemma extends_front_insert_scan (fuel : nat) (p : Point D) (i : ArcPtr) :
  steps (@extends D) (front_insert_scan fuel p i).
Proof.
  revert i. induction fuel as [|fuel IH]; intros [n|]; cbn [front_insert_scan];
    try (apply steps_ret; apply _).
  - apply steps_out_of_fuel.
  - apply steps_bind; [apply _ | extends_go |]. intros [z|].
    + apply steps_bind; [apply _ | apply extends_front_insert_split | intros; extends_go].
    + apply steps_bind; [apply _ | extends_go | intros; apply IH].
Qed.

Lemma extends_front_insert_append (p : Point D) : steps (@extends D) (front_insert_append p).
Proof. unfold front_insert_append. cbv zeta. extends_go. Qed.

Lemma extends_front_insert (p : Point D) : steps (@extends D) (front_insert p).
Proof.
  unfold front_insert. apply steps_bind; [apply _ | extends_go |]. intros [r|].
  - apply steps_bind; [apply _ | extends_go |]. intros n.
    apply steps_bind; [apply _ | apply extends_front_insert_scan |].
    intros []; [extends_go | apply extends_front_insert_append].
  - extends_go.
Qed.

Lemma extends_process_point : steps (@extends D) (@process_point D _).
Proof.
  unfold process_point. pose proof extends_front_insert as Hf. extends_go; apply Hf.
Qed.

Lemma extends_compute_step : steps (@extends D) (@compute_step D _).
Proof.
  unfold compute_step.
  pose proof extends_process_point as Hp. pose proof extends_process_event as He.
  apply steps_bind; [apply _ | extends_go |]. intros es.
  apply steps_bind; [apply _ | |].
  - destruct (negb _); extends_go.
  - intros []; [apply He | apply Hp].
Qed.

Lemma extends_compute_sites (fuel : nat) : steps (@extends D) (@compute_sites D _ fuel).
Proof.
  induction fuel as [|fuel IH]; cbn [compute_sites];
    (apply steps_bind; [apply _ | extends_go |]); intros [|p ps]; extends_go.
  - apply extends_compute_step.
  - apply IH.
Qed.

Lemma extends_compute_events (fuel : nat) : steps (@extends D) (@compute_events D _ fuel).
Proof.
  induction fuel as [|fuel IH]; cbn [compute_events];
    (apply steps_bind; [apply _ | extends_go |]); intros [|p ps]; extends_go.
  - apply extends_process_event.
  - apply IH.
Qed.

Lemma extends_finish_edges_loop (fuel : nat) (l : D) (i : ArcPtr) :
  steps (@extends D) (finish_edges_loop fuel l i).
Proof.
  revert i. induction fuel as [|fuel IH]; intros i; cbn [finish_edges_loop];
    (apply steps_bind; [apply _ | extends_go |]); intros [m|]; extends_go.
  apply IH.
Qed.

Lemma extends_finish_edges : steps (@extends D) (@finish_edges D _).
Proof.
  unfold finish_edges. pose proof extends_finish_edges_loop as Hl. extends_go; apply Hl.
Qed.

Lemma extends_compute (fuel : nat) : steps (@extends D) (compute fuel).
Proof.
  unfold compute.
  apply steps_bind; [apply _ | apply extends_compute_margins | intros _].
  apply steps_bind; [apply _ | apply extends_compute_sites | intros _].
  apply steps_bind; [apply _ | apply extends_compute_events | intros _].
  apply extends_finish_edges.
Qed.

Lemma extends_unchanged_since (s s' : FA) : extends s s' -> unchanged_since s s'.
Proof.
  intros (Ha & He & Hg & Ho). split_and!; [| | exact Hg | exact Ho].
  - intros n a a' Hn Hn'. destruct (Ha n a Hn) as (a'' & Hn'' & Hp). congruence.
  - intros n ev ev' Hn Hn'. destruct (He n ev Hn) as (ev'' & Hn'' & Hev).
    assert (ev'' = ev') as -> by congruence. exact Hev.
Qed.

(** Whatever [compute] does, it does not undo.  When it returns: an arc
    that is still there has the site it had; an event that is still there
    has the trigger, the centre and the arc it had, and is valid only if
    it was; every segment is still there with the start it had, and as it
    was if it was done; the output has only grown at its end. *)
Theorem compute_undoes_nothing (fuel : nat) (s s' : FA) :
  compute fuel s = Ok (tt, s') -> unchanged_since s s'.
Proof. intros Hrun. apply extends_unchanged_since. exact (extends_compute fuel s tt s' Hrun). Qed.

End ExtendsFacts.

(** A second [compute] after one more site: eight arcs, four events, one
    of them invalid, and ten done segments are there before; two arcs, an
    event and three segments are added. *)
Lemma compute_undoes_nothing_witness :
  length (arc_heap second_input) = 8%nat
  /\ (ev_valid <$> event_heap second_input) = [true; false; true; true]
  /\ (seg_done <$> segment_heap second_input) = replicate 10 true
  /\ length (arc_heap second_output) = 10%nat
  /\ length (event_heap second_output) = 5%nat
  /\ length (segment_heap second_output) = 13%nat
  /\ unchanged_since second_input second_output.
Proof.
  split_and!; try (vm_compute; reflexivity).
  apply (compute_undoes_nothing 20). vm_compute. reflexivity.
Defined.

(** ** [get_segments]: the segments in the order of their creation *)

Section OutputFacts.

Context {D : Type} `{Double D}.
Local Open Scope double_scope.
Local Open Scope fa_scope.

Local Abbreviation FA := (FortuneAlgorithm D).

#[export] Instance same_output_preorder : PreOrder (@same_output D).
Proof.
  split.
  - by intros s.
  - intros s1 s2 s3 [L1 O1] [L2 O2]. split; congruence.
Qed.

Lemma same_output_complete (s s' : FA) :
  same_output s s' -> output_complete s -> output_complete s'.
Proof. intros [L O]. unfold output_complete. by rewrite L, O. Qed.

Lemma steps_preserves_complete {A : Type} (m : M D A) :
  steps (@same_output D) m -> preserves output_complete m.
Proof. intros Hm s a s' Hs Hrun. eapply same_output_complete; [by eapply Hm | done]. Qed.

(** *** Statements that leave the segments and the output alone *)

Lemma same_output_update_arc (i : ArcPtr) (f : Arc D -> Arc D) :
  steps (@same_output D) (update_arc i f).
Proof.
  intros s u s' (a & s1 & Hl & Hm)%bind_Ok_inv. apply readonly_load in Hl as ->.
  unfold modify in Hm. by simplify_eq.
Qed.

Lemma same_output_update_event (e : EventPtr) (f : Event D -> Event D) :
  steps (@same_output D) (update_event e f).
Proof.
  intros s u s' (a & s1 & Hl & Hm)%bind_Ok_inv. apply readonly_load in Hl as ->.
  unfold modify in Hm. by simplify_eq.
Qed.

Lemma same_output_update_segment (g : SegmentPtr) (f : Segment D -> Segment D) :
  steps (@same_output D) (update_segment g f).
Proof.
  intros s u s' (a & s1 & Hl & Hm)%bind_Ok_inv. apply readonly_load in Hl as ->.
  unfold modify in Hm. simplify_eq. split; [| done]. cbn. apply length_alter.
Qed.

Lemma same_output_new_arc (a : Arc D) : steps (@same_output D) (new_arc a).
Proof. intros s c s' Hr. unfold new_arc in Hr. by simplify_eq. Qed.

Lemma same_output_new_event (e : Event D) : steps (@same_output D) (new_event e).
Proof. intros s c s' Hr. unfold new_event in Hr. by simplify_eq. Qed.

Lemma same_output_events_push (e : EventPtr) : steps (@same_output D) (events_push e).
Proof. by apply steps_modify. Qed.

Lemma same_output_points_push (p : Point D) : steps (@same_output D) (points_push p).
Proof. by apply steps_modify. Qed.

Lemma same_output_set_box (f : FA -> D * D * D * D) :
  steps (@same_output D)
    (modify (fun s => set_box (f s).1.1.1 (f s).1.1.2 (f s).1.2 (f s).2 s)).
Proof. by apply steps_modify. Qed.

Lemma same_output_events_pop : steps (@same_output D) (@events_pop D).
Proof.
  intros s u s'. unfold events_pop. destruct (pq_pop _ _) as [[e q]|]; [| done].
  intros Hr. by simplify_eq.
Qed.

Lemma same_output_events_top : steps (@same_output D) (@events_top D).
Proof.
  intros s u s'. unfold events_top. destruct (pq_pop _ _) as [[e q]|]; [| done].
  intros Hr. by simplify_eq.
Qed.

Lemma same_output_points_pop : steps (@same_output D) (@points_pop D _).
Proof.
  intros s u s'. unfold points_pop. destruct (pq_pop _ _) as [[e q]|]; [| done].
  intros Hr. by simplify_eq.
Qed.

Lemma same_output_points_top : steps (@same_output D) (@points_top D _).
Proof.
  intros s u s'. unfold points_top. destruct (pq_pop _ _) as [[e q]|]; [| done].
  intros Hr. by simplify_eq.
Qed.

Lemma same_output_set_root (c : ArcPtr) : steps (@same_output D) (modify (set_root (D:=D) c)).
Proof. by apply steps_modify. Qed.

Lemma same_output_compute_margins : steps (@same_output D) (@compute_margins D _).
Proof.
  intros s u s' Hr. unfold compute_margins, bind, gets, modify in Hr. by simplify_eq.
Qed.

Lemma same_output_add_point (p : Point D) : steps (@same_output D) (add_point p).
Proof. intros s u s' Hr. rewrite add_point_run in Hr. simplify_eq. by destruct (_ =? 1)%nat. Qed.

Ltac same_output_step :=
  first
    [ apply steps_ret; apply _
    | apply same_output_new_arc | apply same_output_new_event
    | apply same_output_events_push
    | apply same_output_events_pop | apply same_output_events_top
    | apply same_output_points_pop | apply same_output_points_top
    | apply same_output_set_root
    | apply same_output_update_arc | apply same_output_update_event
    | apply same_output_update_segment
    | apply steps_out_of_fuel
    | apply steps_readonly;
      [ apply _
      | first [ apply readonly_ret | apply readonly_gets | apply readonly_intersect
              | apply readonly_p_of | apply readonly_prev_of | apply readonly_next_of
              | apply readonly_left_of | apply readonly_right_of | apply readonly_last_arc
              | apply readonly_load
              | apply readonly_bind; [apply readonly_load | intros; apply readonly_ret] ] ] ].

Ltac same_output_go :=
  repeat first
    [ same_output_step
    | match goal with
      | |- steps _ (bind _ _) => apply steps_bind; [apply _ | | intros ?]
      | |- steps _ (match ?c with Some _ => _ | None => _ end) => destruct c
      | |- steps _ (match ?c with (_, _) => _ end) => destruct c
      | |- steps _ (if ?c then _ else _) => destruct c
      end ].

Lemma same_output_check_circle_event (i : ArcPtr) (x0 : D) :
  steps (@same_output D) (check_circle_event i x0).
Proof. unfold check_circle_event. same_output_go. Qed.

(** *** Reading back what has just been stored in an arc *)

Lemma update_arc_inv (i : ArcPtr) (f : Arc D -> Arc D) (s s' : FA) (u : unit) :
  update_arc i f s = Ok (u, s') ->
  exists n a, i = Some n /\ arc_heap s !! n = Some a
    /\ s' = set_arc_heap (alter f n (arc_heap s)) s.
Proof.
  intros (a & s1 & (-> & n & -> & Hn)%load_arc_inv & Hm)%bind_Ok_inv.
  unfold modify in Hm. simplify_eq. by exists n, a.
Qed.

Lemma left_of_inv (i : ArcPtr) (l : SegmentPtr) (s s' : FA) :
  left_of i s = Ok (l, s') ->
  s' = s /\ exists n a, i = Some n /\ arc_heap s !! n = Some a /\ l = left_segment a.
Proof.
  intros (a & s1 & (-> & n & -> & Hn)%load_arc_inv & Hm)%bind_Ok_inv.
  unfold ret in Hm. simplify_eq. split; [done | by exists n, a].
Qed.

Lemma right_of_inv (i : ArcPtr) (r : SegmentPtr) (s s' : FA) :
  right_of i s = Ok (r, s') ->
  s' = s /\ exists n a, i = Some n /\ arc_heap s !! n = Some a /\ r = right_segment a.
Proof.
  intros (a & s1 & (-> & n & -> & Hn)%load_arc_inv & Hm)%bind_Ok_inv.
  unfold ret in Hm. simplify_eq. split; [done | by exists n, a].
Qed.

(** After [i->left_segment = g; j->right_segment = v;] the arc [i] still
    has [g] on its left, whether or not [i] and [j] are one arc. *)
Lemma left_after_right (h : list (Arc D)) (n m : nat) (g v : SegmentPtr) (a : Arc D) :
  alter (with_right_segment v) m (alter (with_left_segment g) n h) !! n = Some a ->
  left_segment a = g.
Proof.
  rewrite list_lookup_alter. destruct (decide (m = n)) as [->|].
  - rewrite list_lookup_alter. rewrite decide_True by done.
    destruct (h !! n); cbn; [| done]. by intros [= <-].
  - rewrite list_lookup_alter. rewrite decide_True by done.
    destruct (h !! n); cbn; [| done]. by intros [= <-].
Qed.

Lemma right_after_left (h : list (Arc D)) (n m : nat) (g v : SegmentPtr) (a : Arc D) :
  alter (with_left_segment v) m (alter (with_right_segment g) n h) !! n = Some a ->
  right_segment a = g.
Proof.
  rewrite list_lookup_alter. destruct (decide (m = n)) as [->|].
  - rewrite list_lookup_alter. rewrite decide_True by done.
    destruct (h !! n); cbn; [| done]. by intros [= <-].
  - rewrite list_lookup_alter. rewrite decide_True by done.
    destruct (h !! n); cbn; [| done]. by intros [= <-].
Qed.

(** One more segment, recorded at once. *)
Lemma output_complete_snoc (s : FA) (g : Segment D) (h : list (Arc D)) :
  output_complete s ->
  output_complete
    (set_output_segments (output_segments s ++ [Some (length (segment_heap s))])
       (set_arc_heap h (set_segment_heap (segment_heap s ++ [g]) s))).
Proof.
  unfold output_complete. cbn. intros ->.
  rewrite length_app. cbn. rewrite Nat.add_1_r, seq_S, fmap_app. done.
Qed.

(** *** The four places where a segment is created *)

(** [process_event]: the segment is created and recorded in one
    statement. *)
Lemma push_new_segment {A : Type} (g : Segment D) (k : SegmentPtr -> M D A) :
  (forall c, preserves output_complete (k c)) ->
  preserves output_complete (let* c := new_segment g in output_push c ;; k c).
Proof.
  intros Hk s a s' Hs (c & s1 & Hnew & (u & s2 & Hpush & Hrest)%bind_Ok_inv)%bind_Ok_inv.
  eapply Hk; [| done].
  unfold new_segment in Hnew. unfold output_push, modify in Hpush. simplify_eq.
  pose proof (output_complete_snoc s g (arc_heap s) Hs) as Hc.
  by destruct s.
Qed.

(** [front_insert]: [i->prev->right_segment = i->left_segment = new
    Segment (z); output_segments.push_back (i->left_segment);] *)
Lemma push_left_segment {A : Type} (g : Segment D) (i : ArcPtr) (k : M D A) :
  preserves output_complete k ->
  preserves output_complete
    (let* c := new_segment g in
     update_arc i (with_left_segment c) ;;
     let* l := left_of i in
     let* iprev := prev_of i in
     update_arc iprev (with_right_segment l) ;;
     let* l := left_of i in
     output_push l ;;
     k).
Proof.
  intros Hk s a s' Hs Hrun.
  apply bind_Ok_inv in Hrun as (c & s1 & Hnew & Hrun).
  apply bind_Ok_inv in Hrun as (u1 & s2 & Hup1 & Hrun).
  apply bind_Ok_inv in Hrun as (l & s3 & Hl & Hrun).
  apply bind_Ok_inv in Hrun as (iprev & s4 & Hprev & Hrun).
  apply bind_Ok_inv in Hrun as (u2 & s5 & Hup2 & Hrun).
  apply bind_Ok_inv in Hrun as (l' & s6 & Hl' & Hrun).
  apply bind_Ok_inv in Hrun as (u3 & s7 & Hpush & Hrun).
  eapply Hk; [| done].
  unfold new_segment in Hnew. simplify_eq.
  apply update_arc_inv in Hup1 as (n & b & -> & Hn & ->).
  apply left_of_inv in Hl as (-> & n1 & b1 & ? & Hn1 & ->). simplify_eq.
  apply readonly_prev_of in Hprev as ->.
  apply update_arc_inv in Hup2 as (m & b2 & -> & Hm & ->).
  apply left_of_inv in Hl' as (-> & n2 & b3 & ? & Hn2 & ->). simplify_eq.
  cbn [arc_heap set_arc_heap set_segment_heap] in Hn2.
  unfold output_push, modify in Hpush. simplify_eq.
  apply left_after_right in Hn2. cbn [output_segments set_arc_heap set_segment_heap].
  rewrite Hn2.
  exact (output_complete_snoc s g _ Hs).
Qed.

(** [front_insert]: [i->next->left_segment = i->right_segment = new
    Segment (z); output_segments.push_back (i->right_segment);] *)
Lemma push_right_segment {A : Type} (g : Segment D) (i : ArcPtr) (k : M D A) :
  preserves output_complete k ->
  preserves output_complete
    (let* c := new_segment g in
     update_arc i (with_right_segment c) ;;
     let* r := right_of i in
     let* inext := next_of i in
     update_arc inext (with_left_segment r) ;;
     let* r := right_of i in
     output_push r ;;
     k).
Proof.
  intros Hk s a s' Hs Hrun.
  apply bind_Ok_inv in Hrun as (c & s1 & Hnew & Hrun).
  apply bind_Ok_inv in Hrun as (u1 & s2 & Hup1 & Hrun).
  apply bind_Ok_inv in Hrun as (l & s3 & Hl & Hrun).
  apply bind_Ok_inv in Hrun as (iprev & s4 & Hprev & Hrun).
  apply bind_Ok_inv in Hrun as (u2 & s5 & Hup2 & Hrun).
  apply bind_Ok_inv in Hrun as (l' & s6 & Hl' & Hrun).
  apply bind_Ok_inv in Hrun as (u3 & s7 & Hpush & Hrun).
  eapply Hk; [| done].
  unfold new_segment in Hnew. simplify_eq.
  apply update_arc_inv in Hup1 as (n & b & -> & Hn & ->).
  apply right_of_inv in Hl as (-> & n1 & b1 & ? & Hn1 & ->). simplify_eq.
  apply readonly_next_of in Hprev as ->.
  apply update_arc_inv in Hup2 as (m & b2 & -> & Hm & ->).
  apply right_of_inv in Hl' as (-> & n2 & b3 & ? & Hn2 & ->). simplify_eq.
  cbn [arc_heap set_arc_heap set_segment_heap] in Hn2.
  unfold output_push, modify in Hpush. simplify_eq.
  apply right_after_left in Hn2. cbn [output_segments set_arc_heap set_segment_heap].
  rewrite Hn2.
  exact (output_complete_snoc s g _ Hs).
Qed.

(** The special case of [front_insert]: [i->right_segment =
    i->next->left_segment = new Segment (start);
    output_segments.push_back (i->right_segment);] *)
Lemma push_shared_segment (g : Segment D) (i : ArcPtr) :
  preserves output_complete
    (let* c := new_segment g in
     let* inext := next_of i in
     update_arc inext (with_left_segment c) ;;
     let* l := left_of inext in
     update_arc i (with_right_segment l) ;;
     let* r := right_of i in
     output_push r).
Proof.
  intros s a s' Hs Hrun.
  apply bind_Ok_inv in Hrun as (c & s1 & Hnew & Hrun).
  apply bind_Ok_inv in Hrun as (inext & s2 & Hnext & Hrun).
  apply bind_Ok_inv in Hrun as (u1 & s3 & Hup1 & Hrun).
  apply bind_Ok_inv in Hrun as (l & s4 & Hl & Hrun).
  apply bind_Ok_inv in Hrun as (u2 & s5 & Hup2 & Hrun).
  apply bind_Ok_inv in Hrun as (r & s6 & Hr & Hpush).
  unfold new_segment in Hnew. simplify_eq.
  apply readonly_next_of in Hnext as ->.
  apply update_arc_inv in Hup1 as (n & b & -> & Hn & ->).
  apply left_of_inv in Hl as (-> & n1 & b1 & ? & Hn1 & ->). simplify_eq.
  cbn [arc_heap set_arc_heap set_segment_heap] in Hn, Hn1.
  rewrite list_lookup_alter, decide_True in Hn1 by done.
  rewrite Hn in Hn1. cbn in Hn1. simplify_eq. cbn [left_segment with_left_segment] in *.
  apply update_arc_inv in Hup2 as (m & b2 & -> & Hm & ->).
  apply right_of_inv in Hr as (-> & n2 & b3 & ? & Hn2 & ->). simplify_eq.
  cbn [arc_heap set_arc_heap set_segment_heap] in Hn2.
  rewrite list_lookup_alter, decide_True in Hn2 by done.
  destruct (_ !! n2) as [b4|]; cbn in Hn2; [| done]. simplify_eq.
  cbn [right_segment with_right_segment].
  unfold output_push, modify in Hpush. simplify_eq.
  exact (output_complete_snoc s g _ Hs).
Qed.

Ltac complete_go :=
  repeat first
    [ apply preserves_ret
    | apply push_new_segment; intros ?
    | apply push_left_segment
    | apply push_right_segment
    | apply push_shared_segment
    | apply steps_preserves_complete; first [apply same_output_check_circle_event | same_output_step]
    | match goal with
      | |- preserves _ (bind _ _) => apply preserves_bind; [| intros ?]
      | |- preserves _ (match ?c with Some _ => _ | None => _ end) => destruct c
      | |- preserves _ (if ?c then _ else _) => destruct c
      end ].

Lemma process_event_fire_complete (ev : Event D) :
  preserves output_complete (process_event_fire ev).
Proof. unfold process_event_fire, finish_at. cbv zeta. complete_go. Qed.

Lemma process_event_complete : preserves output_complete (@process_event D _).
Proof.
  unfold process_event. complete_go.
Qed.

Lemma front_insert_split_complete (p : Point D) (i : ArcPtr) (z : Point D) :
  preserves output_complete (front_insert_split p i z).
Proof. unfold front_insert_split. complete_go. Qed.

Lemma front_insert_scan_complete (fuel : nat) (p : Point D) (i : ArcPtr) :
  preserves output_complete (front_insert_scan fuel p i).
Proof.
  revert i. induction fuel as [|fuel IH]; intros [n|]; cbn [front_insert_scan];
    try apply preserves_ret.
  - by intros s a s'.
  - apply preserves_bind; [complete_go |]. intros [z|].
    + apply preserves_bind; [apply front_insert_split_complete | intros; apply preserves_ret].
    + apply preserves_bind; [complete_go | intros; apply IH].
Qed.

Lemma front_insert_append_complete (p : Point D) :
  preserves output_complete (front_insert_append p).
Proof. unfold front_insert_append. cbv zeta. complete_go. Qed.

Lemma front_insert_complete (p : Point D) : preserves output_complete (front_insert p).
Proof.
  unfold front_insert. apply preserves_bind; [complete_go |]. intros [r|].
  - apply preserves_bind; [complete_go |]. intros n.
    apply preserves_bind; [apply front_insert_scan_complete |].
    intros []; [apply preserves_ret | apply front_insert_append_complete].
  - complete_go.
Qed.

Lemma process_point_complete : preserves output_complete (@process_point D _).
Proof.
  unfold process_point. pose proof front_insert_complete as Hf. complete_go. apply Hf.
Qed.

Lemma compute_step_complete : preserves output_complete (@compute_step D _).
Proof.
  unfold compute_step.
  apply preserves_bind; [complete_go |]. intros es.
  apply preserves_bind.
  - destruct (negb _); complete_go.
  - intros []; [apply process_event_complete | apply process_point_complete].
Qed.

Lemma compute_sites_complete (fuel : nat) :
  preserves output_complete (@compute_sites D _ fuel).
Proof.
  induction fuel as [|fuel IH]; cbn [compute_sites];
    (apply preserves_bind; [complete_go |]); intros [|p ps]; try apply preserves_ret.
  - by intros s a s'.
  - apply preserves_bind; [apply compute_step_complete | intros; apply IH].
Qed.

Lemma compute_events_complete (fuel : nat) :
  preserves output_complete (@compute_events D _ fuel).
Proof.
  induction fuel as [|fuel IH]; cbn [compute_events];
    (apply preserves_bind; [complete_go |]); intros [|p ps]; try apply preserves_ret.
  - by intros s a s'.
  - apply preserves_bind; [apply process_event_complete | intros; apply IH].
Qed.

Lemma finish_edges_loop_complete (fuel : nat) (l : D) (i : ArcPtr) :
  preserves output_complete (finish_edges_loop fuel l i).
Proof.
  revert i. induction fuel as [|fuel IH]; intros i; cbn [finish_edges_loop];
    (apply preserves_bind; [complete_go |]); intros [m|]; try apply preserves_ret.
  - by intros s a s'.
  - unfold finish_at. complete_go. apply IH.
Qed.

Lemma finish_edges_complete : preserves output_complete (@finish_edges D _).
Proof.
  unfold finish_edges. pose proof finish_edges_loop_complete as Hl. complete_go. apply Hl.
Qed.

Lemma compute_complete (fuel : nat) : preserves output_complete (compute fuel).
Proof.
  unfold compute.
  apply preserves_bind;
    [apply steps_preserves_complete, same_output_compute_margins | intros _].
  apply preserves_bind; [apply compute_sites_complete | intros _].
  apply preserves_bind; [apply compute_events_complete | intros _].
  apply finish_edges_complete.
Qed.

Lemma add_points_complete (ps : list (Point D)) : preserves output_complete (add_points ps).
Proof.
  induction ps as [|p ps IH]; cbn [add_points]; [apply preserves_ret |].
  apply preserves_bind; [| intros; apply IH].
  apply steps_preserves_complete, same_output_add_point.
Qed.

(** When the driver returns, [get_segments ()] is the list of the segments
    that were created, each one once, in the order of creation; none of
    its entries is null or dangling. *)
Theorem get_segments_creation_order (fuel : nat) (ps : list (Point D)) (s : FA) :
  run fuel ps = Ok (tt, s) ->
  get_segments s = Some <$> seq 0 (length (segment_heap s)).
Proof.
  unfold run. intros (u & s1 & Hadd & Hrun)%bind_Ok_inv.
  eapply compute_complete; [| done].
  eapply add_points_complete; [| done].
  reflexivity.
Qed.

End OutputFacts.

(** The run of [main.cpp]: twelve segments. *)
Lemma get_segments_creation_order_witness :
  get_segments main_output = Some <$> seq 0 12.
Proof.
  apply (get_segments_creation_order 20 main_sites main_output). vm_compute. reflexivity.
Defined.

(** ** [finish_edges] on a well-formed beachline *)

Section FinishEdgesFacts.

Context {D : Type} `{Double D}.
Local Open Scope double_scope.
Local Open Scope fa_scope.

Local Abbreviation FA := (FortuneAlgorithm D).

Lemma set_segment_heap_same (s : FA) : set_segment_heap (segment_heap s) s = s.
Proof. by destruct s. Qed.

Lemma finish_seg_done (g : Segment D) (p : Point D) : seg_done (finish g p) = true.
Proof. unfold finish. by destruct (seg_done g) eqn:E. Qed.

Lemma finish_at_Some (j : nat) (g : Segment D) (p : Point D) (s : FA) :
  segment_heap s !! j = Some g ->
  finish_at (Some j) p s = Ok (tt, set_segment_heap (<[j := finish g p]> (segment_heap s)) s).
Proof.
  intros Hj. unfold finish_at.
  rewrite (update_segment_Some _ _ _ _ Hj). done.
Qed.

(** The loop of [finish_edges], started on an arc from which [next] leads
    to the end of the beachline through the arcs [l]: it returns; only the
    segments have changed; a segment that was done is as it was; the
    right segment of every arc of [l] that has a successor is done. *)
Lemma finish_edges_loop_chain (lim : D) (s : FA) (n : nat) (l : list nat) :
  chain s n l ->
  forall (t : FA) (fuel : nat),
    arc_heap t = arc_heap s ->
    length l <= S fuel ->
    (forall m a j, m ∈ l -> arc_heap s !! m = Some a -> arc_next a <> None ->
       right_segment a = Some j -> j < length (segment_heap t)) ->
    exists h,
      finish_edges_loop fuel lim (Some n) t = Ok (tt, set_segment_heap h t)
      /\ length h = length (segment_heap t)
      /\ (forall j g, segment_heap t !! j = Some g -> seg_done g = true -> h !! j = Some g)
      /\ (forall m a j, m ∈ l -> arc_heap s !! m = Some a -> arc_next a <> None ->
            right_segment a = Some j -> exists g, h !! j = Some g /\ seg_done g = true).
Proof.
  induction 1 as [n a Hn Hx | n m a l Hn Hx Hc IH]; intros t fuel Harcs Hfuel Hlive.
  - exists (segment_heap t). rewrite set_segment_heap_same.
    assert (Hnt : arc_heap t !! n = Some a) by congruence.
    split; [| split; [done | split; [done |]]].
    + destruct fuel; cbn [finish_edges_loop];
        rewrite (bind_Ok _ _ _ _ _ (next_of_Some _ _ _ Hnt)); by rewrite Hx.
    + intros k b j ->%list_elem_of_singleton Hk Hb. congruence.
  - assert (Hnt : arc_heap t !! n = Some a) by congruence.
    destruct (chain_head _ _ _ Hc) as [l' ->].
    destruct fuel as [|fuel]; [cbn in Hfuel; lia |].
    destruct (chain_live _ _ _ Hc m) as [b Hm]; [by left |].
    assert (Hmt : arc_heap t !! m = Some b) by congruence.
    (* the state after the body of the loop *)
    assert (Hbody : exists h1,
      (if right_segment a is Some _ then
         let* ip := p_of (Some n) in
         let* np := p_of (Some m) in
         finish_at (right_segment a) (intersection ip np (lim * d2))
       else ret tt) t = Ok (tt, set_segment_heap h1 t)
      /\ length h1 = length (segment_heap t)
      /\ (forall j g, segment_heap t !! j = Some g -> seg_done g = true -> h1 !! j = Some g)
      /\ (forall j, right_segment a = Some j ->
            exists g, h1 !! j = Some g /\ seg_done g = true)).
    { destruct (right_segment a) as [j|] eqn:Hr.
      - assert (Hj : j < length (segment_heap t)).
        { apply (Hlive n a j); [by left | done | congruence | done]. }
        apply lookup_lt_is_Some in Hj as [g Hj].
        rewrite (bind_Ok _ _ _ _ _ (p_of_Some _ _ _ Hnt)).
        rewrite (bind_Ok _ _ _ _ _ (p_of_Some _ _ _ Hmt)).
        eexists. split; [by apply finish_at_Some |].
        split; [by rewrite length_insert |]. split.
        + intros k gk Hk Hd. destruct (decide (j = k)) as [->|].
          * rewrite list_lookup_insert_eq by (by eapply lookup_lt_Some).
            simplify_eq. by rewrite finish_done_noop.
          * by rewrite list_lookup_insert_ne.
        + intros ? [= <-]. exists (finish g (intersection (arc_p a) (arc_p b) (lim * d2))).
          split; [| apply finish_seg_done].
          apply list_lookup_insert_eq. by eapply lookup_lt_Some.
      - exists (segment_heap t). rewrite set_segment_heap_same. by repeat split. }
    destruct Hbody as (h1 & Hrun1 & Hlen1 & Hkeep1 & Hdone1).
    set (t1 := set_segment_heap h1 t) in *.
    destruct (IH t1 fuel) as (h & Hrun & Hlen & Hkeep & Hdone).
    { done. }
    { cbn in Hfuel |- *. lia. }
    { intros k c j Hk Hkc Hcn Hcr. cbn [t1 segment_heap set_segment_heap]. rewrite Hlen1.
      apply (Hlive k c j); [by right | done..]. }
    exists h. split; [| split; [| split]].
    + cbn [finish_edges_loop].
      rewrite (bind_Ok _ _ _ _ _ (next_of_Some _ _ _ Hnt)). rewrite Hx.
      rewrite (bind_Ok _ _ _ _ _ (right_of_Some _ _ _ Hnt)).
      rewrite (bind_Ok _ _ _ _ _ Hrun1).
      assert (Hnt1 : arc_heap t1 !! n = Some a) by done.
      rewrite (bind_Ok _ _ _ _ _ (next_of_Some _ _ _ Hnt1)). rewrite Hx.
      rewrite Hrun. done.
    + by rewrite Hlen.
    + intros j g Hj Hd. apply Hkeep; [| done]. by apply Hkeep1.
    + intros k c j [->|Hk]%elem_of_cons Hkc Hcn Hcr.
      * simplify_eq. destruct (Hdone1 j Hcr) as (g & Hg & Hd).
        exists g. split; [| done]. by apply Hkeep.
      * by apply (Hdone k c j).
Qed.

(** On a beachline that leads from [root] through the arcs [l] to a null
    [next], where the right segments of the arcs are live, [finish_edges]
    returns; it has changed nothing but segments; a segment that was done
    is as it was; and the right segment of every arc that has a successor
    is done. *)
Theorem finish_edges_finishes (s : FA) (r : nat) (l : list nat) :
  root s = Some r ->
  chain s r l ->
  (forall m a j, m ∈ l -> arc_heap s !! m = Some a -> arc_next a <> None ->
     right_segment a = Some j -> j < length (segment_heap s)) ->
  exists h,
    finish_edges s = Ok (tt, set_segment_heap h s)
    /\ length h = length (segment_heap s)
    /\ (forall j g, segment_heap s !! j = Some g -> seg_done g = true -> h !! j = Some g)
    /\ (forall m a j, m ∈ l -> arc_heap s !! m = Some a -> arc_next a <> None ->
          right_segment a = Some j -> exists g, h !! j = Some g /\ seg_done g = true).
Proof.
  intros Hr Hc Hlive.
  destruct (finish_edges_loop_chain
              (x_max s + (x_max s - x_min s) + (y_max s - y_min s)) s r l Hc
              s (length (arc_heap s))) as (h & Hrun & Hrest); [done | | done |].
  { pose proof (chain_length _ _ _ Hc). lia. }
  exists h. split; [| done].
  unfold finish_edges, bind, gets. by rewrite Hr.
Qed.

End FinishEdgesFacts.

(** The beachline of [main.cpp] once the last site has been inserted:
    seven arcs, ten segments. *)
Lemma finish_edges_finishes_witness :
  exists h, finish_edges main_state7 = Ok (tt, set_segment_heap h main_state7)
    /\ length h = 10.
Proof.
  destruct (finish_edges_finishes main_state7 0 [0; 2; 4; 8; 7; 6; 5])
    as (h & Hrun & Hlen & _).
  - reflexivity.
  - repeat (eapply chain_next; [vm_compute; reflexivity | reflexivity |]).
    eapply chain_last; [vm_compute; reflexivity | reflexivity].
  - intros m a j Hm Ha _ Hr. apply Nat.ltb_lt.
    repeat (apply elem_of_cons in Hm as [->|Hm];
            [vm_compute in Ha; injection Ha as <-; cbn in Hr;
             first [discriminate Hr | injection Hr as <-; vm_compute; reflexivity] |]).
    by apply elem_of_nil in Hm.
  - exists h. split; [exact Hrun | exact Hlen].
Defined.

(** ** [locate_cell] *)

Section LocateCellFacts.

Context {D : Type} `{Double D} `{DoubleLimits D}.
Local Open Scope double_scope.
Local Open Scope fa_scope.

Local Abbreviation FA := (FortuneAlgorithm D).

(** [locate_cell] is a [const] member: it leaves the object as it was. *)
Lemma readonly_locate_cell_sites (fuel : nat) (arc : ArcPtr) (sites : list (Point D)) :
  readonly D (locate_cell_sites fuel arc sites).
Proof.
  revert arc sites. induction fuel as [|fuel IH]; intros [n|] sites; cbn [locate_cell_sites];
    try apply readonly_ret.
  - by intros s a s'.
  - apply readonly_bind; [apply readonly_p_of | intros p].
    apply readonly_bind; [apply readonly_next_of | intros anext]. apply IH.
Qed.

Lemma readonly_locate_cell (q : Point D) : readonly D (locate_cell q).
Proof.
  unfold locate_cell.
  apply readonly_bind; [apply readonly_gets | intros r].
  apply readonly_bind; [apply readonly_gets | intros n].
  apply readonly_bind; [apply readonly_locate_cell_sites | intros sites].
  apply readonly_ret.
Qed.

(** The first loop collects the sites of the arcs that [next] leads
    through. *)
Lemma locate_cell_sites_chain (s : FA) (n : nat) (l : list nat) :
  chain s n l ->
  forall (fuel : nat) (sites : list (Point D)),
    length l <= fuel ->
    locate_cell_sites fuel (Some n) sites s = Ok (sites ++ sites_of s l, s).
Proof.
  induction 1 as [n a Hn Hx | n m a l Hn Hx Hc IH]; intros fuel sites Hfuel;
    (destruct fuel as [|fuel]; [cbn in Hfuel; lia |]); cbn [locate_cell_sites];
    rewrite (bind_Ok _ _ _ _ _ (p_of_Some _ _ _ Hn));
    rewrite (bind_Ok _ _ _ _ _ (next_of_Some _ _ _ Hn)); rewrite Hx.
  - unfold sites_of. cbn [omap list_omap]. rewrite Hn. cbn. by destruct fuel.
  - rewrite IH by (cbn in Hfuel; lia).
    unfold sites_of. cbn [omap list_omap]. rewrite Hn. cbn. by rewrite <- app_assoc.
Qed.

(** On a beachline that leads from [root] through the arcs [l] to a null
    [next], [locate_cell (q)] returns, changes nothing, and its answer is
    that of the second loop on the sites of [l]: a position on the
    beachline, not a position in the input. *)
Theorem locate_cell_chain (q : Point D) (s : FA) (r : nat) (l : list nat) :
  root s = Some r ->
  chain s r l ->
  locate_cell q s = Ok (locate_cell_closest q (sites_of s l), s).
Proof.
  intros Hr Hc. unfold locate_cell. unfold bind at 1, gets at 1. rewrite Hr.
  unfold bind at 1, gets at 1.
  rewrite (bind_Ok _ _ _ _ _ (locate_cell_sites_chain s r l Hc _ [] (chain_length _ _ _ Hc))).
  done.
Qed.

End LocateCellFacts.

(** The beachline that [compute] leaves for [main.cpp], and the query point
    (250, 250), which is the fifth site of the input: the answer is the
    position 0. *)
Lemma locate_cell_chain_witness :
  locate_cell (mkPoint 250%float 250%float) main_output = Ok (0%Z, main_output).
Proof.
  etransitivity.
  - apply (locate_cell_chain _ main_output 0 [0; 2; 8; 6; 5]); [reflexivity |].
    repeat (eapply chain_next; [vm_compute; reflexivity | reflexivity |]).
    eapply chain_last; [vm_compute; reflexivity | reflexivity].
  - vm_compute. reflexivity.
Defined.

Section LocateCellExact.

Context `{DoubleLimits R}.
Local Open Scope R_scope.

(** The distance that the second loop computes. *)
Local Abbreviation dist q p := (dhypot (dsub (px q) (px p)) (dsub (py q) (py p))).

(** The state of the second loop once the positions below [n] have been
    visited. *)
Local Abbreviation visited q sites n :=
  (foldl (locate_cell_visit q sites) ((-1)%Z, dbl_max) (seq 0 n)).

Lemma locate_cell_visited (q : Point R) (sites : list (Point R)) (n : nat) :
  (n <= length sites)%nat ->
  ((visited q sites n).1 = (-1)%Z /\ (visited q sites n).2 = dbl_max
   /\ forall j sj, (j < n)%nat -> sites !! j = Some sj -> dbl_max <= dist q sj)
  \/ (exists i si, (i < n)%nat /\ sites !! i = Some si
        /\ (visited q sites n).1 = static_cast_int i
        /\ (visited q sites n).2 = dist q si
        /\ dist q si < dbl_max
        /\ (forall j sj, (j < n)%nat -> sites !! j = Some sj -> dist q si <= dist q sj)
        /\ (forall j sj, (j < i)%nat -> sites !! j = Some sj -> dist q si < dist q sj)).
Proof.
  induction n as [|n IH]; intros Hn.
  - left. cbn. split_and!; [done | done |]. intros j sj Hj. lia.
  - rewrite seq_S, foldl_app. cbn [foldl Nat.add].
    destruct (lookup_lt_is_Some_2 sites n) as [sn Hsn]; [lia |].
    set (st := visited q sites n) in *.
    assert (Hst : locate_cell_visit q sites st n
                  = if Rltb (dist q sn) st.2 then (static_cast_int n, dist q sn) else st).
    { unfold locate_cell_visit. by rewrite Hsn. }
    rewrite Hst. clear Hst.
    destruct (Rltb (dist q sn) st.2) eqn:Hlt;
      [apply Rltb_true in Hlt | apply Rltb_false in Hlt];
      (destruct IH as [(H1 & H2 & Hall) | (i & si & Hi & Hsi & H1 & H2 & Hmax & Hall & Hbefore)];
         [lia | |]).
    + right. exists n, sn. rewrite H2 in Hlt. cbn [fst snd].
      split_and!; [lia | done | done | done | lra | intros j sj Hj Hsj | intros j sj Hj Hsj].
      * destruct (decide (j = n)) as [->|]; [simplify_eq; lra |].
        assert (dbl_max <= dist q sj) by (apply (Hall j); [lia | done]). lra.
      * assert (dbl_max <= dist q sj) by (apply (Hall j); [lia | done]). lra.
    + right. exists n, sn. rewrite H2 in Hlt. cbn [fst snd].
      split_and!; [lia | done | done | done | lra | intros j sj Hj Hsj | intros j sj Hj Hsj].
      * destruct (decide (j = n)) as [->|]; [simplify_eq; lra |].
        assert (dist q si <= dist q sj) by (apply (Hall j); [lia | done]). lra.
      * assert (dist q si <= dist q sj) by (apply (Hall j); [lia | done]). lra.
    + left. rewrite H2 in Hlt. split_and!; [done | done |].
      intros j sj Hj Hsj. destruct (decide (j = n)) as [->|]; [by simplify_eq |].
      apply (Hall j); [lia | done].
    + right. exists i, si. rewrite H2 in Hlt.
      split_and!; [lia | done | done | done | done | | done].
      intros j sj Hj Hsj. destruct (decide (j = n)) as [->|]; [by simplify_eq |].
      apply (Hall j); [lia | done].
Qed.

(** The answer of the second loop, in exact arithmetic: -1 when no site is
    nearer to [q] than [numeric_limits<double>::max ()], which includes the
    empty beachline; otherwise the position, cast to [int], of the first
    site among those nearest to [q]. *)
Theorem locate_cell_closest_spec (q : Point R) (sites : list (Point R)) :
  (locate_cell_closest q sites = (-1)%Z
   /\ forall sj, sj ∈ sites -> dbl_max <= dist q sj)
  \/ (exists i si, sites !! i = Some si
        /\ locate_cell_closest q sites = static_cast_int i
        /\ dist q si < dbl_max
        /\ (forall sj, sj ∈ sites -> dist q si <= dist q sj)
        /\ (forall j sj, (j < i)%nat -> sites !! j = Some sj -> dist q si < dist q sj)).
Proof.
  unfold locate_cell_closest.
  destruct (locate_cell_visited q sites (length sites))
    as [(H1 & H2 & Hall) | (i & si & Hi & Hsi & H1 & H2 & Hmax & Hall & Hbefore)]; [lia | |].
  - left. split; [done |]. intros sj (j & Hj)%list_elem_of_lookup.
    apply (Hall j); [by eapply lookup_lt_Some | done].
  - right. exists i, si. split_and!; [done | done | done | | done].
    intros sj (j & Hj)%list_elem_of_lookup.
    apply (Hall j); [by eapply lookup_lt_Some | done].
Qed.

(** A position that fits in an [int] is returned as it is. *)
Lemma static_cast_int_small (i : nat) :
  (Z.of_nat i < 2 ^ 31)%Z -> static_cast_int i = Z.of_nat i.
Proof.
  intros Hi. unfold static_cast_int. cbv zeta.
  rewrite Z.mod_small by lia.
  destruct (Z.ltb_spec (Z.of_nat i) (2 ^ 31)); [done | lia].
Qed.

End LocateCellExact.

(** ** The event queue of the older header *)

Section PointHEventExact.

Local Open Scope R_scope.

Lemma Event_h_lt_R (e other : Event_h R) : Event_h_lt e other = true <-> h_x other < h_x e.
Proof. unfold Event_h_lt. unfold_double. apply Rltb_true. Qed.

Lemma Event_h_lt_R_false (e other : Event_h R) :
  Event_h_lt e other = false <-> h_x e <= h_x other.
Proof. unfold Event_h_lt. unfold_double. apply Rltb_false. Qed.

(** With [Event::operator<] of [point.h], the [std::priority_queue<Event>]
    of [Voronoi.h] is a queue by ascending trigger x: what it hands out is
    an event of the queue whose x is the least, and the other events stay
    queued.  (The queue of [voronoi.hh] compares addresses instead.) *)
Theorem events_h_pop_least_x (q : list (Event_h R)) :
  match events_h_pop q with
  | Some (t, r) => q ≡ₚ t :: r /\ forall e, e ∈ q -> h_x t <= h_x e
  | None => q = []
  end.
Proof.
  unfold events_h_pop. destruct (pq_pop Event_h_lt q) as [[t r]|] eqn:Hq.
  - split; [by eapply pq_pop_perm |].
    intros e He. apply Event_h_lt_R_false.
    apply (pq_pop_least Event_h_lt) with (q := q) (r := r); [| | done | done].
    + intros a b. rewrite Event_h_lt_R, Event_h_lt_R_false. lra.
    + intros a b c. rewrite !Event_h_lt_R_false. lra.
  - by eapply pq_pop_None.
Qed.

End PointHEventExact.

(** ** What the parts of [compute] leave alone *)

Section KeepsFacts.

Context {D : Type} `{Double D}.
Local Open Scope double_scope.
Local Open Scope fa_scope.

Local Abbreviation FA := (FortuneAlgorithm D).

#[export] Instance keeps_preorder {X : Type} (f : FA -> X) : PreOrder (keeps f).
Proof.
  split.
  - by intros s.
  - intros s1 s2 s3 H1 H2. unfold keeps in *. congruence.
Qed.

Lemma keeps_links_chain (s s' : FA) (n : nat) (l : list nat) :
  keeps links s s' -> chain s n l -> chain s' n l.
Proof.
  intros Hk. unfold keeps, links in Hk.
  assert (Hl : forall m a, arc_heap s !! m = Some a ->
            exists a', arc_heap s' !! m = Some a' /\ arc_next a' = arc_next a).
  { intros m a Hm.
    assert (Hm' : (arc_links <$> arc_heap s') !! m = Some (arc_links a)).
    { rewrite Hk, list_lookup_fmap, Hm. done. }
    rewrite list_lookup_fmap in Hm'. destruct (arc_heap s' !! m) as [a'|]; [| done].
    exists a'. split; [done |]. cbn in Hm'. unfold arc_links in Hm'. by simplify_eq. }
  induction 1 as [n a Hn Hx | n m a l Hn Hx Hc IH].
  - destruct (Hl n a Hn) as (a' & Hn' & Hx'). eapply chain_last; [done | by rewrite Hx'].
  - destruct (Hl n a Hn) as (a' & Hn' & Hx'). eapply chain_next; [done | by rewrite Hx' | done].
Qed.

Lemma fmap_alter_same {A B : Type} (f : A -> B) (g : A -> A) (n : nat) (h : list A) :
  (forall a, f (g a) = f a) -> f <$> alter g n h = f <$> h.
Proof.
  intros Hfg. apply list_eq. intros i. rewrite !list_lookup_fmap, list_lookup_alter.
  destruct (decide (n = i)) as [->|]; [| done].
  destruct (h !! i); cbn; [| done]. by rewrite Hfg.
Qed.

End KeepsFacts.

(** A primitive statement, or a straight-line sequence of them: every
    case of its run is looked at. *)
Ltac keeps_prim :=
  let Hr := fresh "Hr" in
  intros ? ? ? Hr;
  unfold finish_at in Hr;
  unfold update_arc, update_event, update_segment, finish_at, new_arc, new_event,
    new_segment, output_push, events_push, points_push, events_pop, events_top, points_pop,
    points_top, p_of, prev_of, next_of, event_of, left_of, right_of, load_arc, load_event,
    load_segment, load, bind, modify, gets, ret, out_of_fuel, crash in Hr;
  repeat case_match; simplify_eq; unfold keeps, links; cbn;
  rewrite ?fmap_alter_same by (intros []; reflexivity); try done.

Ltac keeps_go :=
  repeat first
    [ match goal with
      | |- steps _ (bind _ _) => apply steps_bind; [apply _ | | intros ?]
      | |- steps _ (match ?c with Some _ => _ | None => _ end) => destruct c
      | |- steps _ (match ?c with (_, _) => _ end) => destruct c
      | |- steps _ (if ?c then _ else _) => destruct c
      | |- steps _ (ret _) => apply steps_ret; apply _
      | |- steps _ (intersect _ _) => apply steps_readonly; [apply _ | apply readonly_intersect]
      | |- steps _ (last_arc _ _) => apply steps_readonly; [apply _ | apply readonly_last_arc]
      | H : forall x, steps _ (?f x) |- steps _ (?f _) => apply H
      | H : forall x y, steps _ (?f x y) |- steps _ (?f _ _) => apply H
      | H : forall x y z, steps _ (?f x y z) |- steps _ (?f _ _ _) => apply H
      | H : steps _ ?m |- steps _ ?m => exact H
      end
    | solve [keeps_prim] ].

Section QueuesDrained.

Context {D : Type} `{Double D}.
Local Open Scope double_scope.
Local Open Scope fa_scope.

Local Abbreviation FA := (FortuneAlgorithm D).

Lemma keeps_points_check_circle_event (i : ArcPtr) (x0 : D) :
  steps (keeps points) (check_circle_event i x0).
Proof. unfold check_circle_event. keeps_go. Qed.

Lemma keeps_points_process_event : steps (keeps points) (@process_event D _).
Proof.
  pose proof keeps_points_check_circle_event as Hc.
  unfold process_event, process_event_fire. cbv zeta. keeps_go.
Qed.

Lemma keeps_points_finish_edges_loop (fuel : nat) (l : D) (i : ArcPtr) :
  steps (keeps points) (finish_edges_loop fuel l i).
Proof.
  revert i. induction fuel as [|fuel IH]; intros i; cbn [finish_edges_loop]; keeps_go.
Qed.

Lemma keeps_events_finish_edges_loop (fuel : nat) (l : D) (i : ArcPtr) :
  steps (keeps events) (finish_edges_loop fuel l i).
Proof.
  revert i. induction fuel as [|fuel IH]; intros i; cbn [finish_edges_loop]; keeps_go.
Qed.

Lemma compute_sites_drains (fuel : nat) (s s' : FA) :
  compute_sites fuel s = Ok (tt, s') -> points s' = [].
Proof.
  revert s. induction fuel as [|fuel IH]; intros s; cbn [compute_sites];
    unfold bind at 1, gets at 1; destruct (points s) eqn:Hp; try done.
  - unfold ret. intros ?. by simplify_eq.
  - unfold ret. intros ?. by simplify_eq.
  - intros (u & s1 & _ & Hrest)%bind_Ok_inv. by eapply IH.
Qed.

Lemma compute_events_drains (fuel : nat) (s s' : FA) :
  compute_events fuel s = Ok (tt, s') -> events s' = [] /\ points s' = points s.
Proof.
  revert s. induction fuel as [|fuel IH]; intros s; cbn [compute_events];
    unfold bind at 1, gets at 1; destruct (events s) eqn:He; try done.
  - unfold ret. intros ?. by simplify_eq.
  - unfold ret. intros ?. by simplify_eq.
  - intros (u & s1 & Hstep & Hrest)%bind_Ok_inv.
    apply keeps_points_process_event in Hstep. unfold keeps in Hstep.
    destruct (IH _ Hrest) as [He' Hp']. split; [done | congruence].
Qed.

(** When [compute] returns, both queues are empty: every site has been
    inserted and every circle event has been taken out, and neither the
    second loop nor [finish_edges] has queued anything. *)
Theorem compute_drains_queues (fuel : nat) (s s' : FA) :
  compute fuel s = Ok (tt, s') -> points s' = [] /\ events s' = [].
Proof.
  unfold compute.
  intros (u1 & s1 & _ & (u2 & s2 & Hsites & (u3 & s3 & Hevents & Hfin)%bind_Ok_inv)%bind_Ok_inv)%bind_Ok_inv.
  destruct u2, u3. apply compute_sites_drains in Hsites.
  apply compute_events_drains in Hevents as [He Hp].
  unfold finish_edges in Hfin. unfold bind at 1 2 3, gets at 1 2 3 in Hfin.
  pose proof (keeps_points_finish_edges_loop _ _ _ _ _ _ Hfin) as Hkp.
  pose proof (keeps_events_finish_edges_loop _ _ _ _ _ _ Hfin) as Hke.
  unfold keeps in *. split; congruence.
Qed.

End QueuesDrained.

(** The run of [main.cpp]. *)
Lemma compute_drains_queues_witness : points main_output = [] /\ events main_output = [].
Proof. apply (compute_drains_queues 20 main_input). vm_compute. reflexivity. Defined.

(** ** [process_event]: what a circle event does to the diagram *)

(** From a run [H] of a computation, that it has kept the part [f]. *)
Ltac keeps_of H f :=
  lazymatch type of H with
  | ?m ?s = Ok (?a, ?s') =>
      let K := fresh "K" in
      assert (K : keeps f s s') by (refine ((_ : steps (keeps f) m) s a s' H); keeps_go)
  end.

Section ProcessEventFacts.

Context {D : Type} `{Double D}.
Local Open Scope double_scope.
Local Open Scope fa_scope.

Local Abbreviation FA := (FortuneAlgorithm D).

Lemma keeps_links_check_circle_event (i : ArcPtr) (x0 : D) :
  steps (keeps links) (check_circle_event i x0).
Proof. unfold check_circle_event. keeps_go. Qed.

Lemma keeps_segments_check_circle_event (i : ArcPtr) (x0 : D) :
  steps (keeps segment_heap) (check_circle_event i x0).
Proof. unfold check_circle_event. keeps_go. Qed.

Lemma keeps_output_check_circle_event (i : ArcPtr) (x0 : D) :
  steps (keeps output_segments) (check_circle_event i x0).
Proof. unfold check_circle_event. keeps_go. Qed.

(** Lazy deletion: an event that was invalidated while it was queued is
    dropped when it reaches the top; nothing but the queue changes. *)
Theorem process_event_invalid (s : FA) (en : nat) (q : list EventPtr) (ev : Event D) :
  pq_pop ptr_gt (events s) = Some (Some en, q) ->
  event_heap s !! en = Some ev ->
  ev_valid ev = false ->
  process_event s = Ok (tt, set_events q s).
Proof.
  intros Hq Hev Hv. unfold process_event.
  unfold bind at 1, events_top at 1. rewrite Hq.
  unfold bind at 1, events_pop at 1. rewrite Hq.
  assert (Hev' : event_heap (set_events q s) !! en = Some ev) by done.
  rewrite (bind_Ok _ _ _ _ _ (load_event_Some _ _ _ Hev')). by rewrite Hv.
Qed.


(** The state after [if (l) l->finish (p);]. *)
Lemma finish_if_inv (l : SegmentPtr) (p : Point D) (s s' : FA) (u : unit) :
  (if l is Some _ then finish_at l p else ret tt) s = Ok (u, s') ->
  keeps links s s' /\ keeps output_segments s s'
  /\ match l with
     | Some j =>
         exists sg, segment_heap s !! j = Some sg
           /\ segment_heap s' = <[j := finish sg p]> (segment_heap s)
     | None => segment_heap s' = segment_heap s
     end.
Proof.
  intros Hrun. keeps_of Hrun (links (D:=D)). keeps_of Hrun (output_segments (D:=D)).
  split; [done |]. split; [done |].
  destruct l as [j|]; [| unfold ret in Hrun; by simplify_eq].
  unfold finish_at, update_segment in Hrun.
  apply bind_Ok_inv in Hrun as (sg & s1 & Hl & Hm).
  unfold load_segment, load in Hl. destruct (segment_heap s !! j) as [sg'|] eqn:Hj; [| done].
  simplify_eq. unfold modify in Hm. simplify_eq. eexists. split; [reflexivity |].
  cbn [segment_heap set_segment_heap default].
  by apply (alter_insert (fun sg => finish sg p)).
Qed.

(** A valid circle event at the top of the queue, when [process_event]
    returns: one segment has been created, it starts at the centre of the
    circle and is the new last entry of the output; the segments that the
    vanishing arc holds on its two sides are done, and one that was open
    now ends at the centre. *)
Theorem process_event_vertex (s s' : FA) (en : nat) (q : list EventPtr) (ev : Event D) :
  pq_pop ptr_gt (events s) = Some (Some en, q) ->
  event_heap s !! en = Some ev ->
  ev_valid ev = true ->
  process_event s = Ok (tt, s') ->
  let g := length (segment_heap s) in
  length (segment_heap s') = S g
  /\ (exists sg, segment_heap s' !! g = Some sg /\ seg_start sg = ev_p ev)
  /\ output_segments s' = output_segments s ++ [Some g]
  /\ forall n a j,
       ev_arc ev = Some n -> arc_heap s' !! n = Some a ->
       left_segment a = Some j \/ right_segment a = Some j ->
       exists sj, segment_heap s' !! j = Some sj /\ seg_done sj = true
         /\ forall sj0, segment_heap s !! j = Some sj0 -> seg_done sj0 = false ->
              sj = mkSegment (seg_start sj0) (ev_p ev) true.
Proof.
  intros Hq Hev Hv Hrun g. unfold process_event in Hrun.
  unfold bind at 1, events_top at 1 in Hrun. rewrite Hq in Hrun.
  unfold bind at 1, events_pop at 1 in Hrun. rewrite Hq in Hrun.
  assert (Hev' : event_heap (set_events q s) !! en = Some ev) by done.
  rewrite (bind_Ok _ _ _ _ _ (load_event_Some _ _ _ Hev')), Hv in Hrun. clear Hev'.
  unfold process_event_fire in Hrun. cbv zeta in Hrun.
  apply bind_Ok_inv in Hrun as (c & s1 & Hnew & Hrun).
  unfold new_segment in Hnew. simplify_eq.
  apply bind_Ok_inv in Hrun as (u1 & s2 & Hpush & Hrun).
  unfold output_push, modify in Hpush. simplify_eq.
  cbn [segment_heap output_segments set_segment_heap set_events] in Hrun.
  set (p := ev_p ev) in *.
  set (s2 := set_output_segments _ _) in Hrun.
  assert (Hseg2 : segment_heap s2 = segment_heap s ++ [Segment_new p]) by done.
  assert (Hout2 : output_segments s2 = output_segments s ++ [Some g]) by done.
  clearbody s2.
  apply bind_Ok_inv in Hrun as (aprev & s3 & ->%readonly_prev_of & Hrun).
  apply bind_Ok_inv in Hrun as (u2 & s4 & Hb1 & Hrun).
  keeps_of Hb1 (segment_heap (D:=D)). keeps_of Hb1 (output_segments (D:=D)). clear Hb1.
  apply bind_Ok_inv in Hrun as (anext & s5 & ->%readonly_next_of & Hrun).
  apply bind_Ok_inv in Hrun as (u3 & s6 & Hb2 & Hrun).
  keeps_of Hb2 (segment_heap (D:=D)). keeps_of Hb2 (output_segments (D:=D)). clear Hb2.
  apply bind_Ok_inv in Hrun as (l & s7 & Hl & Hrun).
  apply left_of_inv in Hl as (-> & n & A & Harc & HA & ->).
  apply bind_Ok_inv in Hrun as (u4 & s8 & Hf1 & Hrun).
  apply finish_if_inv in Hf1 as (Kl8 & Ko8 & Hh8).
  apply bind_Ok_inv in Hrun as (r & s9 & Hr & Hrun).
  apply right_of_inv in Hr as (-> & n' & A' & Harc' & HA' & ->).
  apply bind_Ok_inv in Hrun as (u5 & s10 & Hf2 & Hrun).
  apply finish_if_inv in Hf2 as (Kl10 & Ko10 & Hh10).
  apply bind_Ok_inv in Hrun as (aprev' & s11 & ->%readonly_prev_of & Hrun).
  apply bind_Ok_inv in Hrun as (u6 & s12 & Hc1 & Hrun).
  pose proof keeps_links_check_circle_event as Hcl.
  pose proof keeps_segments_check_circle_event as Hcs.
  pose proof keeps_output_check_circle_event as Hco.
  keeps_of Hc1 (links (D:=D)). keeps_of Hc1 (segment_heap (D:=D)).
  keeps_of Hc1 (output_segments (D:=D)). clear Hc1.
  apply bind_Ok_inv in Hrun as (anext' & s13 & ->%readonly_next_of & Hc2).
  keeps_of Hc2 (links (D:=D)). keeps_of Hc2 (segment_heap (D:=D)).
  keeps_of Hc2 (output_segments (D:=D)). clear Hc2 Hcl Hcs Hco.
  unfold keeps in *.
  (* the arc of the event, as it is at the end *)
  rewrite Harc in Harc'. injection Harc' as <-.
  assert (HA8 : arc_links A' = arc_links A).
  { assert (Hl8 : links s8 !! n = Some (arc_links A')).
    { unfold links. by rewrite list_lookup_fmap, HA'. }
    rewrite Kl8 in Hl8. unfold links in Hl8. rewrite list_lookup_fmap, HA in Hl8.
    cbn in Hl8. unfold arc_links in *. congruence. }
  assert (Hlinks : links s' = links s8) by congruence.
  assert (Hside : forall a, arc_heap s' !! n = Some a ->
            left_segment a = left_segment A /\ right_segment a = right_segment A').
  { intros a Ha.
    assert (Hl' : links s' !! n = Some (arc_links a)).
    { unfold links. by rewrite list_lookup_fmap, Ha. }
    rewrite Hlinks in Hl'. unfold links in Hl'.
    rewrite list_lookup_fmap, HA' in Hl'. cbn in Hl'. unfold arc_links in *.
    split; congruence. }
  (* the segments, as they are at the end *)
  assert (Hh6 : segment_heap s6 = segment_heap s ++ [Segment_new p]) by congruence.
  assert (Hh' : segment_heap s' = segment_heap s10) by congruence.
  assert (Hlen : length (segment_heap s10) = S g).
  { destruct (left_segment A) as [jl|], (right_segment A') as [jr|];
      repeat match goal with
             | H : exists _, _ |- _ => destruct H as (? & ? & H)
             end;
      rewrite ?Hh10, ?length_insert, ?Hh8, ?length_insert, Hh6, length_app; cbn; lia. }
  assert (Hstart : forall (h : list (Segment D)) k sg j x,
            h !! j = Some sg -> <[k := finish x p]> h !! j = Some sg \/
            (k = j /\ <[k := finish x p]> h !! j = Some (finish x p))).
  { intros h k sg j x Hj. destruct (decide (k = j)) as [->|].
    - right. split; [done |]. apply list_lookup_insert_eq. by eapply lookup_lt_Some.
    - left. by rewrite list_lookup_insert_ne. }
  split; [congruence |]. split; [| split].
  - (* the new segment *)
    rewrite Hh'.
    assert (H6 : segment_heap s6 !! g = Some (Segment_new p)).
    { rewrite Hh6. by apply list_lookup_middle. }
    assert (H8 : exists sg, segment_heap s8 !! g = Some sg /\ seg_start sg = p).
    { destruct (left_segment A) as [jl|].
      - destruct Hh8 as (x & Hx & ->).
        destruct (Hstart (segment_heap s6) jl _ g x H6) as [?|[-> ?]]; [by eexists |].
        exists (finish x p). split; [done |]. rewrite Hx in H6. simplify_eq.
        unfold finish. by destruct (seg_done _).
      - rewrite Hh8. by eexists. }
    destruct H8 as (sg8 & H8 & Hs8).
    destruct (right_segment A') as [jr|].
    + destruct Hh10 as (x & Hx & ->).
      destruct (Hstart (segment_heap s8) jr _ g x H8) as [?|[-> ?]]; [by eexists |].
      exists (finish x p). split; [done |]. rewrite Hx in H8. simplify_eq.
      unfold finish. by destruct (seg_done _).
    + rewrite Hh10. by eexists.
  - congruence.
  - (* the two sides of the arc *)
    intros m a j Hm Ha Hj. rewrite Harc in Hm. simplify_eq.
    destruct (Hside a Ha) as [Hleft Hright]. rewrite Hh'.
    assert (Hold : forall sj0, segment_heap s !! j = Some sj0 ->
              segment_heap s6 !! j = Some sj0).
    { intros sj0 Hj0. rewrite Hh6. by apply lookup_app_l_Some. }
    assert (Hfin : forall x, seg_done x = false -> finish x p = mkSegment (seg_start x) p true).
    { intros x Hx. unfold finish. by rewrite Hx. }
    destruct (decide (left_segment A = Some j)) as [Hlj|Hlj].
    + (* finished as the left segment *)
      rewrite Hlj in Hh8. destruct Hh8 as (x & Hx & Hh8).
      assert (H8 : segment_heap s8 !! j = Some (finish x p)).
      { rewrite Hh8. apply list_lookup_insert_eq. by eapply lookup_lt_Some. }
      assert (H10 : segment_heap s10 !! j = Some (finish x p)).
      { destruct (right_segment A') as [jr|]; [| by rewrite Hh10].
        destruct Hh10 as (y & Hy & ->).
        destruct (decide (jr = j)) as [->|]; [| by rewrite list_lookup_insert_ne].
        rewrite list_lookup_insert_eq by (by eapply lookup_lt_Some).
        rewrite H8 in Hy. simplify_eq.
        by rewrite finish_done_noop by apply finish_seg_done. }
      exists (finish x p). split; [done |]. split; [apply finish_seg_done |].
      intros sj0 Hj0 Hd0. apply Hold in Hj0. rewrite Hx in Hj0. simplify_eq. by apply Hfin.
    + (* finished as the right segment only *)
      assert (Hrj : right_segment A' = Some j).
      { destruct Hj as [Hj|Hj]; [| congruence]. rewrite Hleft in Hj. done. }
      rewrite Hrj in Hh10. destruct Hh10 as (y & Hy & Hh10).
      exists (finish y p). split; [| split; [apply finish_seg_done |]].
      { rewrite Hh10. apply list_lookup_insert_eq. by eapply lookup_lt_Some. }
      intros sj0 Hj0 Hd0. apply Hold in Hj0.
      assert (y = sj0); [| subst y; by apply Hfin].
      destruct (left_segment A) as [jl|].
      * destruct Hh8 as (x & Hx & Hh8). rewrite Hh8 in Hy.
        rewrite list_lookup_insert_ne in Hy by congruence. congruence.
      * rewrite Hh8 in Hy. congruence.
Qed.

End ProcessEventFacts.

(** On [stale_sites], after five turns. *)
Lemma process_event_invalid_witness :
  process_event stale_state = Ok (tt, set_events [Some 2] stale_state).
Proof.
  eapply (process_event_invalid stale_state 1 [Some 2]).
  - vm_compute. reflexivity.
  - vm_compute. reflexivity.
  - reflexivity.
Defined.

(** The first circle event of [main.cpp]. *)
Lemma process_event_vertex_witness :
  exists s', process_event main_state3 = Ok (tt, s')
    /\ length (segment_heap s') = S (length (segment_heap main_state3)).
Proof.
  destruct (process_event main_state3) as [[[] s']| |] eqn:Hrun.
  - exists s'. split; [reflexivity |].
    edestruct (process_event_vertex main_state3 s' 0) as (Hlen & _);
      [vm_compute; reflexivity | vm_compute; reflexivity | reflexivity | exact Hrun
      | exact Hlen].
  - vm_compute in Hrun. discriminate Hrun.
  - vm_compute in Hrun. discriminate Hrun.
Defined.

(** ** The divisions of [intersection] *)

Section IntersectionDivisors.

Local Open Scope R_scope.

(** Away from the one degenerate case (both foci on the directrix), no
    division of [intersection] has a zero divisor in exact arithmetic:
    the evaluation with checked divisions succeeds and gives the point
    that [intersection] returns. *)
Theorem intersection_divisors_nonzero (p0 p1 : Point R) (l : R) :
  ~ (px p0 = px p1 /\ px p0 = l) ->
  exists r, intersection_checked p0 p1 l = Some r /\ intersection p0 p1 l = r.
Proof.
  intros Hne. destruct (intersection_checked p0 p1 l) as [r|] eqn:Hc.
  - exists r. split; [done |]. by apply intersection_checked_sound.
  - by apply intersection_checked_None_iff in Hc.
Qed.

(** The foci (0, 0) and (2, 0) with the directrix x = 4. *)
Lemma intersection_divisors_nonzero_witness :
  exists r, intersection_checked (mkPoint 0 0) (mkPoint 2 0) 4 = Some r
    /\ intersection (mkPoint 0 0) (mkPoint 2 0) 4 = r.
Proof.
  apply (intersection_divisors_nonzero (mkPoint 0 0) (mkPoint 2 0) 4).
  cbn [px]. lra.
Defined.

End IntersectionDivisors.

(** ** The event queue of [voronoi.hh] *)

(** What [events.top ()] hands out is a pointer of the queue, and no
    pending pointer has a lower address; the trigger x plays no part. *)
Theorem events_top_by_address {D : Type} `{Double D}
    (s s' : FortuneAlgorithm D) (e : EventPtr) :
  events_top s = Ok (e, s') ->
  s' = s /\ e ∈ events s /\ forall e', e' ∈ events s -> ptr_gt e e' = false.
Proof.
  intros Htop. split; [| split].
  - unfold events_top in Htop. destruct (pq_pop _ _) as [[m r]|]; [| done]. by simplify_eq.
  - unfold events_top in Htop. destruct (pq_pop _ _) as [[m r]|] eqn:Hq; [| done].
    simplify_eq. rewrite (pq_pop_perm _ _ _ _ Hq). by left.
  - by eapply events_top_least_address.
Qed.

(** After seven turns of [main.cpp] the events 2 and 3 are pending. *)
Lemma events_top_by_address_witness :
  Some 2 ∈ events main_state7 /\ ptr_gt (Some 2) (Some 3) = false.
Proof.
  destruct (events_top_by_address main_state7 main_state7 (Some 2)) as (_ & Hin & Hleast).
  - vm_compute. reflexivity.
  - split; [exact Hin |]. apply Hleast. vm_compute. right. left.
Defined.

(** ** [front_insert]: the beachline after a site has split an arc *)

Section ChainSurgery.

Context {D : Type} `{Double D}.

Local Abbreviation FA := (FortuneAlgorithm D).

Lemma chain_same_next (s t : FA) (n : nat) (l : list nat) :
  chain s n l -> (forall m, m ∈ l -> same_next s t m) -> chain t n l.
Proof.
  induction 1 as [n a Hn Hx | n m a l Hn Hx Hc IH]; intros Hsame.
  - destruct (Hsame n (list_elem_of_here _ _) a Hn) as (a' & Hn' & Hx').
    eapply chain_last; [done | by rewrite Hx'].
  - destruct (Hsame n (list_elem_of_here _ _) a Hn) as (a' & Hn' & Hx').
    eapply chain_next; [done | by rewrite Hx' |].
    apply IH. intros k Hk. apply Hsame. by right.
Qed.

(** A beachline whose arcs before [i] are as they were, continued by a
    new line from [i]. *)
Lemma chain_splice (s t : FA) (r i : nat) (l1 l2 L : list nat) :
  chain s r (l1 ++ i :: l2) ->
  (forall m, m ∈ l1 -> same_next s t m) ->
  chain t i L ->
  chain t r (l1 ++ L).
Proof.
  revert r. induction l1 as [|m l1 IH]; intros r Hc Hsame HL.
  - destruct (chain_head _ _ _ Hc) as [l' Hl]. cbn in Hl. by simplify_eq.
  - inversion Hc as [n a Hn Hx Heq | n k a l Hn Hx Hc' Heq]; simplify_eq/=.
    { by destruct l1. }
    destruct (Hsame m (list_elem_of_here _ _) a Hn) as (a' & Hn' & Hx').
    eapply chain_next; [done | by rewrite Hx' |].
    apply IH; [done | | done]. intros j Hj. apply Hsame. by right.
Qed.

End ChainSurgery.

(** Looking up an arc in an arena written as a sequence of assignments
    and allocations. *)
Ltac lens :=
  repeat first [rewrite length_insert | rewrite length_app]; cbn [length]; lia.

Ltac lk :=
  cbn [arc_heap];
  repeat match goal with
    | |- <[?k := _]> ?h !! ?n = _ =>
        first [ rewrite (list_lookup_insert_ne h k n) by lia
              | rewrite (list_lookup_insert_eq h k) by lens ]
    | |- (?h ++ [_]) !! ?n = _ =>
        first [ rewrite (lookup_app_l h) by lens
              | rewrite (list_lookup_middle h []) by lens ]
    end;
  first [eassumption | reflexivity].

Section SplitFacts.

Context {D : Type} `{Double D}.
Local Open Scope double_scope.
Local Open Scope fa_scope.

Local Abbreviation FA := (FortuneAlgorithm D).

Lemma bind_assoc {A B C : Type} (m : M D A) (k1 : A -> M D B) (k2 : B -> M D C) (s : FA) :
  bind (bind m k1) k2 s = bind m (fun x => bind (k1 x) k2) s.
Proof. unfold bind. by destruct (m s) as [[a s1]| |]. Qed.

End SplitFacts.

(** One statement of a run [Hrun] that is known to return, executed on
    the state it has reached. *)
Ltac fwd Hrun :=
  rewrite ?bind_assoc in Hrun;
  lazymatch type of Hrun with
  | bind (update_arc (Some ?n) ?f) _ ?s = _ =>
      let Ha := fresh "Ha" in
      eassert (Ha : arc_heap s !! n = Some _) by lk;
      rewrite (bind_Ok _ _ _ _ _ (update_arc_Some _ _ f _ Ha)) in Hrun; clear Ha
  | bind (next_of (Some ?n)) _ ?s = _ =>
      let Ha := fresh "Ha" in
      eassert (Ha : arc_heap s !! n = Some _) by lk;
      rewrite (bind_Ok _ _ _ _ _ (next_of_Some _ _ _ Ha)) in Hrun; clear Ha
  | bind (prev_of (Some ?n)) _ ?s = _ =>
      let Ha := fresh "Ha" in
      eassert (Ha : arc_heap s !! n = Some _) by lk;
      rewrite (bind_Ok _ _ _ _ _ (prev_of_Some _ _ _ Ha)) in Hrun; clear Ha
  | bind (p_of (Some ?n)) _ ?s = _ =>
      let Ha := fresh "Ha" in
      eassert (Ha : arc_heap s !! n = Some _) by lk;
      rewrite (bind_Ok _ _ _ _ _ (p_of_Some _ _ _ Ha)) in Hrun; clear Ha
  | bind (left_of (Some ?n)) _ ?s = _ =>
      let Ha := fresh "Ha" in
      eassert (Ha : arc_heap s !! n = Some _) by lk;
      rewrite (bind_Ok _ _ _ _ _ (left_of_Some _ _ _ Ha)) in Hrun; clear Ha
  | bind (right_of (Some ?n)) _ ?s = _ =>
      let Ha := fresh "Ha" in
      eassert (Ha : arc_heap s !! n = Some _) by lk;
      rewrite (bind_Ok _ _ _ _ _ (right_of_Some _ _ _ Ha)) in Hrun; clear Ha
  | bind (new_arc _) _ _ = _ => unfold bind at 1, new_arc at 1 in Hrun
  | bind (new_segment _) _ _ = _ => unfold bind at 1, new_segment at 1 in Hrun
  | bind (output_push _) _ _ = _ => unfold bind at 1, output_push at 1, modify at 1 in Hrun
  end;
  unfold set_arc_heap, set_segment_heap, set_output_segments in Hrun;
  cbn [arc_p arc_prev arc_next arc_event left_segment right_segment Arc_new
       with_prev with_next with_event with_left_segment with_right_segment
       root points events output_segments x_min x_max y_min y_max
       arc_heap event_heap segment_heap] in Hrun;
  repeat first [rewrite length_insert in Hrun | rewrite length_app in Hrun];
  cbn [length] in Hrun;
  rewrite ?Nat.add_1_r in Hrun.

Section SplitRun.

Context {D : Type} `{Double D}.
Local Open Scope double_scope.
Local Open Scope fa_scope.

Local Abbreviation FA := (FortuneAlgorithm D).

Lemma keeps_links_lookup (t s' : FA) (m : nat) (a : Arc D) :
  keeps links t s' -> arc_heap t !! m = Some a ->
  exists a', arc_heap s' !! m = Some a' /\ arc_links a' = arc_links a.
Proof.
  unfold keeps, links. intros Hk Hm.
  assert (Hm' : (arc_links <$> arc_heap s') !! m = Some (arc_links a)).
  { by rewrite Hk, list_lookup_fmap, Hm. }
  rewrite list_lookup_fmap in Hm'. destruct (arc_heap s' !! m) as [a'|]; [| done].
  exists a'. split; [done |]. cbn in Hm'. congruence.
Qed.

Lemma keeps_links_length (t s' : FA) :
  keeps links t s' -> length (arc_heap s') = length (arc_heap t).
Proof.
  unfold keeps, links. intros Hk.
  rewrite <- (length_fmap arc_links (arc_heap s')), Hk. apply length_fmap.
Qed.

(** The three calls of [check_circle_event] that end [front_insert]. *)
Lemma keeps_links_split_checks (i : ArcPtr) (x0 : D) :
  steps (keeps links)
    (check_circle_event i x0 ;;
     let* iprev := prev_of i in
     check_circle_event iprev x0 ;;
     let* inext := next_of i in
     check_circle_event inext x0 ;;
     ret tt).
Proof. pose proof keeps_links_check_circle_event as Hc. keeps_go. Qed.

Ltac final_arc Hrun m a Ha Hl :=
  lazymatch type of Hrun with
  | keeps _ ?t _ =>
      let Hlk := fresh "Hlk" in
      eassert (Hlk : arc_heap t !! m = Some _) by lk;
      destruct (keeps_links_lookup _ _ _ _ Hrun Hlk) as (a & Ha & Hl);
      unfold arc_links in Hl; cbn in Hl; clear Hlk
  end.

(** [front_insert] once [intersect (p, i, &z)] has answered true, when it
    returns: two arcs have been created; [i] is followed by the new arc
    of [p], which is followed by a copy of [i]; the copy is followed by
    the old successor of [i] when [p] does not hit that successor, and by
    nothing when it does or when there was none; no other arc has another
    [next] than before. *)
Lemma front_insert_split_run (p z : Point D) (s s' : FA) (i : nat) (A : Arc D) :
  arc_heap s !! i = Some A ->
  (forall n, arc_next A = Some n -> n <> i /\ is_Some (arc_heap s !! n)) ->
  front_insert_split p (Some i) z s = Ok (tt, s') ->
  let c1 := length (arc_heap s) in
  exists b : bool,
    (if b then exists n, arc_next A = Some n /\ intersect p (Some n) s = Ok (None, s)
     else arc_next A = None
          \/ exists n z', arc_next A = Some n /\ intersect p (Some n) s = Ok (Some z', s))
    /\ length (arc_heap s') = S (S c1)
    /\ (exists a, arc_heap s' !! i = Some a /\ arc_p a = arc_p A /\ arc_next a = Some (S c1))
    /\ (exists a, arc_heap s' !! S c1 = Some a /\ arc_p a = p /\ arc_next a = Some c1)
    /\ (exists a, arc_heap s' !! c1 = Some a /\ arc_p a = arc_p A
                  /\ arc_next a = if b then arc_next A else None)
    /\ (forall m, m <> i -> same_next s s' m).
Proof.
  intros HA HN Hrun c1. subst c1.
  assert (Hi : i < length (arc_heap s)) by (by eapply lookup_lt_Some).
  unfold front_insert_split in Hrun.
  rewrite (bind_Ok _ _ _ _ _ (next_of_Some _ _ _ HA)) in Hrun.
  apply bind_Ok_inv in Hrun as (b & s1 & Hb & Hrun).
  assert (s1 = s) as ->.
  { destruct (arc_next A) as [n|]; [| unfold ret in Hb; by simplify_eq].
    apply bind_Ok_inv in Hb as (r & s2 & ->%readonly_intersect & Hb).
    unfold ret in Hb. by simplify_eq. }
  exists b.
  assert (Hhit : if b then exists n, arc_next A = Some n /\ intersect p (Some n) s = Ok (None, s)
     else arc_next A = None
          \/ exists n z', arc_next A = Some n /\ intersect p (Some n) s = Ok (Some z', s)).
  { destruct (arc_next A) as [n|].
    - apply bind_Ok_inv in Hb as (r & s2 & Hr & Hb).
      pose proof (readonly_intersect _ _ _ _ _ Hr) as ->.
      unfold ret in Hb. destruct r as [z'|]; simplify_eq/=; eauto 6.
    - unfold ret in Hb. simplify_eq. by left. }
  split; [exact Hhit |]. clear Hb.
  destruct s as [rt pts evq out x0 x1 y0 y1 h eh sh].
  destruct A as [Ap Aprev Anext Aev Al Ar].
  cbn [arc_heap arc_next arc_p] in *.
  destruct b.
  - (* a copy of [i] is linked in before the successor of [i] *)
    destruct Hhit as (n & -> & _).
    destruct (HN n eq_refl) as [Hni [B HB]].
    assert (Hn : n < length h) by (by eapply lookup_lt_Some).
    repeat fwd Hrun.
    apply keeps_links_split_checks in Hrun.
    pose proof (keeps_links_length _ _ Hrun) as Hlen. cbn [arc_heap] in Hlen.
    split; [rewrite Hlen; lens |].
    split; [| split; [| split]].
    + final_arc Hrun i a Ha Hl. exists a. split; [done |]. split; congruence.
    + final_arc Hrun (S (length h)) a Ha Hl. exists a. split; [done |]. split; congruence.
    + final_arc Hrun (length h) a Ha Hl. exists a. split; [done |]. split; congruence.
    + intros m Hm a Hma. cbn [arc_heap] in Hma.
      assert (Hml : m < length h) by (by eapply lookup_lt_Some).
      destruct (decide (m = n)) as [->|Hmn].
      * final_arc Hrun n a' Ha' Hl. exists a'. split; [done |].
        rewrite HB in Hma. simplify_eq. congruence.
      * final_arc Hrun m a' Ha' Hl. exists a'. split; [done |]. congruence.
  - (* the copy of [i] ends the beachline *)
    assert (Hnone : forall n, Anext = Some n -> n <> i /\ n < length h).
    { intros n Hn. destruct (HN n Hn) as [? [B HB]]. split; [done |].
      by eapply lookup_lt_Some. }
    clear Hhit HN.
    repeat fwd Hrun.
    apply keeps_links_split_checks in Hrun.
    pose proof (keeps_links_length _ _ Hrun) as Hlen. cbn [arc_heap] in Hlen.
    split; [rewrite Hlen; lens |].
    split; [| split; [| split]].
    + final_arc Hrun i a Ha Hl. exists a. split; [done |]. split; congruence.
    + final_arc Hrun (S (length h)) a Ha Hl. exists a. split; [done |]. split; congruence.
    + final_arc Hrun (length h) a Ha Hl. exists a. split; [done |]. split; congruence.
    + intros m Hm a Hma. cbn [arc_heap] in Hma.
      assert (Hml : m < length h) by (by eapply lookup_lt_Some).
      final_arc Hrun m a' Ha' Hl. exists a'. split; [done |]. congruence.
Qed.

Lemma keeps_root_check_circle_event (i : ArcPtr) (x0 : D) :
  steps (keeps root) (check_circle_event i x0).
Proof. unfold check_circle_event. keeps_go. Qed.

Lemma keeps_root_front_insert_split (p : Point D) (i : ArcPtr) (z : Point D) :
  steps (keeps root) (front_insert_split p i z).
Proof.
  pose proof keeps_root_check_circle_event as Hc. unfold front_insert_split. keeps_go.
Qed.

(** The scan of [front_insert] stops at the first arc that [p] hits. *)
Lemma front_insert_scan_hit (p z : Point D) (s : FA) (i : nat) (l1 l2 : list nat) :
  forall (r : nat) (fuel : nat),
    chain s r (l1 ++ i :: l2) ->
    (forall m, m ∈ l1 -> intersect p (Some m) s = Ok (None, s)) ->
    intersect p (Some i) s = Ok (Some z, s) ->
    length l1 < fuel ->
    front_insert_scan fuel p (Some r) s = (front_insert_split p (Some i) z ;; ret true) s.
Proof.
  induction l1 as [|m l1 IH]; intros r fuel Hc Hmiss Hhit Hfuel.
  - destruct (chain_head _ _ _ Hc) as [l' Hl]. cbn in Hl. simplify_eq.
    destruct fuel as [|fuel]; [cbn in Hfuel; lia |]. cbn [front_insert_scan].
    by rewrite (bind_Ok _ _ _ _ _ Hhit).
  - inversion Hc as [n a Hn Hx Heq | n k a l Hn Hx Hc' Heq]; simplify_eq/=.
    { by destruct l1. }
    destruct fuel as [|fuel]; [lia |]. cbn [front_insert_scan].
    rewrite (bind_Ok _ _ _ _ _ (Hmiss m (list_elem_of_here _ _))).
    rewrite (bind_Ok _ _ _ _ _ (next_of_Some _ _ _ Hn)), Hx.
    apply IH; [done | | done | lia]. intros j Hj. apply Hmiss. by right.
Qed.

(** The successor of an arc of the beachline is the next arc of the
    sequence. *)
Lemma chain_next_head (s : FA) (i : nat) (l : list nat) (A : Arc D) :
  chain s i (i :: l) -> arc_heap s !! i = Some A -> arc_next A = head l.
Proof.
  intros Hc HA. inversion Hc as [n a Hn Hx Heq | n k a l' Hn Hx Hc' Heq]; simplify_eq/=.
  - done.
  - destruct (chain_head _ _ _ Hc') as [l'' ->]. done.
Qed.

(** [front_insert (p)] when the first arc of the beachline that [p] hits
    is [i]: when it returns, [root] is as it was, and the beachline is
    the old one up to [i], then the new arc of [p], then a new copy of
    [i]; behind the copy comes the old rest of the beachline unless [p]
    hits the old successor of [i] too, in which case the copy is the last
    arc and the old rest is no longer on the beachline. *)
Theorem front_insert_splits (p z : Point D) (s s' : FA) (r i : nat) (l1 l2 : list nat) :
  root s = Some r ->
  chain s r (l1 ++ i :: l2) ->
  (forall m, m ∈ l1 -> intersect p (Some m) s = Ok (None, s)) ->
  intersect p (Some i) s = Ok (Some z, s) ->
  front_insert p s = Ok (tt, s') ->
  let c1 := length (arc_heap s) in
  exists tail,
    root s' = Some r
    /\ chain s' r (l1 ++ i :: S c1 :: c1 :: tail)
    /\ (tail = l2 /\ (forall n, head l2 = Some n -> intersect p (Some n) s = Ok (None, s))
        \/ tail = [] /\ exists n z', head l2 = Some n
                                     /\ intersect p (Some n) s = Ok (Some z', s))
    /\ (exists a, arc_heap s' !! S c1 = Some a /\ arc_p a = p)
    /\ (exists a a0, arc_heap s' !! c1 = Some a /\ arc_heap s !! i = Some a0
                     /\ arc_p a = arc_p a0).
Proof.
  intros Hr Hc Hmiss Hhit Hrun c1.
  pose proof (chain_NoDup _ _ _ Hc) as Hnd.
  pose proof (chain_suffix _ _ _ _ _ _ Hc eq_refl) as Hci.
  destruct (chain_live _ _ _ Hc i) as [A HA].
  { apply elem_of_app. right. by left. }
  pose proof (chain_next_head _ _ _ _ Hci HA) as HAn.
  apply NoDup_app in Hnd as (Hnd1 & Hnd12 & Hnd2).
  apply NoDup_cons in Hnd2 as [Hil2 Hnd2].
  (* the run is that of the split at [i] *)
  unfold front_insert in Hrun. unfold bind at 1, gets at 1 in Hrun. rewrite Hr in Hrun.
  unfold bind at 1, gets at 1 in Hrun.
  assert (Hfuel : length l1 < length (arc_heap s)).
  { pose proof (chain_length _ _ _ Hc) as Hlen. rewrite length_app in Hlen. cbn in Hlen. lia. }
  apply bind_Ok_inv in Hrun as (ret' & s1 & Hscan & Hrest).
  rewrite (front_insert_scan_hit p z s i l1 l2 r _ Hc Hmiss Hhit Hfuel) in Hscan.
  apply bind_Ok_inv in Hscan as (u & s2 & Hsplit & Hret).
  unfold ret in Hret. simplify_eq. unfold ret in Hrest. simplify_eq. destruct u.
  pose proof (keeps_root_front_insert_split _ _ _ _ _ _ Hsplit) as Hroot.
  unfold keeps in Hroot.
  destruct (front_insert_split_run p z s s' i A HA) as
    (b & Hb & Hlen & (ai & Hai & Hpi & Hni) & (a2 & Ha2 & Hp2 & Hn2)
       & (a1 & Ha1 & Hp1 & Hn1) & Hsame); [| done |].
  { intros n Hn. rewrite HAn in Hn. destruct l2 as [|n' l2']; simplify_eq/=.
    split.
    - intros ->. apply Hil2. by left.
    - eapply chain_live; [exact Hci |]. right. by left. }
  fold c1 in Hlen, Hni, Ha2, Hn2, Ha1.
  assert (Htail : exists tail, chain s' c1 (c1 :: tail)
            /\ (tail = l2 /\ (forall n, head l2 = Some n ->
                                intersect p (Some n) s = Ok (None, s))
                \/ tail = [] /\ exists n z', head l2 = Some n
                                  /\ intersect p (Some n) s = Ok (Some z', s))).
  { destruct b.
    - destruct Hb as (n & HAn' & Hn). rewrite HAn in HAn'.
      destruct l2 as [|n' l2']; simplify_eq/=.
      exists (n :: l2'). split; [| left; split; [done | by intros ? [= <-]]].
      eapply chain_next; [done | by rewrite Hn1 |].
      apply (chain_same_next s); [by eapply (chain_suffix _ _ _ _ [i]) |].
      intros m Hm. apply Hsame. intros ->. by apply Hil2.
    - destruct Hb as [Hnone | (n & z' & HAn' & Hn)].
      + rewrite HAn in Hnone. destruct l2; [| done].
        exists []. split; [by eapply chain_last |]. left. split; [done | done].
      + exists []. split; [by eapply chain_last |]. right. split; [done |].
        exists n, z'. split; [congruence | done]. }
  destruct Htail as (tail & Hct & Htail).
  exists tail. split; [congruence |]. split; [| split; [done | split]].
  - apply (chain_splice s s' r i l1 l2); [done | |].
    + intros m Hm. apply Hsame. intros ->. apply (Hnd12 i); [done | by left].
    + eapply chain_next; [done | done |]. eapply chain_next; [done | done | done].
  - by exists a2.
  - by exists a1, A.
Qed.

End SplitRun.

(** The second site of [main.cpp], (200, 100), splits the arc of the
    first. *)
Lemma front_insert_splits_witness :
  exists s', front_insert (mkPoint 200%float 100%float) main_state1 = Ok (tt, s')
    /\ chain s' 0 [0; 2; 1].
Proof.
  destruct (front_insert (mkPoint 200%float 100%float) main_state1) as [[[] s']| |] eqn:Hrun.
  - exists s'. split; [reflexivity |].
    destruct (front_insert_splits (mkPoint 200%float 100%float)
                (mkPoint 100%float 100%float) main_state1 s' 0 0 [] [])
      as (tail & _ & Hc & [[-> _] | [-> _]] & _).
    + reflexivity.
    + eapply chain_last; [vm_compute; reflexivity | reflexivity].
    + intros m Hm. by apply elem_of_nil in Hm.
    + vm_compute. reflexivity.
    + exact Hrun.
    + exact Hc.
    + exact Hc.
  - vm_compute in Hrun. discriminate Hrun.
  - vm_compute in Hrun. discriminate Hrun.
Defined.

(** ** [process_event]: the arc leaves the beachline *)

Section RemoveFacts.

Context {D : Type} `{Double D}.
Local Open Scope double_scope.
Local Open Scope fa_scope.

Local Abbreviation FA := (FortuneAlgorithm D).

Lemma keeps_root_process_event : steps (keeps root) (@process_event D _).
Proof.
  pose proof keeps_root_check_circle_event as Hc.
  unfold process_event, process_event_fire. cbv zeta. keeps_go.
Qed.

Ltac final_arc Hrun m a Ha Hl :=
  lazymatch type of Hrun with
  | keeps _ ?t _ =>
      let Hlk := fresh "Hlk" in
      eassert (Hlk : arc_heap t !! m = Some _) by lk;
      destruct (keeps_links_lookup _ _ _ _ Hrun Hlk) as (a & Ha & Hl);
      unfold arc_links in Hl; cbn in Hl; clear Hlk
  end.

(** The body of [process_event] for a valid event whose arc [a] has the
    neighbours [pn] and [nn]: when it returns, [pn] is followed by [nn],
    [nn] is preceded by [pn], and no other arc has another [next] than
    before. *)
Lemma process_event_fire_unlinks (ev : Event D) (s s' : FA) (a pn nn : nat) (A : Arc D) :
  ev_arc ev = Some a ->
  arc_heap s !! a = Some A ->
  arc_prev A = Some pn -> arc_next A = Some nn ->
  pn <> a -> nn <> a -> pn <> nn ->
  is_Some (arc_heap s !! pn) -> is_Some (arc_heap s !! nn) ->
  process_event_fire ev s = Ok (tt, s') ->
  (exists P', arc_heap s' !! pn = Some P' /\ arc_next P' = Some nn)
  /\ (exists N', arc_heap s' !! nn = Some N' /\ arc_prev N' = Some pn)
  /\ (forall m, m <> pn -> same_next s s' m).
Proof.
  intros Ha HA HAp HAn Hpa Hna Hpn [P HP] [N HN] Hrun.
  unfold process_event_fire in Hrun. cbv zeta in Hrun. rewrite Ha in Hrun.
  destruct s as [rt pts evq out x0 x1 y0 y1 h eh sh].
  destruct A as [Ap Aprev Anext Aev Al Ar]. cbn [arc_heap arc_prev arc_next] in *. subst.
  assert (Hal : a < length h) by (by eapply lookup_lt_Some).
  assert (Hpl : pn < length h) by (by eapply lookup_lt_Some).
  assert (Hnl : nn < length h) by (by eapply lookup_lt_Some).
  do 10 fwd Hrun.
  pose proof keeps_links_check_circle_event as Hc.
  keeps_of Hrun (links (D:=D)). clear Hrun Hc. rename K into Hrun.
  split; [| split].
  - final_arc Hrun pn P' HP' Hl. exists P'. split; [done | congruence].
  - final_arc Hrun nn N' HN' Hl. exists N'. split; [done | congruence].
  - intros m Hm b Hmb. cbn [arc_heap] in Hmb.
    assert (Hml : m < length h) by (by eapply lookup_lt_Some).
    destruct (decide (m = nn)) as [->|Hmn].
    + final_arc Hrun nn N' HN' Hl. exists N'. split; [done |].
      rewrite HN in Hmb. simplify_eq. congruence.
    + final_arc Hrun m b' Hb' Hl. exists b'. split; [done |]. congruence.
Qed.

(** A valid circle event whose arc [a] lies on the beachline between [pn]
    and [nn]: when [process_event] returns, [a] is no longer on the
    beachline, [pn] and [nn] are neighbours, and the rest of the
    beachline is in the same order as before. *)
Theorem process_event_removes_arc (s s' : FA) (en : nat) (q : list EventPtr) (ev : Event D)
    (r a pn nn : nat) (l1 l2 : list nat) (A : Arc D) :
  pq_pop ptr_gt (events s) = Some (Some en, q) ->
  event_heap s !! en = Some ev ->
  ev_valid ev = true ->
  ev_arc ev = Some a ->
  root s = Some r ->
  chain s r (l1 ++ pn :: a :: nn :: l2) ->
  arc_heap s !! a = Some A ->
  arc_prev A = Some pn ->
  process_event s = Ok (tt, s') ->
  root s' = Some r
  /\ chain s' r (l1 ++ pn :: nn :: l2)
  /\ (exists N', arc_heap s' !! nn = Some N' /\ arc_prev N' = Some pn)
  /\ a ∉ l1 ++ pn :: nn :: l2.
Proof.
  intros Hq Hev Hv Ha Hr Hc HA HAp Hrun.
  pose proof (keeps_root_process_event _ _ _ Hrun) as Hroot. unfold keeps in Hroot.
  split; [congruence |].
  (* the beachline has no arc twice *)
  pose proof (chain_NoDup _ _ _ Hc) as Hnd.
  apply NoDup_app in Hnd as (Hnd1 & Hnd1r & Hnd).
  apply NoDup_cons in Hnd as [Hpn_notin Hnd].
  apply NoDup_cons in Hnd as [Ha_notin Hnd].
  apply NoDup_cons in Hnd as [Hnn_notin Hnd].
  assert (Hpa : pn <> a) by (intros ->; apply Hpn_notin; by left).
  assert (Hpn : pn <> nn) by (intros ->; apply Hpn_notin; right; by left).
  assert (Hna : nn <> a) by (intros ->; apply Ha_notin; by left).
  (* the successor of [a] is [nn] *)
  assert (Hca : chain s a (a :: nn :: l2)).
  { apply (chain_suffix _ _ _ _ (l1 ++ [pn]) _ Hc). by rewrite <- app_assoc. }
  pose proof (chain_next_head _ _ _ _ Hca HA) as HAn. cbn in HAn.
  assert (Hcn : chain s nn (nn :: l2)).
  { by apply (chain_suffix _ _ _ _ [a] _ Hca). }
  (* the run is that of the body on the state without the event *)
  unfold process_event in Hrun.
  unfold bind at 1, events_top at 1 in Hrun. rewrite Hq in Hrun.
  unfold bind at 1, events_pop at 1 in Hrun. rewrite Hq in Hrun.
  assert (Hev' : event_heap (set_events q s) !! en = Some ev) by done.
  rewrite (bind_Ok _ _ _ _ _ (load_event_Some _ _ _ Hev')), Hv in Hrun. clear Hev'.
  assert (HPl : is_Some (arc_heap s !! pn)).
  { eapply chain_live; [exact Hc |]. apply elem_of_app. right. by left. }
  assert (HNl : is_Some (arc_heap s !! nn)).
  { eapply chain_live; [exact Hcn |]. by left. }
  destruct (process_event_fire_unlinks ev (set_events q s) s' a pn nn A)
    as ((P' & HP' & HPn') & HN' & Hsame'); try done.
  assert (Hsame : forall m, m <> pn -> same_next s s' m) by exact Hsame'.
  split; [| split; [done |]].
  - apply (chain_splice s s' r pn l1 (a :: nn :: l2)); [done | |].
    + intros m Hm. apply (Hsame m). intros ->. apply (Hnd1r pn); [done | by left].
    + eapply chain_next; [done | done |].
      apply (chain_same_next s); [done |].
      intros m Hm. apply (Hsame m). intros ->. apply Hpn_notin. by right.
  - intros [Hin | Hin]%elem_of_app.
    + apply (Hnd1r a Hin). right. by left.
    + apply elem_of_cons in Hin as [->|Hin]; [done |].
      apply Ha_notin. done.
Qed.

End RemoveFacts.

(** The first circle event of [main.cpp]: the arc 1, between the arcs 2
    and 4, leaves the beachline 0, 2, 1, 4, 3. *)
Lemma process_event_removes_arc_witness :
  exists s', process_event main_state3 = Ok (tt, s') /\ chain s' 0 [0; 2; 4; 3].
Proof.
  destruct (process_event main_state3) as [[[] s']| |] eqn:Hrun.
  - exists s'. split; [reflexivity |].
    eapply (fun A B C (Hres : A /\ B /\ C) => proj1 (proj2 Hres)).
    eapply (process_event_removes_arc main_state3 s' 0 [] _ 0 1 2 4 [0] [3]).
    + vm_compute. reflexivity.
    + vm_compute. reflexivity.
    + reflexivity.
    + reflexivity.
    + reflexivity.
    + repeat (eapply chain_next; [vm_compute; reflexivity | reflexivity |]).
      eapply chain_last; [vm_compute; reflexivity | reflexivity].
    + vm_compute. reflexivity.
    + reflexivity.
    + exact Hrun.
  - vm_compute in Hrun. discriminate Hrun.
  - vm_compute in Hrun. discriminate Hrun.
Defined.

(** ** [print_output] after [compute] *)

Section PrintOutputFacts.

Context {D : Type} `{Double D}.
Local Open Scope fa_scope.

Local Abbreviation FA := (FortuneAlgorithm D).

(** The loop over pointers to the segments [l] that the arena holds from
    position [k] on. *)
Lemma print_output_loop_arena (s : FA) (l : list (Segment D)) :
  forall (k : nat) (out : list (list D)),
    drop k (segment_heap s) = l ->
    print_output_loop (Some <$> seq k (length l)) out s
    = Ok (out ++ (segment_row <$> filter (fun g => seg_done g = true) l), s).
Proof.
  induction l as [|g l IH]; intros k out Hl.
  - cbn. by rewrite app_nil_r.
  - assert (Hk : segment_heap s !! k = Some g).
    { rewrite <- (Nat.add_0_r k), <- lookup_drop, Hl. done. }
    assert (Hl' : drop (S k) (segment_heap s) = l).
    { change (S k) with (1 + k). rewrite Nat.add_comm, <- drop_drop, Hl. done. }
    cbn [length seq fmap list_fmap print_output_loop].
    rewrite (bind_Ok _ _ _ _ _ (load_segment_Some _ _ _ Hk)).
    rewrite (IH (S k) _ Hl'). rewrite filter_cons.
    destruct (seg_done g) eqn:Hd.
    + rewrite decide_True by done. by rewrite <- app_assoc.
    + rewrite decide_False by done. done.
Qed.

(** After a run of the driver that returns, [print_output] returns too
    and changes nothing: every pointer of the output is live.  It writes
    the line of the box and then one line for each segment that is done,
    in the order in which the segments were created. *)
Theorem print_output_after_run (fuel : nat) (ps : list (Point D)) (s : FA) :
  run fuel ps = Ok (tt, s) ->
  print_output s
  = Ok ([x_min s; x_max s; y_min s; y_max s]
          :: (segment_row <$> filter (fun g => seg_done g = true) (segment_heap s)), s).
Proof.
  unfold run. intros (u & s1 & Hadd & Hrun)%bind_Ok_inv.
  assert (Hc : output_complete s).
  { eapply compute_complete; [| done]. eapply add_points_complete; [| done]. reflexivity. }
  unfold print_output, bind at 1 2, gets. rewrite Hc.
  by rewrite (print_output_loop_arena s (segment_heap s) 0 _ eq_refl).
Qed.

End PrintOutputFacts.

(** The run of [main.cpp]: thirteen lines. *)
Lemma print_output_after_run_witness :
  exists rows, print_output main_output = Ok (rows, main_output) /\ length rows = 13.
Proof.
  eexists. split.
  - apply (print_output_after_run 20 main_sites). vm_compute. reflexivity.
  - vm_compute. reflexivity.
Defined.

(** ** The root of the beachline *)

Section RootFacts.

Context {D : Type} `{Double D}.
Local Open Scope double_scope.
Local Open Scope fa_scope.

Local Abbreviation FA := (FortuneAlgorithm D).

(** [root] is the arc [k], whose site is [p0]. *)
Local Abbreviation rooted k p0 :=
  (fun s : FA => root s = Some k /\ exists a, arc_heap s !! k = Some a /\ arc_p a = p0).

Lemma rooted_step {A : Type} (m : M D A) (k : nat) (p0 : Point D) :
  steps (keeps root) m -> steps (@extends D) m -> preserves (rooted k p0) m.
Proof.
  intros Hk He s a s' [Hr (b & Hb & Hp)] Hrun.
  pose proof (Hk _ _ _ Hrun) as Hroot. unfold keeps in Hroot.
  destruct (He _ _ _ Hrun) as (Harcs & _).
  destruct (Harcs k b Hb) as (b' & Hb' & Hp').
  split; [congruence |]. exists b'. split; [done | congruence].
Qed.

Lemma keeps_root_front_insert_scan (fuel : nat) (p : Point D) (i : ArcPtr) :
  steps (keeps root) (front_insert_scan fuel p i).
Proof.
  pose proof keeps_root_front_insert_split as Hs.
  revert i. induction fuel as [|fuel IH]; intros [n|]; cbn [front_insert_scan]; keeps_go.
Qed.

Lemma keeps_root_front_insert_append (p : Point D) :
  steps (keeps root) (front_insert_append p).
Proof. unfold front_insert_append. cbv zeta. keeps_go. Qed.

Lemma keeps_root_finish_edges : steps (keeps root) (@finish_edges D _).
Proof.
  assert (Hl : forall fuel l i, steps (keeps root) (finish_edges_loop (D:=D) fuel l i)).
  { induction fuel as [|fuel IH]; intros l i; cbn [finish_edges_loop]; keeps_go. }
  unfold finish_edges. keeps_go.
Qed.

(** Once there is a root, [front_insert] does not replace it. *)
Lemma front_insert_rooted (p : Point D) (k : nat) (p0 : Point D) :
  preserves (rooted k p0) (front_insert p).
Proof.
  intros s u s' Hs Hrun. pose proof Hs as [Hr _].
  unfold front_insert in Hrun. unfold bind at 1, gets at 1 in Hrun. rewrite Hr in Hrun.
  eapply rooted_step; [| | exact Hs | exact Hrun].
  - pose proof keeps_root_front_insert_scan as Hscan.
    pose proof keeps_root_front_insert_append as Happ. keeps_go.
  - apply steps_bind; [apply _ | by apply steps_readonly; [apply _ | apply readonly_gets] |].
    intros n. apply steps_bind; [apply _ | apply extends_front_insert_scan |].
    intros []; [apply steps_ret; apply _ | apply extends_front_insert_append].
Qed.

Lemma process_point_rooted (k : nat) (p0 : Point D) :
  preserves (rooted k p0) (@process_point D _).
Proof.
  unfold process_point.
  apply preserves_bind; [apply rooted_step; [keeps_go | apply extends_points_top] |].
  intros p. apply preserves_bind; [apply rooted_step; [keeps_go | apply extends_points_pop] |].
  intros _. apply front_insert_rooted.
Qed.

Lemma process_event_rooted (k : nat) (p0 : Point D) :
  preserves (rooted k p0) (@process_event D _).
Proof. apply rooted_step; [apply keeps_root_process_event | apply extends_process_event]. Qed.

Lemma compute_step_rooted (k : nat) (p0 : Point D) :
  preserves (rooted k p0) (@compute_step D _).
Proof.
  unfold compute_step.
  apply preserves_bind; [apply rooted_step; [keeps_go | apply steps_readonly; [apply _ | apply readonly_gets]] |].
  intros es. apply preserves_bind.
  - apply rooted_step.
    + destruct (negb _); keeps_go.
    + destruct (negb _); [| apply steps_ret; apply _].
      apply steps_bind; [apply _ | apply extends_events_top | intros e].
      apply steps_bind; [apply _ | apply steps_readonly; [apply _ | apply readonly_load] | intros ev].
      apply steps_bind; [apply _ | apply extends_points_top | intros p].
      apply steps_ret; apply _.
  - intros []; [apply process_event_rooted | apply process_point_rooted].
Qed.

Lemma compute_sites_rooted (fuel : nat) (k : nat) (p0 : Point D) :
  preserves (rooted k p0) (@compute_sites D _ fuel).
Proof.
  induction fuel as [|fuel IH]; cbn [compute_sites];
    (apply preserves_bind;
       [apply rooted_step; [keeps_go | apply steps_readonly; [apply _ | apply readonly_gets]] |]);
    intros [|p ps]; try apply preserves_ret.
  - by intros s a s'.
  - apply preserves_bind; [apply compute_step_rooted | intros; apply IH].
Qed.

Lemma compute_events_rooted (fuel : nat) (k : nat) (p0 : Point D) :
  preserves (rooted k p0) (@compute_events D _ fuel).
Proof.
  induction fuel as [|fuel IH]; cbn [compute_events];
    (apply preserves_bind;
       [apply rooted_step; [keeps_go | apply steps_readonly; [apply _ | apply readonly_gets]] |]);
    intros [|p ps]; try apply preserves_ret.
  - by intros s a s'.
  - apply preserves_bind; [apply process_event_rooted | intros; apply IH].
Qed.

(** The sites are queued as given, and nothing else is touched. *)
Lemma add_points_fresh (ps : list (Point D)) (s s' : FA) :
  add_points ps s = Ok (tt, s') ->
  points s' = points s ++ ps /\ root s' = root s /\ arc_heap s' = arc_heap s
  /\ events s' = events s.
Proof.
  revert s. induction ps as [|p ps IH]; intros s; cbn [add_points].
  - unfold ret. intros ?. simplify_eq. by rewrite app_nil_r.
  - intros (u & s1 & Hadd & Hrest)%bind_Ok_inv.
    rewrite add_point_run in Hadd. simplify_eq.
    destruct (IH _ Hrest) as (Hp & Hr & Ha & He).
    rewrite Hp, Hr, Ha, He. cbv zeta.
    destruct (_ =? 1)%nat; cbn; by rewrite <- app_assoc.
Qed.

(** When the driver returns, [root] is the first arc that was created,
    the arc of the site that the queue handed out first: no later step
    has replaced the root or moved its site. *)
Theorem run_root_first_arc (fuel : nat) (ps : list (Point D)) (s : FA) :
  run fuel ps = Ok (tt, s) ->
  exists p0 rest a,
    pq_pop Point_gt ps = Some (p0, rest)
    /\ root s = Some 0 /\ arc_heap s !! 0 = Some a /\ arc_p a = p0.
Proof.
  unfold run. intros (u & s0 & Hadd & Hrun)%bind_Ok_inv. destruct u.
  apply add_points_fresh in Hadd as (Hps & Hr0 & Ha0 & He0). cbn in Hps, Hr0, Ha0, He0.
  unfold compute in Hrun.
  apply bind_Ok_inv in Hrun as (u1 & s1 & Hm & Hrun).
  assert (Hs1 : points s1 = ps /\ root s1 = None /\ arc_heap s1 = [] /\ events s1 = []).
  { unfold compute_margins, bind, gets, modify in Hm. by simplify_eq. }
  destruct Hs1 as (Hps1 & Hr1 & Ha1 & He1). clear Hm Hps Hr0 Ha0 He0 s0.
  apply bind_Ok_inv in Hrun as (u2 & s2 & Hsites & Hrun).
  apply bind_Ok_inv in Hrun as (u3 & s3 & Hevents & Hfin).
  destruct (pq_pop Point_gt ps) as [[p0 rest]|] eqn:Hpop.
  - exists p0, rest.
    (* the first turn makes the root *)
    assert (H2 : rooted 0 p0 s2).
    { destruct fuel as [|fuel]; cbn [compute_sites] in Hsites;
        unfold bind at 1, gets at 1 in Hsites; rewrite Hps1 in Hsites;
        (destruct ps as [|p ps']; [done |]); [done |].
      apply bind_Ok_inv in Hsites as (u4 & s4 & Hstep & Hsites).
      eapply compute_sites_rooted; [| exact Hsites].
      rewrite compute_step_no_event in Hstep by done.
      unfold process_point in Hstep.
      unfold bind at 1, points_top at 1 in Hstep. rewrite Hps1, Hpop in Hstep.
      unfold bind at 1, points_pop at 1 in Hstep. rewrite Hps1, Hpop in Hstep.
      unfold front_insert in Hstep. unfold bind at 1, gets at 1 in Hstep.
      cbn [root set_points] in Hstep. rewrite Hr1 in Hstep.
      unfold bind, new_arc, modify in Hstep. simplify_eq.
      cbn. rewrite Ha1. split; [done |]. by eexists. }
    assert (H3 : rooted 0 p0 s3) by (eapply compute_events_rooted; [exact H2 | exact Hevents]).
    assert (H4 : rooted 0 p0 s).
    { eapply rooted_step; [apply keeps_root_finish_edges | apply extends_finish_edges | exact H3 | exact Hfin]. }
    destruct H4 as (Hr & a & Ha & Hp). exists a. done.
  - (* no site: [finish_edges] does not return *)
    apply pq_pop_None in Hpop. rewrite Hpop in Hps1.
    assert (s2 = s1) as ->.
    { destruct fuel; cbn [compute_sites] in Hsites;
        unfold bind, gets in Hsites; rewrite Hps1 in Hsites; unfold ret in Hsites;
        by simplify_eq. }
    assert (s3 = s1) as ->.
    { destruct fuel; cbn [compute_events] in Hevents;
        unfold bind, gets in Hevents; rewrite He1 in Hevents; unfold ret in Hevents;
        by simplify_eq. }
    by rewrite finish_edges_null_root in Hfin.
Qed.

End RootFacts.

(** The run of [main.cpp]: the root is the arc of (100, 200). *)
Lemma run_root_first_arc_witness :
  root main_output = Some 0
  /\ arc_p <$> arc_heap main_output !! 0 = Some (mkPoint 100%float 200%float).
Proof.
  destruct (run_root_first_arc 20 main_sites main_output)
    as (p0 & rest & a & Hpop & Hr & Ha & Hp).
  - vm_compute. reflexivity.
  - split; [exact Hr |]. rewrite Ha. cbn. rewrite Hp.
    vm_compute in Hpop. by injection Hpop as <- _.
Defined.

(** ** Every arc has the site of an input point *)

Section SitesFacts.

Context {D : Type} `{Double D}.
Context (sites : list (Point D)).
Local Open Scope double_scope.
Local Open Scope fa_scope.

Local Abbreviation FA := (FortuneAlgorithm D).

(** The queued sites and the sites of the arcs. *)
Local Abbreviation all_sites := (fun s : FA => (points s, arc_p <$> arc_heap s)).

Lemma keeps_sites_among {A : Type} (m : M D A) :
  steps (keeps all_sites) m -> preserves (sites_among sites) m.
Proof.
  intros Hm s a s' [Hp Ha] Hrun. apply Hm in Hrun. unfold keeps in Hrun.
  simplify_eq. split.
  - intros p. rewrite H0. apply Hp.
  - intros p. rewrite H1. apply Ha.
Qed.

Lemma sites_bind_p_of {B : Type} (i : ArcPtr) (k : Point D -> M D B) :
  (forall ip, ip ∈ sites -> preserves (sites_among sites) (k ip)) ->
  preserves (sites_among sites) (let* ip := p_of i in k ip).
Proof.
  intros Hk s b s' Hs (ip & s1 & Hip & Hrun)%bind_Ok_inv.
  apply bind_Ok_inv in Hip as (a & s2 & (-> & n & -> & Hn)%load_arc_inv & Hret).
  unfold ret in Hret. simplify_eq.
  eapply Hk; [| done | done]. destruct Hs as [_ Ha]. apply Ha.
  apply list_elem_of_fmap. exists a. split; [done |]. by eapply list_elem_of_lookup_2.
Qed.

Lemma sites_bind_new_arc {B : Type} (a : Arc D) (k : ArcPtr -> M D B) :
  arc_p a ∈ sites ->
  (forall c, preserves (sites_among sites) (k c)) ->
  preserves (sites_among sites) (let* c := new_arc a in k c).
Proof.
  intros Ha Hk s b s' [Hp Harcs] (c & s1 & Hnew & Hrun)%bind_Ok_inv.
  unfold new_arc in Hnew. simplify_eq. eapply Hk; [| done]. split; [done |].
  cbn. intros p. rewrite fmap_app, elem_of_app. intros [Hin | Hin]; [by apply Harcs |].
  cbn in Hin. apply list_elem_of_singleton in Hin as ->. done.
Qed.

Lemma sites_bind_points_top {B : Type} (k : Point D -> M D B) :
  (forall p, p ∈ sites -> preserves (sites_among sites) (k p)) ->
  preserves (sites_among sites) (let* p := points_top in k p).
Proof.
  intros Hk s b s' Hs (p & s1 & Htop & Hrun)%bind_Ok_inv.
  unfold points_top in Htop. destruct (pq_pop _ _) as [[p' q]|] eqn:Hq; [| done].
  simplify_eq. eapply Hk; [| done | done]. destruct Hs as [Hp _]. apply Hp.
  rewrite (pq_pop_perm _ _ _ _ Hq). by left.
Qed.

Lemma sites_points_pop : preserves (sites_among sites) (@points_pop D _).
Proof.
  intros s u s' [Hp Ha]. unfold points_pop.
  destruct (pq_pop _ _) as [[p' q]|] eqn:Hq; [| done]. intros ?. simplify_eq.
  split; [| done]. cbn. intros p Hin. apply Hp.
  rewrite (pq_pop_perm _ _ _ _ Hq). by right.
Qed.

Ltac sites_go :=
  repeat first
    [ apply preserves_ret
    | apply sites_bind_p_of; intros ? ?
    | apply sites_bind_new_arc; [cbn [arc_p Arc_new]; assumption | intros ?]
    | apply sites_bind_points_top; intros ? ?
    | apply sites_points_pop
    | match goal with
      | |- preserves _ (bind _ _) => apply preserves_bind; [| intros ?]
      | |- preserves _ (match ?c with Some _ => _ | None => _ end) => destruct c
      | |- preserves _ (if ?c then _ else _) => destruct c
      | H : forall x y, preserves _ (?f x y) |- preserves _ (?f _ _) => apply H
      | H : forall x y z, preserves _ (?f x y z) |- preserves _ (?f _ _ _) => apply H
      end
    | apply keeps_sites_among; solve [keeps_go] ].

Lemma check_circle_event_sites (i : ArcPtr) (x0 : D) :
  preserves (sites_among sites) (check_circle_event i x0).
Proof. apply keeps_sites_among. unfold check_circle_event. keeps_go. Qed.

Lemma process_event_sites : preserves (sites_among sites) (@process_event D _).
Proof.
  apply keeps_sites_among.
  assert (Hc : forall i x0, steps (keeps all_sites) (check_circle_event i x0)).
  { intros i x0. unfold check_circle_event. keeps_go. }
  unfold process_event, process_event_fire. cbv zeta. keeps_go.
Qed.

Lemma front_insert_split_sites (p : Point D) (i : ArcPtr) (z : Point D) :
  p ∈ sites -> preserves (sites_among sites) (front_insert_split p i z).
Proof.
  intros Hp. pose proof check_circle_event_sites as Hc.
  unfold front_insert_split. sites_go.
Qed.

Lemma front_insert_scan_sites (fuel : nat) (p : Point D) (i : ArcPtr) :
  p ∈ sites -> preserves (sites_among sites) (front_insert_scan fuel p i).
Proof.
  intros Hp. revert i. induction fuel as [|fuel IH]; intros [n|]; cbn [front_insert_scan];
    try apply preserves_ret.
  - by intros s a s'.
  - apply preserves_bind; [sites_go |]. intros [z|].
    + apply preserves_bind; [by apply front_insert_split_sites | intros; apply preserves_ret].
    + apply preserves_bind; [sites_go | intros; apply IH].
Qed.

Lemma front_insert_sites (p : Point D) :
  p ∈ sites -> preserves (sites_among sites) (front_insert p).
Proof.
  intros Hp. unfold front_insert. apply preserves_bind; [sites_go |]. intros [r|].
  - apply preserves_bind; [sites_go |]. intros n.
    apply preserves_bind; [by apply front_insert_scan_sites |].
    intros []; [apply preserves_ret |]. unfold front_insert_append. cbv zeta. sites_go.
  - sites_go.
Qed.

Lemma process_point_sites : preserves (sites_among sites) (@process_point D _).
Proof.
  unfold process_point. apply sites_bind_points_top. intros p Hp.
  apply preserves_bind; [apply sites_points_pop | intros _]. by apply front_insert_sites.
Qed.

Lemma compute_step_sites : preserves (sites_among sites) (@compute_step D _).
Proof.
  unfold compute_step. apply preserves_bind; [sites_go |]. intros es.
  apply preserves_bind.
  - apply keeps_sites_among. destruct (negb _); keeps_go.
  - intros []; [apply process_event_sites | apply process_point_sites].
Qed.

Lemma compute_sites_among (fuel : nat) : preserves (sites_among sites) (compute fuel).
Proof.
  assert (Hsites : forall fuel, preserves (sites_among sites) (@compute_sites D _ fuel)).
  { clear fuel. induction fuel as [|fuel IH]; cbn [compute_sites];
      (apply preserves_bind; [sites_go |]); intros [|p ps]; try apply preserves_ret.
    - by intros s a s'.
    - apply preserves_bind; [apply compute_step_sites | intros; apply IH]. }
  assert (Hevents : forall fuel, preserves (sites_among sites) (@compute_events D _ fuel)).
  { clear fuel. induction fuel as [|fuel IH]; cbn [compute_events];
      (apply preserves_bind; [sites_go |]); intros [|p ps]; try apply preserves_ret.
    - by intros s a s'.
    - apply preserves_bind; [apply process_event_sites | intros; apply IH]. }
  assert (Hloop : forall fuel l i,
            steps (keeps all_sites) (finish_edges_loop fuel l i)).
  { clear fuel. induction fuel as [|fuel IH]; intros l i; cbn [finish_edges_loop]; keeps_go. }
  unfold compute.
  apply preserves_bind; [apply keeps_sites_among; unfold compute_margins; keeps_go |].
  intros _. apply preserves_bind; [apply Hsites | intros _].
  apply preserves_bind; [apply Hevents | intros _].
  apply keeps_sites_among. unfold finish_edges. keeps_go.
Qed.

End SitesFacts.

Section SitesOfRun.

Context {D : Type} `{Double D}.

(** When the driver returns, the site of every arc in the arena, on the
    beachline or not, is one of the points that were added: [compute]
    invents no site, and the copies that [front_insert] makes carry the
    site of the arc they copy. *)
Theorem run_arcs_have_input_sites (fuel : nat) (ps : list (Point D))
    (s : FortuneAlgorithm D) (n : nat) (a : Arc D) :
  run fuel ps = Ok (tt, s) ->
  arc_heap s !! n = Some a ->
  arc_p a ∈ ps.
Proof.
  unfold run. intros (u & s0 & Hadd & Hrun)%bind_Ok_inv Hn. destruct u.
  apply add_points_fresh in Hadd as (Hps & _ & Ha0 & _). cbn in Hps, Ha0.
  assert (H0 : sites_among ps s0).
  { split; [by rewrite Hps |]. rewrite Ha0. cbn. intros p Hp. by apply elem_of_nil in Hp. }
  destruct (compute_sites_among ps fuel _ _ _ H0 Hrun) as [_ Harcs].
  apply Harcs. apply list_elem_of_fmap. exists a. split; [done |].
  by eapply list_elem_of_lookup_2.
Qed.

End SitesOfRun.

(** The run of [main.cpp]: the arc 8, made when the last site was
    inserted. *)
Lemma run_arcs_have_input_sites_witness :
  exists a, arc_heap main_output !! 8 = Some a /\ arc_p a ∈ main_sites.
Proof.
  destruct (arc_heap main_output !! 8) as [a|] eqn:Ha.
  - exists a. split; [reflexivity |].
    apply (run_arcs_have_input_sites 20 main_sites main_output 8 a).
    + vm_compute. reflexivity.
    + exact Ha.
  - vm_compute in Ha. discriminate Ha.
Defined.

(** ** The sweep position of [finish_edges] *)

Section FinishLineExact.

Local Open Scope R_scope.

(** [finish_edges] closes the open segments at the sweep position
    [2 * l], where [l = x_max + (x_max - x_min) + (y_max - y_min)] is
    taken from the box with its margins.  In exact arithmetic, when [l] is
    positive that position is strictly to the right of every input site,
    so that no call of [intersection] on two input sites divides by
    zero.  (A box that lies far enough to the left makes [l] negative, and
    then [2 * l] is to the left of [l].) *)
Theorem finish_edges_line_right_of_sites (ps : list (Point R)) (s s' : FortuneAlgorithm R) :
  add_points ps FortuneAlgorithm_new = Ok (tt, s) ->
  compute_margins s = Ok (tt, s') ->
  let l := x_max s' + (x_max s' - x_min s') + (y_max s' - y_min s') in
  0 < l ->
  forall p, p ∈ ps ->
    px p < l * 2
    /\ forall q, q ∈ ps -> intersection_checked p q (l * 2) <> None.
Proof.
  intros Hadd Hm l Hl.
  destruct (add_points_bounding_box_from ps FortuneAlgorithm_new) as (t & Hadd' & Hps & [Hin _]).
  { split; [intros p Hp; by apply elem_of_nil in Hp | done]. }
  rewrite Hadd in Hadd'. injection Hadd' as <-. cbn in Hps.
  destruct (compute_margins_run s) as (t' & Hm' & _ & _ & _ & Hx0 & Hx1 & Hy0 & Hy1).
  rewrite Hm in Hm'. injection Hm' as <-.
  assert (Hright : forall p, p ∈ ps -> px p < l * 2).
  { intros p Hp. rewrite <- Hps in Hp. apply Hin, in_box_R in Hp.
    subst l. rewrite Hx0, Hx1, Hy0, Hy1 in *. lra. }
  intros p Hp. split; [by apply Hright |].
  intros q Hq Hnone. apply intersection_checked_None_iff in Hnone as [_ Heq].
  specialize (Hright p Hp). lra.
Qed.

(** The single site (0, 0): the box with margins is [-1/5, 1/5] in both
    directions, and [l] is 1. *)
Lemma finish_edges_line_right_of_sites_witness :
  exists s s', add_points [mkPoint 0 0] FortuneAlgorithm_new = Ok (tt, s)
    /\ compute_margins s = Ok (tt, s')
    /\ 0 < (x_max s' + (x_max s' - x_min s') + (y_max s' - y_min s')) * 2.
Proof.
  eexists _, _. split; [reflexivity |]. split; [reflexivity |].
  epose proof (finish_edges_line_right_of_sites [mkPoint 0 0] _ _ eq_refl eq_refl) as Hthm.
  cbn in Hthm. cbn.
  assert (Hl : 0 < 0 + (0 - 0 + 1) / 5 + (0 + (0 - 0 + 1) / 5 - (0 - (0 - 0 + 1) / 5))
                 + (0 + (0 - 0 + 1) / 5 - (0 - (0 - 0 + 1) / 5))) by lra.
  destruct (Hthm Hl (mkPoint 0 0)) as [Hright _]; [by left |]. exact Hright.
Defined.

End FinishLineExact.
